(** * Velmora on Aptos: the CoA ledger and the NFT metadata pool

    A shallow embedding of the two Move modules of the package
    [velmora-aptos], [velmora::velmora_nft] and [velmora::coins_of_aura],
    and the properties of the allocation engine that are stated about them.

    Move values are modelled as follows.  A [u64] is a [Z]; checked
    subtraction is written out ([u64_sub]).  A [vector<T>] is a [list T]
    indexed through [borrow], which fails out of range as [vector::borrow]
    does.  A [String] is a [string].  Global storage of a resource type is
    a [gmap] from addresses to resource values.  An entry function is a
    computation in the monad [M]: it reads the transaction environment,
    threads the global state and either returns or aborts.  An abort keeps
    the state reached at the abort point, so that the order of checks and
    writes inside a function stays visible; [transaction] is the
    all-or-nothing execution of the Move VM, which discards that state. *)

From stdpp Require Import gmap strings list.
From Stdlib Require Import ZArith Lia.

Open Scope Z_scope.

(** ** Move prelude *)

Module move.

Definition address : Type := Z.

(** Why an execution stopped.  [Abort] carries the code of an [assert!] of
    the package itself; the other constructors are failures raised by the
    VM or inside a dependency. *)
Inductive abort : Type :=
| Abort (code : Z)
| MissingResource
| ResourceExists
| IndexOutOfBounds
| ArithmeticError
| OutOfFuel
| FrameworkAbort.

Global Instance abort_eq_dec : EqDecision abort.
Proof. solve_decision. Defined.

(** [std::error]: a category in the upper bits, the reason below. *)
Definition canonical (category reason : Z) : Z := Z.shiftl category 16 + reason.
Definition invalid_argument (r : Z) : Z := canonical 1 r.
Definition invalid_state (r : Z) : Z := canonical 3 r.
Definition permission_denied (r : Z) : Z := canonical 5 r.
Definition not_found (r : Z) : Z := canonical 6 r.

Definition result (A : Type) : Type := abort + A.

Definition MAX_U64 : Z := 18446744073709551615.
Definition MAX_U128 : Z := 340282366920938463463374607431768211455.

(** What a transaction reads from the chain: [timestamp::now_seconds] and
    the integer that [aptos_framework::randomness] draws. *)
Record Env : Type := { now : Z; random_bits : Z }.

Inductive outcome (St A : Type) : Type :=
| Ok (a : A) (s : St)
| Fail (e : abort) (s : St).
Global Arguments Ok {St A} a s.
Global Arguments Fail {St A} e s.

Definition M (St A : Type) : Type := Env → St → outcome St A.

Definition ret {St A} (a : A) : M St A := λ _ s, Ok a s.
Definition bind {St A B} (m : M St A) (k : A → M St B) : M St B :=
  λ env s, match m env s with
           | Ok a s' => k a env s'
           | Fail e s' => Fail e s'
           end.
Global Instance M_ret {St} : MRet (M St) := λ A, @ret St A.
Global Instance M_bind {St} : MBind (M St) := λ A B k m, bind m k.
Definition throw {St A} (e : abort) : M St A := λ _ s, Fail e s.
Definition get {St} : M St St := λ _ s, Ok s s.
Definition put {St} (s : St) : M St unit := λ _ _, Ok tt s.
Definition ask {St} : M St Env := λ env s, Ok env s.

(** [assert!(c, code)] *)
Definition assert {St} (c : bool) (code : Z) : M St unit :=
  if c then ret tt else throw (Abort code).

(** A value that a partial operation may fail to produce. *)
Definition lift_opt {St A} (o : option A) (e : abort) : M St A :=
  match o with Some a => ret a | None => throw e end.

Definition lift_res {St A} (r : result A) : M St A :=
  match r with inr a => ret a | inl e => throw e end.

(** The VM runs a transaction atomically: the writes of an aborted
    execution are dropped. *)
Definition transaction {St A} (m : M St A) (env : Env) (s : St)
  : (abort + A) * St :=
  match m env s with
  | Ok a s' => (inr a, s')
  | Fail e _ => (inl e, s)
  end.

(** [a - b] on [u64] *)
Definition u64_sub (a b : Z) : option Z :=
  if a <? b then None else Some (a - b).

(** [a + b] and [a * b] on [u64] *)
Definition u64_add (a b : Z) : option Z :=
  if MAX_U64 <? a + b then None else Some (a + b).
Definition u64_mul (a b : Z) : option Z :=
  if MAX_U64 <? a * b then None else Some (a * b).

(** [vector::borrow] *)
Definition borrow {A} (v : list A) (i : Z) : option A :=
  if i <? 0 then None else v !! Z.to_nat i.

(** [*vector::borrow_mut(&mut v, i) = x] *)
Definition store {A} (v : list A) (i : Z) (x : A) : option (list A) :=
  match borrow v i with
  | Some _ => Some (<[Z.to_nat i := x]> v)
  | None => None
  end.

(** [vector::pop_back] *)
Definition pop_back {A} (v : list A) : option (list A) :=
  match v with
  | [] => None
  | _ => Some (take (length v - 1)%nat v)
  end.

(** [vector::swap_remove]: the last element takes the place of the one
    removed. *)
Definition swap_remove {A} (v : list A) (i : Z) : option (list A) :=
  match borrow v i, last v with
  | Some _, Some l => pop_back (<[Z.to_nat i := l]> v)
  | _, _ => None
  end.

(** [vector::slice(v, 0, n)] *)
Definition slice0 {A} (v : list A) (n : nat) : option (list A) :=
  if (n <=? length v)%nat then Some (take n v) else None.

(** [randomness::u64_range(min_incl, max_excl)] *)
Definition u64_range (min_incl max_excl : Z) (bits : Z) : Z :=
  min_incl + bits mod (max_excl - min_incl).

(** [std::bcs::to_bytes] of a [u64]: eight bytes, least significant first. *)
Fixpoint le_bytes (n : nat) (x : Z) : list Z :=
  match n with
  | O => []
  | S n' => x mod 256 :: le_bytes n' (x / 256)
  end.
Definition bcs_u64 (x : Z) : list Z := le_bytes 8 x.

(** [std::bcs::to_bytes] of an [address]: its thirty-two bytes in order. *)
Definition bcs_address (a : address) : list Z := rev (le_bytes 32 a).

End move.

Import move.

(** ** The token standard the collection is built on

    [aptos_token::token] is a dependency of the package.  The NFT module only
    calls it; none of the properties below depends on how it stores tokens, so
    it enters as an interface.  Every operation may abort ([None]).
    [get_property_map] stands for the lookup of the property map together
    with the reads of [rarity] and [skill] that follow it in
    [get_nft_attributes]. *)

Definition TokenDataId : Type := address * string * string.
Definition TokenId : Type := TokenDataId * Z.

(** The property map that [mint_nft] attaches to a token: the keys
    [rarity], [skill], [mint_time] and [ipfs_uri]. *)
Record Properties : Type := {
  prop_rarity : Z;
  prop_skill : Z;
  prop_mint_time : Z;
  prop_ipfs_uri : string;
}.

Class TokenFramework : Type := {
  TokenStore : Type;
  create_collection :
    address → string → string → string → Z → TokenStore → option TokenStore;
  create_token_data_id : address → string → string → option TokenDataId;
  create_tokendata :
    address → string → string → string → Z → string → address → Z → Z →
    Properties → TokenStore → option (TokenDataId * TokenStore);
  mint_token : address → TokenDataId → Z → TokenStore → option (TokenId * TokenStore);
  opt_in_direct_transfer : address → bool → TokenStore → option TokenStore;
  transfer : address → TokenId → address → Z → TokenStore → option TokenStore;
  balance_of : address → TokenId → TokenStore → Z;
  burn : address → address → string → string → Z → Z → TokenStore → option TokenStore;
  burn_by_creator :
    address → address → string → string → Z → Z → TokenStore → option TokenStore;
  get_property_map : address → TokenId → TokenStore → option Properties;
}.

(** [std::hash::sha3_256], a native function. *)
Class Hashing : Type := { sha3_256 : list Z → list Z }.

(** ** [velmora::velmora_nft]

    All entry functions and the two views of the pool are modelled; the views
    [get_nft_metadata], [owns_token] and [get_collection_name] only read the
    token store and are left out. *)

Module velmora_nft.
Section with_tokens.
Context `{TokenFramework} `{Hashing}.

(** Error codes *)
Definition E_NOT_AUTHORIZED : Z := 1.
Definition E_COLLECTION_NOT_FOUND : Z := 2.
Definition E_INVALID_RARITY : Z := 3.
Definition E_INVALID_SKILL : Z := 4.
Definition E_INVALID_URI : Z := 5.

Definition MAX_RARITY : Z := 100.
Definition MAX_SKILL : Z := 100.

Definition COLLECTION_NAME : string := "Velmora NFTs".
Definition COLLECTION_DESCRIPTION : string :=
  "Cross-chain gaming NFTs from Velmora platform".
Definition COLLECTION_URI : string := "https://velmora.com/nft-collection".

Definition MAX_METADATA_ID : Z := 1200.

Record MintEvent : Type := {
  mint_token_id : TokenId;
  mint_creator : address;
  mint_owner : address;
  mint_rarity : Z;
  mint_skill : Z;
  mint_timestamp : Z;
}.

Record TransferEvent : Type := {
  transfer_token_id : TokenId;
  transfer_from : address;
  transfer_to : address;
  transfer_timestamp : Z;
}.

Record BurnEvent : Type := {
  burn_token_id : TokenId;
  burn_owner : address;
  burn_rarity : Z;
  burn_skill : Z;
  burn_timestamp : Z;
}.

(** The resource stored in the creator's account.  An event handle is the
    list of the events emitted through it, oldest first. *)
Record VelmoraNFTData : Type := {
  mint_events : list MintEvent;
  transfer_events : list TransferEvent;
  burn_events : list BurnEvent;
  collection_name : string;
  admin : address;
  used_metadata_ids : list bool;
  available_metadata_ids : list Z;
  available_count : Z;
}.

Definition set_used (v : list bool) (d : VelmoraNFTData) : VelmoraNFTData :=
  {| mint_events := mint_events d; transfer_events := transfer_events d;
     burn_events := burn_events d; collection_name := collection_name d;
     admin := admin d; used_metadata_ids := v;
     available_metadata_ids := available_metadata_ids d;
     available_count := available_count d |}.

Definition set_available (v : list Z) (d : VelmoraNFTData) : VelmoraNFTData :=
  {| mint_events := mint_events d; transfer_events := transfer_events d;
     burn_events := burn_events d; collection_name := collection_name d;
     admin := admin d; used_metadata_ids := used_metadata_ids d;
     available_metadata_ids := v;
     available_count := available_count d |}.

Definition set_count (n : Z) (d : VelmoraNFTData) : VelmoraNFTData :=
  {| mint_events := mint_events d; transfer_events := transfer_events d;
     burn_events := burn_events d; collection_name := collection_name d;
     admin := admin d; used_metadata_ids := used_metadata_ids d;
     available_metadata_ids := available_metadata_ids d;
     available_count := n |}.

Definition emit_mint (e : MintEvent) (d : VelmoraNFTData) : VelmoraNFTData :=
  {| mint_events := mint_events d ++ [e]; transfer_events := transfer_events d;
     burn_events := burn_events d; collection_name := collection_name d;
     admin := admin d; used_metadata_ids := used_metadata_ids d;
     available_metadata_ids := available_metadata_ids d;
     available_count := available_count d |}.

Definition emit_transfer (e : TransferEvent) (d : VelmoraNFTData) : VelmoraNFTData :=
  {| mint_events := mint_events d; transfer_events := transfer_events d ++ [e];
     burn_events := burn_events d; collection_name := collection_name d;
     admin := admin d; used_metadata_ids := used_metadata_ids d;
     available_metadata_ids := available_metadata_ids d;
     available_count := available_count d |}.

Definition emit_burn (e : BurnEvent) (d : VelmoraNFTData) : VelmoraNFTData :=
  {| mint_events := mint_events d; transfer_events := transfer_events d;
     burn_events := burn_events d ++ [e]; collection_name := collection_name d;
     admin := admin d; used_metadata_ids := used_metadata_ids d;
     available_metadata_ids := available_metadata_ids d;
     available_count := available_count d |}.

(** Global state: the [VelmoraNFTData] resources and the token store. *)
Record World : Type := {
  nft : gmap address VelmoraNFTData;
  tokens : TokenStore;
}.

Definition exists_data (a : address) : M World bool :=
  w ← get; mret (bool_decide (is_Some (nft w !! a))).

(** [borrow_global] and [borrow_global_mut]: the value under the reference. *)
Definition borrow_global (a : address) : M World VelmoraNFTData :=
  w ← get; lift_opt (nft w !! a) MissingResource.

(** A write through a [&mut VelmoraNFTData] obtained for address [a]. *)
Definition write (a : address) (f : VelmoraNFTData → VelmoraNFTData) : M World unit :=
  w ← get;
  d ← lift_opt (nft w !! a) MissingResource;
  put {| nft := <[a := f d]> (nft w); tokens := tokens w |}.

(** [move_to] *)
Definition move_to (a : address) (d : VelmoraNFTData) : M World unit :=
  w ← get;
  match nft w !! a with
  | Some _ => throw ResourceExists
  | None => put {| nft := <[a := d]> (nft w); tokens := tokens w |}
  end.

(** A call into the token standard that changes its store. *)
Definition token_do (f : TokenStore → option TokenStore) : M World unit :=
  w ← get;
  t ← lift_opt (f (tokens w)) FrameworkAbort;
  put {| nft := nft w; tokens := t |}.

Definition token_call {A} (f : TokenStore → option (A * TokenStore)) : M World A :=
  w ← get;
  r ← lift_opt (f (tokens w)) FrameworkAbort;
  put {| nft := nft w; tokens := r.2 |};;
  mret r.1.

Definition token_read {A} (f : TokenStore → A) : M World A :=
  w ← get; mret (f (tokens w)).

Definition now_seconds : M World Z := env ← ask; mret (now env).

(** The loop of [initialize]: [i] runs from its start value up to
    [MAX_METADATA_ID]. *)
Fixpoint initialize_loop (fuel : nat) (i : Z) (available_ids : list Z)
    (used_ids : list bool) : option (list Z * list bool) :=
  match fuel with
  | O => None
  | S fuel' =>
      if i <=? MAX_METADATA_ID
      then initialize_loop fuel' (i + 1) (available_ids ++ [i]) (used_ids ++ [false])
      else Some (available_ids, used_ids)
  end.

Definition initialize (admin : address) : M World unit :=
  let admin_addr := admin in
  let collection_name := COLLECTION_NAME in
  let description := COLLECTION_DESCRIPTION in
  let collection_uri := COLLECTION_URI in
  token_do (create_collection admin collection_name description collection_uri 0);;
  '(available_ids, used_ids) ←
    lift_opt (initialize_loop (Z.to_nat MAX_METADATA_ID + 1) 1 [] []) OutOfFuel;
  move_to admin
    {| mint_events := []; transfer_events := []; burn_events := [];
       collection_name := collection_name;
       admin := admin_addr;
       used_metadata_ids := used_ids;
       available_metadata_ids := available_ids;
       available_count := MAX_METADATA_ID |}.

(** [vector::slice(uri_bytes, 0, n)] on the bytes of a string. *)
Definition starts_with (prefix uri : string) : bool :=
  if (String.length prefix <=? String.length uri)%nat
  then bool_decide (String.substring 0 (String.length prefix) uri = prefix)
  else false.

Definition validate_ipfs_uri (uri : string) : bool :=
  let ipfs_prefix := "ipfs://"%string in
  let https_ipfs_prefix := "https://ipfs.io/ipfs/"%string in
  let gateway_prefix := "https://gateway.pinata.cloud/ipfs/"%string in
  let lighthouse_prefix := "https://gateway.lighthouse.storage/ipfs/"%string in
  if starts_with ipfs_prefix uri then true
  else if starts_with https_ipfs_prefix uri then true
  else if starts_with gateway_prefix uri then true
  else if starts_with lighthouse_prefix uri then true
  else false.

Definition mint_nft (creator to : address) (name description uri : string)
    (rarity skill : Z) : M World unit :=
  let creator_addr := creator in
  assert (rarity <=? MAX_RARITY) (invalid_argument E_INVALID_RARITY);;
  assert (skill <=? MAX_SKILL) (invalid_argument E_INVALID_SKILL);;
  assert (validate_ipfs_uri uri) (invalid_argument E_INVALID_URI);;
  nft_data ← borrow_global creator_addr;
  assert (bool_decide (creator_addr = admin nft_data))
    (permission_denied E_NOT_AUTHORIZED);;
  mint_time ← now_seconds;
  let values := {| prop_rarity := rarity; prop_skill := skill;
                   prop_mint_time := mint_time; prop_ipfs_uri := uri |} in
  token_data_id ← token_call
    (create_tokendata creator (collection_name nft_data) name description 1 uri
       creator_addr 100 100 values);
  token_id ← token_call (mint_token creator token_data_id 1);
  token_do (opt_in_direct_transfer creator true);;
  token_do (transfer creator token_id to 1);;
  timestamp ← now_seconds;
  write creator_addr
    (emit_mint {| mint_token_id := token_id; mint_creator := creator_addr;
                  mint_owner := to; mint_rarity := rarity; mint_skill := skill;
                  mint_timestamp := timestamp |}).

Definition get_nft_attributes (creator : address) (collection_name token_name : string)
    (property_version : Z) : M World (Z * Z) :=
  token_data_id ←
    lift_opt (create_token_data_id creator collection_name token_name) FrameworkAbort;
  let token_id : TokenId := (token_data_id, property_version) in
  w ← get;
  property_map ← lift_opt (get_property_map creator token_id (tokens w)) FrameworkAbort;
  mret (prop_rarity property_map, prop_skill property_map).

Definition transfer_nft (from to creator : address) (collection_name token_name : string)
    (property_version : Z) : M World unit :=
  let from_addr := from in
  token_data_id ←
    lift_opt (create_token_data_id creator collection_name token_name) FrameworkAbort;
  let token_id : TokenId := (token_data_id, property_version) in
  token_do (transfer from token_id to 1);;
  has ← exists_data creator;
  if has : bool then
    timestamp ← now_seconds;
    write creator
      (emit_transfer {| transfer_token_id := token_id; transfer_from := from_addr;
                        transfer_to := to; transfer_timestamp := timestamp |})
  else mret tt.

Definition burn_nft (owner creator : address) (collection_name token_name : string)
    (property_version : Z) : M World unit :=
  let owner_addr := owner in
  token_data_id ←
    lift_opt (create_token_data_id creator collection_name token_name) FrameworkAbort;
  let token_id : TokenId := (token_data_id, property_version) in
  balance ← token_read (balance_of owner_addr token_id);
  assert (0 <? balance) (permission_denied E_NOT_AUTHORIZED);;
  '(rarity, skill) ← get_nft_attributes creator collection_name token_name property_version;
  token_do (burn owner creator collection_name token_name property_version 1);;
  has ← exists_data creator;
  if has : bool then
    timestamp ← now_seconds;
    write creator
      (emit_burn {| burn_token_id := token_id; burn_owner := owner_addr;
                    burn_rarity := rarity; burn_skill := skill;
                    burn_timestamp := timestamp |})
  else mret tt.

Definition admin_burn_nft (admin_signer owner : address)
    (collection_name token_name : string) (property_version : Z) : M World unit :=
  let admin_addr := admin_signer in
  nft_data ← borrow_global admin_addr;
  assert (bool_decide (admin_addr = admin nft_data))
    (permission_denied E_NOT_AUTHORIZED);;
  token_data_id ←
    lift_opt (create_token_data_id admin_addr collection_name token_name) FrameworkAbort;
  let token_id : TokenId := (token_data_id, property_version) in
  balance ← token_read (balance_of owner token_id);
  assert (0 <? balance) (not_found E_COLLECTION_NOT_FOUND);;
  '(rarity, skill) ←
    get_nft_attributes admin_addr collection_name token_name property_version;
  token_do (burn_by_creator admin_signer owner collection_name token_name
              property_version 1);;
  timestamp ← now_seconds;
  write admin_addr
    (emit_burn {| burn_token_id := token_id; burn_owner := owner;
                  burn_rarity := rarity; burn_skill := skill;
                  burn_timestamp := timestamp |}).

Definition LIGHTHOUSE_DIR : string :=
  "https://gateway.lighthouse.storage/ipfs/bafybeiem7ucsjote74moefa2kmprng6cdtcey43hakgvpww3icahqtpgee/".

Definition mint_from_ipfs_metadata (creator to : address) (metadata_id : Z)
    : M World unit :=
  assert ((1 <=? metadata_id) && (metadata_id <=? MAX_METADATA_ID))
    (invalid_argument E_INVALID_RARITY);;
  let uri_with_id :=
    if metadata_id =? 1 then (LIGHTHOUSE_DIR ++ "1.json")%string
    else if metadata_id =? 2 then (LIGHTHOUSE_DIR ++ "2.json")%string
    else if metadata_id =? 3 then (LIGHTHOUSE_DIR ++ "3.json")%string
    else (LIGHTHOUSE_DIR ++ "nft.json")%string in
  let name := "Aura Eye #"%string in
  let description := "Someone's ALWAYS watching you in Aura land"%string in
  let rarity := if metadata_id =? 1 then 12 else 50 in
  let skill := if metadata_id =? 1 then 7 else 50 in
  mint_nft creator to name description uri_with_id rarity skill.

Definition mint_from_metadata_id (creator to : address) (metadata_id rarity skill : Z)
    : M World unit :=
  assert ((1 <=? metadata_id) && (metadata_id <=? MAX_METADATA_ID))
    (invalid_argument E_INVALID_URI);;
  let uri_with_id :=
    if metadata_id =? 1 then (LIGHTHOUSE_DIR ++ "1.json")%string
    else if metadata_id =? 2 then (LIGHTHOUSE_DIR ++ "2.json")%string
    else (LIGHTHOUSE_DIR ++ "nft.json")%string in
  let name := "Velmora NFT"%string in
  let description := "A cross-chain gaming NFT from the Velmora platform"%string in
  mint_nft creator to name description uri_with_id rarity skill.

Definition mint_from_bridge (creator to : address) (name description ipfs_hash : string)
    (rarity skill : Z) : M World unit :=
  let ipfs_uri := ("ipfs://" ++ ipfs_hash)%string in
  mint_nft creator to name description ipfs_uri rarity skill.

(** The loop of [u64_to_string]: the decimal digits, least significant
    first. *)
Fixpoint digits_loop (fuel : nat) (temp : Z) (digits : list Z) : option (list Z) :=
  match fuel with
  | O => None
  | S fuel' =>
      if 0 <? temp
      then digits_loop fuel' (temp / 10) (digits ++ [temp mod 10 + 48])
      else Some digits
  end.

Definition utf8 (bytes : list Z) : string :=
  String.string_of_list_ascii ((λ b, Ascii.ascii_of_N (Z.to_N b)) <$> bytes).

Definition u64_to_string (num : Z) : result string :=
  if num =? 0 then inr "0"%string
  else match digits_loop 21 num [] with
       | Some digits => inr (utf8 (rev digits))
       | None => inl OutOfFuel
       end.

Definition mint_nft_with_metadata_id (creator to : address) (metadata_id : Z)
    : M World unit :=
  let base_uri :=
    "ipfs://bafybeiem7ucsjote74moefa2kmprng6cdtcey43hakgvpww3icahqtpgee/"%string in
  id_string ← lift_res (u64_to_string metadata_id);
  let extension := ".json"%string in
  let base_uri := (base_uri ++ id_string)%string in
  let base_uri := (base_uri ++ extension)%string in
  let name := ("Aura Eye #" ++ id_string)%string in
  let description :=
    ("Someone's ALWAYS watching you in Aura land - Random NFT #" ++ id_string)%string in
  let rarity := metadata_id mod 100 + 1 in
  times7 ← lift_opt (u64_mul metadata_id 7) ArithmeticError;
  let skill := times7 mod 100 + 1 in
  mint_nft creator to name description base_uri rarity skill.

(** The circular search of [mint_random_nft_secure]: from the drawn
    position, the first identifier whose flag is clear; [metadata_id]
    (zero) when [MAX_METADATA_ID] attempts found none. *)
Fixpoint scan_loop (fuel : nat) (used : list bool)
    (random_number attempts metadata_id : Z) : result Z :=
  match fuel with
  | O => inl OutOfFuel
  | S fuel' =>
      if attempts <? MAX_METADATA_ID then
        let check_id := (random_number + attempts - 1) mod MAX_METADATA_ID + 1 in
        match borrow used (check_id - 1) with
        | None => inl IndexOutOfBounds
        | Some false => inr check_id
        | Some true => scan_loop fuel' used random_number (attempts + 1) metadata_id
        end
      else inr metadata_id
  end.

(** The second loop of [mint_random_nft_secure]: the first position of
    [available] that holds [metadata_id] is removed by [swap_remove]. *)
Fixpoint remove_loop (fuel : nat) (available : list Z) (metadata_id i : Z)
    : result (list Z) :=
  match fuel with
  | O => inl OutOfFuel
  | S fuel' =>
      if i <? Z.of_nat (length available) then
        match borrow available i with
        | None => inl IndexOutOfBounds
        | Some x =>
            if x =? metadata_id then
              match swap_remove available i with
              | Some v => inr v
              | None => inl IndexOutOfBounds
              end
            else remove_loop fuel' available metadata_id (i + 1)
        end
      else inr available
  end.

(** Both allocation functions are entry functions without a return value;
    the model returns the identifier they pass to
    [mint_nft_with_metadata_id]. *)
Definition mint_random_nft_secure (creator to : address) : M World Z :=
  let creator_addr := creator in
  nft_data ← borrow_global creator_addr;
  assert (bool_decide (creator_addr = admin nft_data))
    (permission_denied E_NOT_AUTHORIZED);;
  assert (0 <? available_count nft_data) (invalid_state E_COLLECTION_NOT_FOUND);;
  env ← ask;
  let random_number := u64_range 1 (MAX_METADATA_ID + 1) (random_bits env) in
  metadata_id ←
    lift_res (scan_loop (Z.to_nat MAX_METADATA_ID + 1) (used_metadata_ids nft_data)
                random_number 0 0);
  assert (0 <? metadata_id) (invalid_state E_COLLECTION_NOT_FOUND);;
  used ← lift_opt (store (used_metadata_ids nft_data) (metadata_id - 1) true)
           IndexOutOfBounds;
  write creator_addr (set_used used);;
  nft_data ← borrow_global creator_addr;
  available ←
    lift_res (remove_loop (length (available_metadata_ids nft_data) + 1)
                (available_metadata_ids nft_data) metadata_id 0);
  write creator_addr (set_available available);;
  nft_data ← borrow_global creator_addr;
  count ← lift_opt (u64_sub (available_count nft_data) 1) ArithmeticError;
  write creator_addr (set_count count);;
  mint_nft_with_metadata_id creator to metadata_id;;
  mret metadata_id.

(** The loop of [mint_random_nft] over the first eight bytes of the hash,
    most significant first. *)
Fixpoint bytes_to_u64 (random_bytes : list Z) (random_u64 : Z) : option Z :=
  match random_bytes with
  | [] => Some random_u64
  | b :: rest =>
      shifted ← u64_mul random_u64 256;
      next ← u64_add shifted b;
      bytes_to_u64 rest next
  end.

Definition mint_random_nft (creator to : address) : M World Z :=
  let creator_addr := creator in
  nft_data ← borrow_global creator_addr;
  assert (bool_decide (creator_addr = admin nft_data))
    (permission_denied E_NOT_AUTHORIZED);;
  assert (0 <? available_count nft_data) (invalid_state E_COLLECTION_NOT_FOUND);;
  timestamp ← now_seconds;
  let creator_bytes := bcs_address creator_addr in
  let timestamp_bytes := bcs_u64 timestamp in
  let creator_bytes := creator_bytes ++ timestamp_bytes in
  let hash := sha3_256 creator_bytes in
  random_bytes ← lift_opt (slice0 hash 8) IndexOutOfBounds;
  random_u64 ← lift_opt (bytes_to_u64 random_bytes 0) ArithmeticError;
  let random_index := random_u64 mod available_count nft_data in
  metadata_id ← lift_opt (borrow (available_metadata_ids nft_data) random_index)
                  IndexOutOfBounds;
  last_index ← lift_opt (u64_sub (available_count nft_data) 1) ArithmeticError;
  (if bool_decide (random_index ≠ last_index) then
     last_id ← lift_opt (borrow (available_metadata_ids nft_data) last_index)
                 IndexOutOfBounds;
     available ← lift_opt (store (available_metadata_ids nft_data) random_index last_id)
                   IndexOutOfBounds;
     write creator_addr (set_available available)
   else mret tt);;
  nft_data ← borrow_global creator_addr;
  available ← lift_opt (pop_back (available_metadata_ids nft_data)) IndexOutOfBounds;
  write creator_addr (set_available available);;
  nft_data ← borrow_global creator_addr;
  count ← lift_opt (u64_sub (available_count nft_data) 1) ArithmeticError;
  write creator_addr (set_count count);;
  nft_data ← borrow_global creator_addr;
  slot ← lift_opt (u64_sub metadata_id 1) ArithmeticError;
  used ← lift_opt (store (used_metadata_ids nft_data) slot true) IndexOutOfBounds;
  write creator_addr (set_used used);;
  mint_nft_with_metadata_id creator to metadata_id;;
  mret metadata_id.

(** Views *)
Definition get_available_count (w : World) (creator : address) : Z :=
  match nft w !! creator with
  | None => 0
  | Some nft_data => available_count nft_data
  end.

Definition is_metadata_id_used (w : World) (creator : address) (metadata_id : Z)
    : result bool :=
  match nft w !! creator with
  | None => inr true
  | Some nft_data =>
      if (metadata_id =? 0) || (MAX_METADATA_ID <? metadata_id) then inr true
      else match borrow (used_metadata_ids nft_data) (metadata_id - 1) with
           | Some b => inr b
           | None => inl IndexOutOfBounds
           end
  end.

(** The entry functions of the module as calls. *)
Inductive call : Type :=
| Initialize
| MintFromIpfsMetadata (to : address) (metadata_id : Z)
| MintNft (to : address) (name description uri : string) (rarity skill : Z)
| TransferNft (to creator : address) (collection_name token_name : string)
    (property_version : Z)
| BurnNft (creator : address) (collection_name token_name : string)
    (property_version : Z)
| AdminBurnNft (owner : address) (collection_name token_name : string)
    (property_version : Z)
| MintFromMetadataId (to : address) (metadata_id rarity skill : Z)
| MintRandomNftSecure (to : address)
| MintRandomNft (to : address)
| MintFromBridge (to : address) (name description ipfs_hash : string)
    (rarity skill : Z).

(** What a call returns: the identifier an allocation picked, nothing for
    the other entry functions. *)
Definition run (signer : address) (c : call) : M World (option Z) :=
  match c with
  | Initialize => initialize signer;; mret None
  | MintFromIpfsMetadata to metadata_id =>
      mint_from_ipfs_metadata signer to metadata_id;; mret None
  | MintNft to name description uri rarity skill =>
      mint_nft signer to name description uri rarity skill;; mret None
  | TransferNft to creator collection_name token_name property_version =>
      transfer_nft signer to creator collection_name token_name property_version;;
      mret None
  | BurnNft creator collection_name token_name property_version =>
      burn_nft signer creator collection_name token_name property_version;; mret None
  | AdminBurnNft owner collection_name token_name property_version =>
      admin_burn_nft signer owner collection_name token_name property_version;;
      mret None
  | MintFromMetadataId to metadata_id rarity skill =>
      mint_from_metadata_id signer to metadata_id rarity skill;; mret None
  | MintRandomNftSecure to => id ← mint_random_nft_secure signer to; mret (Some id)
  | MintRandomNft to => id ← mint_random_nft signer to; mret (Some id)
  | MintFromBridge to name description ipfs_hash rarity skill =>
      mint_from_bridge signer to name description ipfs_hash rarity skill;; mret None
  end.

Definition step (signer : address) (c : call) (env : Env) (w : World)
    : result (option Z) * World :=
  transaction (run signer c) env w.

End with_tokens.
End velmora_nft.

(** ** [velmora::coins_of_aura]

    The module keeps no balances of its own: they live in the primary
    fungible stores of [aptos_framework].  The part of the framework that
    the module drives is modelled by the record [Ledger]: the owner of the
    metadata object of the asset (absent before [initialize]), the primary
    stores that exist, with their balances, and the supply.  A store that has
    never been created is not a store with balance zero:
    [primary_fungible_store::primary_store] resolves the store object with
    [object::address_to_object], which aborts when there is none, whereas
    [primary_fungible_store::balance] answers zero.  The entry function
    [transfer], which any holder may call, and the views of the name, the
    symbol, the decimals and the supply are left out. *)

Module coins_of_aura.

Definition E_NOT_OWNER : Z := 1.
Definition E_NOT_AUTHORIZED : Z := 2.
Definition E_INSUFFICIENT_BALANCE : Z := 3.
Definition E_ALREADY_INITIALIZED : Z := 4.

Definition DECIMALS : Z := 8.

(** Initial mint amount for new players (650 CoA) *)
Definition INITIAL_PLAYER_AMOUNT : Z := 65000000000.

Inductive Event : Type :=
| MintEvent (recipient : address) (amount timestamp : Z)
| BurnEvent (account : address) (amount timestamp : Z)
| PlayerLoginReward (player : address) (amount timestamp : Z).

Record Ledger : Type := {
  metadata_owner : option address;
  stores : gmap address Z;
  supply : Z;
  events : list Event;
}.

Definition set_stores (m : gmap address Z) (l : Ledger) : Ledger :=
  {| metadata_owner := metadata_owner l; stores := m; supply := supply l;
     events := events l |}.
Definition set_supply (n : Z) (l : Ledger) : Ledger :=
  {| metadata_owner := metadata_owner l; stores := stores l; supply := n;
     events := events l |}.
Definition emit (e : Event) (l : Ledger) : Ledger :=
  {| metadata_owner := metadata_owner l; stores := stores l; supply := supply l;
     events := events l ++ [e] |}.

Section with_package_address.
(** The address the package is published at, [@velmora]. *)
Variable velmora : address.

(** [get_metadata]: the object must exist. *)
Definition get_metadata : M Ledger unit :=
  l ← get;
  match metadata_owner l with
  | Some _ => mret tt
  | None => throw FrameworkAbort
  end.

(** [authorized_borrow_refs] *)
Definition authorized_borrow_refs (admin : address) : M Ledger unit :=
  l ← get;
  assert (bool_decide (metadata_owner l = Some admin)) (permission_denied E_NOT_OWNER).

(** [primary_fungible_store::ensure_primary_store_exists] *)
Definition ensure_primary_store_exists (owner : address) : M Ledger unit :=
  l ← get;
  match stores l !! owner with
  | Some _ => mret tt
  | None => put (set_stores (<[owner := 0]> (stores l)) l)
  end.

(** [primary_fungible_store::primary_store] *)
Definition primary_store (owner : address) : M Ledger unit :=
  l ← get;
  match stores l !! owner with
  | Some _ => mret tt
  | None => throw FrameworkAbort
  end.

(** [fungible_asset::balance] of the primary store of [owner] *)
Definition store_balance (owner : address) : M Ledger Z :=
  l ← get; lift_opt (stores l !! owner) FrameworkAbort.

(** [fungible_asset::mint]: the supply grows, within [u128]. *)
Definition fa_mint (amount : Z) : M Ledger unit :=
  l ← get;
  if MAX_U128 <? supply l + amount then throw FrameworkAbort
  else put (set_supply (supply l + amount) l).

(** [fungible_asset::deposit_with_ref] *)
Definition deposit_with_ref (owner : address) (amount : Z) : M Ledger unit :=
  l ← get;
  b ← lift_opt (stores l !! owner) FrameworkAbort;
  if MAX_U64 <? b + amount then throw ArithmeticError
  else put (set_stores (<[owner := b + amount]> (stores l)) l).

(** [fungible_asset::withdraw_with_ref] *)
Definition withdraw_with_ref (owner : address) (amount : Z) : M Ledger unit :=
  l ← get;
  b ← lift_opt (stores l !! owner) FrameworkAbort;
  if b <? amount then throw FrameworkAbort
  else put (set_stores (<[owner := b - amount]> (stores l)) l).

(** [fungible_asset::burn] *)
Definition fa_burn (amount : Z) : M Ledger unit :=
  l ← get;
  if supply l <? amount then throw FrameworkAbort
  else put (set_supply (supply l - amount) l).

Definition emit_event (e : Event) : M Ledger unit :=
  l ← get; put (emit e l).

Definition now_seconds : M Ledger Z := env ← ask; mret (now env).

(** [initialize] creates the named object of the asset under the address
    of the signer; the functions of the module look the asset up under
    [@velmora]. *)
Definition initialize (admin : address) : M Ledger unit :=
  l ← get;
  if bool_decide (admin = velmora) then
    match metadata_owner l with
    | Some _ => throw FrameworkAbort
    | None =>
        put {| metadata_owner := Some admin; stores := stores l; supply := 0;
               events := events l |}
    end
  else mret tt.

Definition mint (admin to : address) (amount : Z) : M Ledger unit :=
  get_metadata;;
  authorized_borrow_refs admin;;
  ensure_primary_store_exists to;;
  fa_mint amount;;
  deposit_with_ref to amount;;
  timestamp ← now_seconds;
  emit_event (MintEvent to amount timestamp).

Definition reward_new_player (admin player : address) : M Ledger unit :=
  get_metadata;;
  authorized_borrow_refs admin;;
  primary_store player;;
  current_balance ← store_balance player;
  if current_balance =? 0 then
    ensure_primary_store_exists player;;
    fa_mint INITIAL_PLAYER_AMOUNT;;
    deposit_with_ref player INITIAL_PLAYER_AMOUNT;;
    timestamp ← now_seconds;
    emit_event (PlayerLoginReward player INITIAL_PLAYER_AMOUNT timestamp)
  else mret tt.

Definition burn (admin : address) (amount : Z) : M Ledger unit :=
  get_metadata;;
  authorized_borrow_refs admin;;
  primary_store admin;;
  withdraw_with_ref admin amount;;
  fa_burn amount;;
  timestamp ← now_seconds;
  emit_event (BurnEvent admin amount timestamp).

(** [balance]: [primary_fungible_store::balance], zero without a store. *)
Definition balance (l : Ledger) (account : address) : Z :=
  default 0 (stores l !! account).

(** [transfer]: [primary_fungible_store::transfer] makes sure both
    primary stores exist, withdraws from the sender and deposits to the
    recipient.  The module emits no event of its own here. *)
Definition transfer (from to : address) (amount : Z) : M Ledger unit :=
  get_metadata;;
  ensure_primary_store_exists from;;
  ensure_primary_store_exists to;;
  withdraw_with_ref from amount;;
  deposit_with_ref to amount.

(** [total_supply]: the supply of the asset, which must exist. *)
Definition total_supply (l : Ledger) : result Z :=
  match metadata_owner l with
  | Some _ => inr (supply l)
  | None => inl FrameworkAbort
  end.

(** The entry functions of the module as calls. *)
Inductive call : Type :=
| Initialize
| Mint (to : address) (amount : Z)
| RewardNewPlayer (player : address)
| Burn (amount : Z)
| Transfer (to : address) (amount : Z).

Definition run (signer : address) (c : call) : M Ledger unit :=
  match c with
  | Initialize => initialize signer
  | Mint to amount => mint signer to amount
  | RewardNewPlayer player => reward_new_player signer player
  | Burn amount => burn signer amount
  | Transfer to amount => transfer signer to amount
  end.

Definition step (signer : address) (c : call) (env : Env) (l : Ledger)
    : result unit * Ledger :=
  transaction (run signer c) env l.

End with_package_address.
End coins_of_aura.

(** ** A small token store and a byte mixer to run the model on

    [simple_tokens] implements the token interface with a balance table and
    a table of token data; it is permissive (no opt-in, no burn capability).
    [toy_hashing] is a stand-in with the output size of SHA3-256.  Both serve
    to evaluate the model on concrete calls; no general statement depends on
    them. *)

Module reference.

Record Store : Type := {
  balances : gmap (address * TokenId) Z;
  token_data : gmap TokenDataId Properties;
}.

Definition empty_store : Store := {| balances := ∅; token_data := ∅ |}.

Definition credit (a : address) (id : TokenId) (n : Z) (s : Store) : Store :=
  {| balances := <[(a, id) := default 0 (balances s !! (a, id)) + n]> (balances s);
     token_data := token_data s |}.

Definition debit (a : address) (id : TokenId) (n : Z) (s : Store) : option Store :=
  let b := default 0 (balances s !! (a, id)) in
  if b <? n then None
  else Some {| balances := <[(a, id) := b - n]> (balances s);
               token_data := token_data s |}.

Definition simple_tokens : TokenFramework := {|
  TokenStore := Store;
  create_collection := λ _ _ _ _ _ s, Some s;
  create_token_data_id := λ creator collection name, Some (creator, collection, name);
  create_tokendata := λ creator collection name _ _ _ _ _ _ props s,
    match token_data s !! (creator, collection, name) with
    | Some _ => None
    | None => Some ((creator, collection, name),
                    {| balances := balances s;
                       token_data := <[(creator, collection, name) := props]>
                                       (token_data s) |})
    end;
  mint_token := λ creator id amount s, Some ((id, 0), credit creator (id, 0) amount s);
  opt_in_direct_transfer := λ _ _ s, Some s;
  transfer := λ from id to amount s, credit to id amount <$> debit from id amount s;
  balance_of := λ owner id s, default 0 (balances s !! (owner, id));
  burn := λ owner creator collection name version amount s,
    debit owner ((creator, collection, name), version) amount s;
  burn_by_creator := λ creator owner collection name version amount s,
    debit owner ((creator, collection, name), version) amount s;
  get_property_map := λ _ id s, token_data s !! id.1;
|}.

Definition toy_hashing : Hashing :=
  {| sha3_256 := λ bytes, take 32 (rev bytes ++ replicate 32 0) |}.

End reference.

(** ** Specification vocabulary *)

Module spec.
Section with_tokens.
Context `{TokenFramework} `{Hashing}.
Import velmora_nft.

(** The error kinds of the specification as abort codes of the module. *)
Definition PermissionDenied : abort := Abort (permission_denied E_NOT_AUTHORIZED).
Definition PoolExhausted : abort := Abort (invalid_state E_COLLECTION_NOT_FOUND).
Definition InvalidURI : abort := Abort (invalid_argument E_INVALID_URI).
Definition LedgerPermissionDenied : abort :=
  Abort (permission_denied coins_of_aura.E_NOT_OWNER).
Definition InvalidAttribute (e : abort) : Prop :=
  e = Abort (invalid_argument E_INVALID_RARITY) ∨
  e = Abort (invalid_argument E_INVALID_SKILL).

(** The accepted content-addressing prefixes. *)
Definition accepted_prefixes : list string :=
  [ "ipfs://"; "https://ipfs.io/ipfs/"; "https://gateway.pinata.cloud/ipfs/";
    "https://gateway.lighthouse.storage/ipfs/" ]%string.

Definition has_accepted_prefix (uri : string) : Prop :=
  ∃ p, p ∈ accepted_prefixes ∧ String.prefix p uri = true.

(** The state in which an execution ended, with or without an abort. *)
Definition final {St A} (o : outcome St A) : St :=
  match o with Ok _ s => s | Fail _ s => s end.

(** The value an execution returned, if it returned. *)
Definition returned {St A} (o : outcome St A) : option A :=
  match o with Ok a _ => Some a | Fail _ _ => None end.

(** Weakest precondition over the monad: [Q] for a return, [E] for an
    abort. *)
Definition wp {St A} (m : M St A) (env : Env) (s : St)
    (Q : A → St → Prop) (E : abort → St → Prop) : Prop :=
  match m env s with
  | Ok a s' => Q a s'
  | Fail e s' => E e s'
  end.

(** The number of clear flags of the bitmap. *)
Definition count_false (used : list bool) : nat :=
  length (filter (λ b, b = false) used).

(** The invariant of the pool state, as the data model words it. *)
Definition pool_state_invariant (d : VelmoraNFTData) : Prop :=
  length (used_metadata_ids d) = Z.to_nat MAX_METADATA_ID ∧
  available_count d = Z.of_nat (length (available_metadata_ids d)) ∧
  available_count d = Z.of_nat (count_false (used_metadata_ids d)) ∧
  ∀ id, 1 ≤ id ≤ MAX_METADATA_ID →
    (id ∈ available_metadata_ids d ∧
     borrow (used_metadata_ids d) (id - 1) = Some false) ∨
    ((id ∉ available_metadata_ids d) ∧
     borrow (used_metadata_ids d) (id - 1) = Some true).

Definition pools_invariant (w : World) : Prop :=
  ∀ a d, nft w !! a = Some d → pool_state_invariant d.

(** The same invariant in the form the proofs work with: the available
    identifiers are exactly the identifiers with a clear flag, once each. *)
Definition pool_wf (d : VelmoraNFTData) : Prop :=
  length (used_metadata_ids d) = Z.to_nat MAX_METADATA_ID ∧
  available_count d = Z.of_nat (length (available_metadata_ids d)) ∧
  NoDup (available_metadata_ids d) ∧
  ∀ id, id ∈ available_metadata_ids d ↔
        1 ≤ id ≤ MAX_METADATA_ID ∧ borrow (used_metadata_ids d) (id - 1) = Some false.

(** The identifiers of a bitmap whose flag is clear, the first flag
    standing for [base]. *)
Fixpoint free_ids (base : Z) (used : list bool) : list Z :=
  match used with
  | [] => []
  | b :: rest => (if b then [] else [base]) ++ free_ids (base + 1) rest
  end.

(** The pool part of a resource, and what it means for two states to have
    the same pools. *)
Definition pool_of (d : VelmoraNFTData) : list bool * list Z * Z * address :=
  (used_metadata_ids d, available_metadata_ids d, available_count d, admin d).

Definition same_pools (w w' : World) : Prop :=
  ∀ a, pool_of <$> (nft w !! a) = pool_of <$> (nft w' !! a).

(** Removal of position [i] by moving the last element there and
    shrinking by one. *)
Definition swap_with_last_and_shrink (l : list Z) (i : nat) : list Z :=
  match last l with
  | Some x => take (length l - 1) (<[i := x]> l)
  | None => l
  end.

Definition pools_wf (w : World) : Prop :=
  ∀ a d, nft w !! a = Some d → pool_wf d.

(** What an allocation does to the pool of [creator]: the identifier [id],
    at position [i] of the available vector and with a clear flag, is
    flagged, position [i] is removed by the swap with the last element, the
    counter drops by one, and no other pool changes. *)
Definition allocates (w : World) (creator : address) (i : nat) (id : Z) (w' : World)
    : Prop :=
  ∃ d d',
    nft w !! creator = Some d ∧ nft w' !! creator = Some d' ∧
    admin d = creator ∧ admin d' = creator ∧
    0 < available_count d ∧
    1 ≤ id ≤ MAX_METADATA_ID ∧
    borrow (used_metadata_ids d) (id - 1) = Some false ∧
    available_metadata_ids d !! i = Some id ∧
    used_metadata_ids d' = <[Z.to_nat (id - 1) := true]> (used_metadata_ids d) ∧
    available_metadata_ids d' = swap_with_last_and_shrink (available_metadata_ids d) i ∧
    available_count d' = available_count d - 1 ∧
    ∀ a, a ≠ creator → pool_of <$> (nft w' !! a) = pool_of <$> (nft w !! a).

(** [keeps_pools P m]: [m] changes no pool, whether it returns or aborts,
    and every abort of [m] satisfies [P]. *)
Definition keeps_pools {A} (P : abort → Prop) (m : M World A) : Prop :=
  ∀ env w, wp m env w (λ _ w', same_pools w w') (λ e w', same_pools w w' ∧ P e).

(** The aborts of the functions outside the allocation guard: everything
    but the code that stands for an exhausted pool. *)
Definition not_exhausted (e : abort) : Prop := e ≠ PoolExhausted.

(** The aborts left to an allocation on a sound pool: for the secure
    strategy the token standard refuses the mint; for the fallback, that or
    a hash that is shorter than eight bytes or holds something that is not
    a byte. *)
Definition token_refusal (e : abort) : Prop := e = FrameworkAbort.
Definition fallback_refusal (e : abort) : Prop :=
  e = FrameworkAbort ∨ e = IndexOutOfBounds ∨ e = ArithmeticError.

(** An identifier is taken in the pool of [creator]. *)
Definition taken (w : World) (creator : address) (id : Z) : Prop :=
  ∃ d, nft w !! creator = Some d ∧ borrow (used_metadata_ids d) (id - 1) = Some true.

(** How the admin-gated functions of the NFT module turn away a signer
    that is not the admin of a collection: the signer holds no
    [VelmoraNFTData], and [borrow_global_mut] aborts; or the resource names
    another admin, and the assertion on the admin aborts. *)
Definition turned_away (w : World) (caller : address) (e : abort) : Prop :=
  (nft w !! caller = None ∧ e = MissingResource) ∨
  (∃ d, nft w !! caller = Some d ∧ admin d ≠ caller ∧ e = PermissionDenied).

(** The entry functions that only the admin of a collection may run:
    every mint and the burn by the admin.  [initialize] makes its signer an
    admin; [transfer_nft] and [burn_nft] are for the owner of a token. *)
Definition admin_gated (c : call) : bool :=
  match c with
  | Initialize | TransferNft _ _ _ _ _ | BurnNft _ _ _ _ => false
  | _ => true
  end.

(** What a transaction can do to the pools: nothing; one allocation in the
    pool of the signer; or the creation of a fresh pool for the signer. *)
Definition step_effect (signer : address) (r : result (option Z)) (w w' : World)
    : Prop :=
  (same_pools w w' ∧ ∀ id, r ≠ inr (Some id)) ∨
  (∃ i id, r = inr (Some id) ∧ allocates w signer i id w') ∨
  (nft w !! signer = None ∧ r = inr None ∧
   ∃ d, pool_wf d ∧ admin d = signer ∧ nft w' = <[signer := d]> (nft w)).

(** Running a list of transactions; the identifiers that the allocations
    signed by [creator] returned, in order. *)
Fixpoint run_all (txs : list (address * call * Env)) (w : World) : World :=
  match txs with
  | [] => w
  | (signer, c, env) :: rest => run_all rest (step signer c env w).2
  end.

Fixpoint allocated (creator : address) (txs : list (address * call * Env)) (w : World)
    : list Z :=
  match txs with
  | [] => []
  | (signer, c, env) :: rest =>
      let r := step signer c env w in
      match r.1 with
      | inr (Some id) =>
          if bool_decide (signer = creator) then id :: allocated creator rest r.2
          else allocated creator rest r.2
      | _ => allocated creator rest r.2
      end
  end.

(** The index selection of the fallback strategy, in the words of the
    specification: hash of caller and time, reduced modulo the number of
    available identifiers. *)
Definition be_u64 (bytes : list Z) : Z := foldl (λ acc b, acc * 256 + b) 0 bytes.

Definition fallback_index (caller : address) (time : Z) (available_count : Z) : Z :=
  be_u64 (take 8 (sha3_256 (bcs_address caller ++ bcs_u64 time))) mod available_count.

(** The scan of the secure strategy in the words of the specification:
    the candidate of step [k], and the first clear candidate among the
    steps [k], [k + 1], ... below [n]. *)
Definition candidate (r k : Z) : Z := (r + k - 1) mod MAX_METADATA_ID + 1.

Fixpoint first_clear (used : list bool) (r : Z) (k : Z) (steps : nat) : option Z :=
  match steps with
  | O => None
  | S steps' =>
      if bool_decide (borrow used (candidate r k - 1) = Some false)
      then Some (candidate r k)
      else first_clear used r (k + 1) steps'
  end.

End with_tokens.
End spec.

(** ** Further vocabulary: the ledger, names and events *)

Module ledger_spec.
Import coins_of_aura.

(** The sum of the balances of all primary stores. *)
Definition total (m : gmap address Z) : Z :=
  map_fold (λ _ b acc, b + acc) 0 m.

(** An amount or balance that fits [u64]. *)
Definition is_u64 (x : Z) : Prop := 0 ≤ x ≤ MAX_U64.

(** The arguments of a call are [u64] values. *)
Definition well_typed (c : call) : Prop :=
  match c with
  | Mint _ amount | Burn amount | Transfer _ amount => is_u64 amount
  | _ => True
  end.

(** A ledger is sound when the supply is the sum of the balances, every
    balance fits [u64], and no store exists before the asset does. *)
Definition ledger_sound (l : Ledger) : Prop :=
  supply l = total (stores l) ∧
  (∀ a b, stores l !! a = Some b → is_u64 b) ∧
  (metadata_owner l = None → stores l = ∅).

Fixpoint run_all (velmora : address) (txs : list (address * call * Env)) (l : Ledger)
    : Ledger :=
  match txs with
  | [] => l
  | (signer, c, env) :: rest => run_all velmora rest (step velmora signer c env l).2
  end.

End ledger_spec.

Module names_spec.
Section with_tokens.
Context `{TokenFramework} `{Hashing}.
Import velmora_nft spec.





(** Every resource sits in the account of its admin. *)
Definition admin_is_holder (w : World) : Prop :=
  ∀ a d, nft w !! a = Some d → admin d = a.

(** The entry functions that never touch a pool: all but [initialize] and
    the two allocations. *)
Definition pool_neutral (c : call) : bool :=
  match c with
  | Initialize | MintRandomNftSecure _ | MintRandomNft _ => false
  | _ => true
  end.

(** The resource of [a] after an optional update. *)
Definition update_at (a : address) (f : VelmoraNFTData → VelmoraNFTData)
    (m : gmap address VelmoraNFTData) : gmap address VelmoraNFTData :=
  match m !! a with
  | Some d => <[a := f d]> m
  | None => m
  end.

End with_tokens.
End names_spec.

(** ** A scenario to run the model on *)

Module scenario.
Import velmora_nft spec.
#[local] Existing Instance reference.simple_tokens.
#[local] Existing Instance reference.toy_hashing.

Definition creator : address := 1.
Definition player : address := 2.
Definition stranger : address := 3.

Definition env0 : Env := {| now := 1700000000; random_bits := 4242 |}.
Definition env1 : Env := {| now := 1700000060; random_bits := 777 |}.

(** Nothing published yet. *)
Definition genesis : World := {| nft := ∅; tokens := reference.empty_store |}.

(** The resource that [initialize] stores. *)
Definition fresh_pool (a : address) : VelmoraNFTData :=
  {| mint_events := []; transfer_events := []; burn_events := [];
     collection_name := COLLECTION_NAME; admin := a;
     used_metadata_ids := replicate (Z.to_nat MAX_METADATA_ID) false;
     available_metadata_ids := seqZ 1 MAX_METADATA_ID;
     available_count := MAX_METADATA_ID |}.

(** The state after [initialize] by [creator]. *)
Definition opened : World :=
  {| nft := {[creator := fresh_pool creator]}; tokens := reference.empty_store |}.

(** A pool whose last identifier has been handed out: the flags are all
    set, nothing is available. *)
Definition drained_pool (a : address) : VelmoraNFTData :=
  {| mint_events := []; transfer_events := []; burn_events := [];
     collection_name := COLLECTION_NAME; admin := a;
     used_metadata_ids := replicate (Z.to_nat MAX_METADATA_ID) true;
     available_metadata_ids := [];
     available_count := 0 |}.

Definition drained : World :=
  {| nft := {[creator := drained_pool creator]}; tokens := reference.empty_store |}.

(** A state that violates the invariant: the counter says one identifier
    is left, the bitmap says none is. *)
Definition broken_pool (a : address) : VelmoraNFTData :=
  {| mint_events := []; transfer_events := []; burn_events := [];
     collection_name := COLLECTION_NAME; admin := a;
     used_metadata_ids := replicate (Z.to_nat MAX_METADATA_ID) true;
     available_metadata_ids := [7];
     available_count := 1 |}.

Definition broken : World :=
  {| nft := {[creator := broken_pool creator]}; tokens := reference.empty_store |}.

Definition transactions : list (address * call * Env) :=
  [ (creator, Initialize, env0);
    (creator, MintRandomNft player, env0);
    (stranger, MintRandomNft player, env0);
    (creator, MintRandomNftSecure player, env1);
    (creator, MintRandomNftSecure player, env1);
    (creator, BurnNft creator COLLECTION_NAME "Aura Eye #1" 0, env1);
    (creator, MintRandomNft player, env0) ].

(** The ledger of CoA after [initialize] by the package address, here
    [creator]; nobody holds a store yet. *)
Definition ledger0 : coins_of_aura.Ledger :=
  {| coins_of_aura.metadata_owner := Some creator;
     coins_of_aura.stores := ∅;
     coins_of_aura.supply := 0;
     coins_of_aura.events := [] |}.

Definition empty_ledger : coins_of_aura.Ledger :=
  {| coins_of_aura.metadata_owner := None;
     coins_of_aura.stores := ∅;
     coins_of_aura.supply := 0;
     coins_of_aura.events := [] |}.

(** The same ledger once [player] holds an empty store. *)
Definition ledger1 : coins_of_aura.Ledger :=
  {| coins_of_aura.metadata_owner := Some creator;
     coins_of_aura.stores := {[player := 0]};
     coins_of_aura.supply := 0;
     coins_of_aura.events := [] |}.

End scenario.

(** * Properties *)

(** ** Rules of the weakest precondition *)

Section wp_rules.
Import spec.
Context {St : Type}.
Implicit Types (env : Env) (s : St).

Lemma wp_bind {A B} (m : M St A) (k : A → M St B) env s Q E :
  wp m env s (λ a s', wp (k a) env s' Q E) E → wp (m ≫= k) env s Q E.
Proof.
  unfold wp, mbind, M_bind, bind. destruct (m env s); auto.
Qed.

Lemma wp_ret {A} (a : A) env s (Q : A → St → Prop) E :
  Q a s → wp (mret a) env s Q E.
Proof. auto. Qed.

Lemma wp_throw {A} e env s (Q : A → St → Prop) (E : abort → St → Prop) :
  E e s → wp (throw e) env s Q E.
Proof. auto. Qed.

Lemma wp_get env s (Q : St → St → Prop) E : Q s s → wp get env s Q E.
Proof. auto. Qed.

Lemma wp_put s' env s (Q : unit → St → Prop) E : Q tt s' → wp (put s') env s Q E.
Proof. auto. Qed.

Lemma wp_ask env s (Q : Env → St → Prop) E : Q env s → wp ask env s Q E.
Proof. auto. Qed.

Lemma wp_assert c code env s (Q : unit → St → Prop) (E : abort → St → Prop) :
  (c = true → Q tt s) → (c = false → E (Abort code) s) →
  wp (assert c code) env s Q E.
Proof. destruct c; unfold wp; simpl; auto. Qed.

Lemma wp_lift_opt {A} (o : option A) e env s (Q : A → St → Prop)
    (E : abort → St → Prop) :
  (∀ a, o = Some a → Q a s) → (o = None → E e s) → wp (lift_opt o e) env s Q E.
Proof. destruct o; unfold wp; simpl; auto. Qed.

Lemma wp_lift_res {A} (r : result A) env s (Q : A → St → Prop)
    (E : abort → St → Prop) :
  (∀ a, r = inr a → Q a s) → (∀ e, r = inl e → E e s) → wp (lift_res r) env s Q E.
Proof. destruct r; unfold wp; simpl; auto. Qed.

Lemma wp_mono {A} (m : M St A) env s (Q Q' : A → St → Prop)
    (E E' : abort → St → Prop) :
  wp m env s Q E → (∀ a s', Q a s' → Q' a s') → (∀ e s', E e s' → E' e s') →
  wp m env s Q' E'.
Proof. unfold wp. destruct (m env s); auto. Qed.

Lemma wp_conj {A} (m : M St A) env s (Q1 Q2 : A → St → Prop)
    (E1 E2 : abort → St → Prop) :
  wp m env s Q1 E1 → wp m env s Q2 E2 →
  wp m env s (λ a s', Q1 a s' ∧ Q2 a s') (λ e s', E1 e s' ∧ E2 e s').
Proof. unfold wp. destruct (m env s); auto. Qed.

Lemma wp_outcome {A} (m : M St A) env s (Q : A → St → Prop) E :
  wp m env s Q E ↔
  (∀ a s', m env s = Ok a s' → Q a s') ∧ (∀ e s', m env s = Fail e s' → E e s').
Proof.
  unfold wp. destruct (m env s) as [a s'|e s']; split.
  - intros HQ. split; intros ? ? [= <- <-]; exact HQ.
  - intros [HQ _]. apply HQ. reflexivity.
  - intros HE. split; intros ? ? [= <- <-]; exact HE.
  - intros [_ HE]. apply HE. reflexivity.
Qed.

End wp_rules.

Ltac wp_pure :=
  first
    [ apply wp_ret
    | apply wp_throw
    | apply wp_get
    | apply wp_put
    | apply wp_ask
    | apply wp_assert; intros ?
    | apply wp_lift_opt; [intros ? ? | intros ?]
    | apply wp_lift_res; [intros ? ? | intros ? ?]
    | apply wp_bind ].

Section nft_rules.
Context `{TokenFramework} `{Hashing}.
Import velmora_nft spec.
Implicit Types (env : Env) (w : World).

Lemma wp_borrow_global a env w (Q : VelmoraNFTData → World → Prop) E :
  (∀ d, nft w !! a = Some d → Q d w) → (nft w !! a = None → E MissingResource w) →
  wp (borrow_global a) env w Q E.
Proof.
  intros HQ HE. unfold borrow_global. apply wp_bind, wp_get.
  apply wp_lift_opt; auto.
Qed.

Lemma wp_write a f env w (Q : unit → World → Prop) E :
  (∀ d, nft w !! a = Some d →
        Q tt {| nft := <[a := f d]> (nft w); tokens := tokens w |}) →
  (nft w !! a = None → E MissingResource w) →
  wp (write a f) env w Q E.
Proof.
  intros HQ HE. unfold write. apply wp_bind, wp_get.
  apply wp_bind, wp_lift_opt; [|exact HE].
  intros d Hd. apply wp_put. auto.
Qed.

Lemma wp_move_to a d env w (Q : unit → World → Prop) E :
  (nft w !! a = None → Q tt {| nft := <[a := d]> (nft w); tokens := tokens w |}) →
  (is_Some (nft w !! a) → E ResourceExists w) →
  wp (move_to a d) env w Q E.
Proof.
  intros HQ HE. unfold move_to. apply wp_bind, wp_get.
  destruct (nft w !! a) eqn:Hd.
  - apply wp_throw. eauto.
  - apply wp_put. auto.
Qed.

Lemma wp_token_do f env w (Q : unit → World → Prop) E :
  (∀ t, f (tokens w) = Some t → Q tt {| nft := nft w; tokens := t |}) →
  (f (tokens w) = None → E FrameworkAbort w) →
  wp (token_do f) env w Q E.
Proof.
  intros HQ HE. unfold token_do. apply wp_bind, wp_get.
  apply wp_bind, wp_lift_opt; [|exact HE].
  intros t Ht. apply wp_put. auto.
Qed.

Lemma wp_token_call {A} (f : TokenStore → option (A * TokenStore)) env w
    (Q : A → World → Prop) E :
  (∀ a t, f (tokens w) = Some (a, t) → Q a {| nft := nft w; tokens := t |}) →
  (f (tokens w) = None → E FrameworkAbort w) →
  wp (token_call f) env w Q E.
Proof.
  intros HQ HE. unfold token_call. apply wp_bind, wp_get.
  apply wp_bind, wp_lift_opt; [|exact HE].
  intros [a t] Ht. apply wp_bind, wp_put, wp_ret. auto.
Qed.

Lemma wp_token_read {A} (f : TokenStore → A) env w (Q : A → World → Prop) E :
  Q (f (tokens w)) w → wp (token_read f) env w Q E.
Proof. intros HQ. unfold token_read. apply wp_bind, wp_get, wp_ret, HQ. Qed.

Lemma wp_now_seconds env w (Q : Z → World → Prop) E :
  Q (now env) w → wp now_seconds env w Q E.
Proof. intros HQ. unfold now_seconds. apply wp_bind, wp_ask, wp_ret, HQ. Qed.

Lemma wp_exists_data a env w (Q : bool → World → Prop) E :
  Q (bool_decide (is_Some (nft w !! a))) w → wp (exists_data a) env w Q E.
Proof. intros HQ. unfold exists_data. apply wp_bind, wp_get, wp_ret, HQ. Qed.

End nft_rules.

Ltac wp_nft :=
  first
    [ apply wp_borrow_global; [intros ? ? | intros ?]
    | apply wp_write; [intros ? ? | intros ?]
    | apply wp_move_to; [intros ? | intros ?]
    | apply wp_token_do; [intros ? ? | intros ?]
    | apply wp_token_call; [intros ? ? ? | intros ?]
    | apply wp_token_read
    | apply wp_now_seconds
    | apply wp_exists_data
    | wp_pure ].

(** ** URI validation and the attribute checks of [mint_nft] *)

Section mint_validation.
Context `{TokenFramework} `{Hashing}.
Import velmora_nft spec.

Lemma substring_0_0 (s : string) : String.substring 0 0 s = ""%string.
Proof. destruct s; reflexivity. Qed.

Lemma starts_with_prefix (p uri : string) : starts_with p uri = String.prefix p uri.
Proof.
  unfold starts_with. revert uri. induction p as [|a p IH]; intros uri.
  - simpl. rewrite substring_0_0. destruct uri; reflexivity.
  - destruct uri as [|b uri]; [reflexivity|].
    specialize (IH uri). simpl.
    change (S (String.length p) <=? S (String.length uri))%nat
      with (String.length p <=? String.length uri)%nat.
    destruct (Ascii.ascii_dec a b) as [->|Hab].
    + rewrite <- IH. destruct (String.length p <=? String.length uri)%nat; [|reflexivity].
      apply bool_decide_ext. split; [intros [= ->]|intros ->]; reflexivity.
    + destruct (String.length p <=? String.length uri)%nat; [|reflexivity].
      apply bool_decide_eq_false. intros [= -> _]. apply Hab. reflexivity.
Qed.

Lemma validate_ipfs_uri_spec (uri : string) :
  validate_ipfs_uri uri = true ↔ has_accepted_prefix uri.
Proof.
  unfold validate_ipfs_uri, has_accepted_prefix, accepted_prefixes.
  rewrite !starts_with_prefix. split.
  - intros Hv.
    destruct (String.prefix "ipfs://" uri) eqn:H1;
      [eexists; split; [|exact H1]; set_solver|].
    destruct (String.prefix "https://ipfs.io/ipfs/" uri) eqn:H2;
      [eexists; split; [|exact H2]; set_solver|].
    destruct (String.prefix "https://gateway.pinata.cloud/ipfs/" uri) eqn:H3;
      [eexists; split; [|exact H3]; set_solver|].
    destruct (String.prefix "https://gateway.lighthouse.storage/ipfs/" uri) eqn:H4;
      [eexists; split; [|exact H4]; set_solver|].
    discriminate.
  - intros (p & Hp & Hpre).
    repeat (apply elem_of_cons in Hp as [->|Hp]; [rewrite Hpre; repeat case_match; reflexivity|]).
    apply elem_of_nil in Hp as [].
Qed.

Lemma mint_nft_invalid_rarity creator to name description uri rarity skill env w :
  100 < rarity →
  mint_nft creator to name description uri rarity skill env w
  = Fail (Abort (invalid_argument E_INVALID_RARITY)) w.
Proof.
  intros Hr. unfold mint_nft, mbind, M_bind, bind, assert, MAX_RARITY.
  destruct (rarity <=? 100) eqn:Hle; [lia|reflexivity].
Qed.

Lemma mint_nft_invalid_skill creator to name description uri rarity skill env w :
  rarity ≤ 100 → 100 < skill →
  mint_nft creator to name description uri rarity skill env w
  = Fail (Abort (invalid_argument E_INVALID_SKILL)) w.
Proof.
  intros Hr Hs. unfold mint_nft, mbind, M_bind, bind, assert, MAX_RARITY, MAX_SKILL.
  destruct (rarity <=? 100) eqn:Hle; [|lia]. simpl.
  destruct (skill <=? 100) eqn:Hle'; [lia|reflexivity].
Qed.

Lemma mint_nft_invalid_uri creator to name description uri rarity skill env w :
  rarity ≤ 100 → skill ≤ 100 → validate_ipfs_uri uri = false →
  mint_nft creator to name description uri rarity skill env w = Fail InvalidURI w.
Proof.
  intros Hr Hs Hu. unfold mint_nft, mbind, M_bind, bind, assert, MAX_RARITY, MAX_SKILL.
  destruct (rarity <=? 100) eqn:Hle; [|lia]. simpl.
  destruct (skill <=? 100) eqn:Hle'; [|lia]. simpl.
  rewrite Hu. reflexivity.
Qed.

(** C8: [mint_nft] aborts with an invalid-attribute code when [rarity] or
    [skill] exceeds 100 and, the attributes being in range, with the
    invalid-URI code when the URI starts with none of the four accepted
    prefixes.  Both aborts come before the first access to storage and to
    the token store: the state at the abort is the state of the call, so no
    token has been created.  This holds for every caller. *)
Theorem mint_nft_rejects_invalid_input
    creator to name description uri rarity skill env w :
  (100 < rarity ∨ 100 < skill →
   ∃ e, InvalidAttribute e ∧
        mint_nft creator to name description uri rarity skill env w = Fail e w) ∧
  (rarity ≤ 100 → skill ≤ 100 → ¬ has_accepted_prefix uri →
   mint_nft creator to name description uri rarity skill env w = Fail InvalidURI w).
Proof.
  split.
  - intros Hbad. destruct (decide (100 < rarity)) as [Hr|Hr].
    + eexists. split; [left; reflexivity|]. by apply mint_nft_invalid_rarity.
    + eexists. split; [right; reflexivity|].
      apply mint_nft_invalid_skill; lia.
  - intros Hr Hs Hu. apply mint_nft_invalid_uri; [done..|].
    destruct (validate_ipfs_uri uri) eqn:Hv; [|reflexivity].
    exfalso. apply Hu, validate_ipfs_uri_spec, Hv.
Qed.

End mint_validation.

(** The call of the scenario: [rarity = 101] on an empty state, and a URI
    with an unknown scheme. *)
Lemma mint_nft_rejects_invalid_input_witness :
  let w := {| velmora_nft.nft := ∅;
              velmora_nft.tokens := (reference.empty_store : @TokenStore reference.simple_tokens) |} in
  let env := {| now := 0; random_bits := 0 |} in
  (∃ e, @spec.InvalidAttribute e ∧
        @velmora_nft.mint_nft reference.simple_tokens 1 2 "n" "d" "ipfs://x" 101 5 env w
        = Fail e w) ∧
  @velmora_nft.mint_nft reference.simple_tokens 1 2 "n" "d" "ftp://x" 100 100 env w
  = Fail spec.InvalidURI w.
Proof.
  intros w env. split.
  - apply (@mint_nft_rejects_invalid_input reference.simple_tokens
             1 2 "n" "d" "ipfs://x" 101 5 env w)%string.
    left. lia.
  - apply (@mint_nft_rejects_invalid_input reference.simple_tokens
             1 2 "n" "d" "ftp://x" 100 100 env w)%string; [lia|lia|].
    intros (p & Hp & Hpre). unfold spec.accepted_prefixes in Hp.
    repeat (apply elem_of_cons in Hp as [->|Hp]; [discriminate Hpre|]).
    apply elem_of_nil in Hp as [].
Defined.

(** ** Computations that leave every pool as it is *)

Section frames.
Context `{TokenFramework} `{Hashing}.
Import velmora_nft spec.
Implicit Types (env : Env) (w : World) (P : abort → Prop).

Lemma same_pools_refl w : same_pools w w.
Proof. intros a. reflexivity. Qed.

Lemma same_pools_trans w1 w2 w3 :
  same_pools w1 w2 → same_pools w2 w3 → same_pools w1 w3.
Proof. intros H12 H23 a. rewrite H12. apply H23. Qed.

Lemma same_pools_sym w1 w2 : same_pools w1 w2 → same_pools w2 w1.
Proof. intros H12 a. symmetry. apply H12. Qed.

Lemma same_pools_tokens w t : same_pools w {| nft := nft w; tokens := t |}.
Proof. intros a. reflexivity. Qed.

Lemma same_pools_write w a d d' t :
  nft w !! a = Some d → pool_of d' = pool_of d →
  same_pools w {| nft := <[a := d']> (nft w); tokens := t |}.
Proof.
  intros Hd Hp b. simpl. destruct (decide (a = b)) as [<-|Hne].
  - rewrite lookup_insert_eq, Hd. simpl. by rewrite Hp.
  - by rewrite lookup_insert_ne.
Qed.

Lemma same_pools_lookup w w' a d :
  same_pools w w' → nft w !! a = Some d →
  ∃ d', nft w' !! a = Some d' ∧ pool_of d' = pool_of d.
Proof.
  intros Hs Hd. specialize (Hs a). rewrite Hd in Hs. simpl in Hs.
  destruct (nft w' !! a) as [d'|]; simpl in Hs; [|discriminate].
  exists d'. split; [reflexivity|]. congruence.
Qed.

Lemma same_pools_lookup_None w w' a :
  same_pools w w' → nft w !! a = None → nft w' !! a = None.
Proof.
  intros Hs Hd. specialize (Hs a). rewrite Hd in Hs.
  destruct (nft w' !! a); simpl in Hs; [discriminate|reflexivity].
Qed.

Lemma keeps_bind {A B} P (m : M World A) (k : A → M World B) :
  keeps_pools P m → (∀ a, keeps_pools P (k a)) → keeps_pools P (m ≫= k).
Proof.
  intros Hm Hk env w. apply wp_bind.
  eapply wp_mono; [apply Hm| |auto].
  intros a w1 H1. eapply wp_mono; [apply Hk| |].
  - intros b w2 H2. exact (same_pools_trans _ _ _ H1 H2).
  - intros e w2 [H2 HP]. split; [exact (same_pools_trans _ _ _ H1 H2)|done].
Qed.

Lemma keeps_ret {A} P (a : A) : keeps_pools P (mret a).
Proof. intros env w. apply wp_ret, same_pools_refl. Qed.

Lemma keeps_assert P c code : P (Abort code) → keeps_pools P (assert c code).
Proof.
  intros HP env w. apply wp_assert; intros _; [|split; [|done]]; apply same_pools_refl.
Qed.

Lemma keeps_lift_opt {A} P (o : option A) e : P e → keeps_pools P (lift_opt o e).
Proof.
  intros HP env w. apply wp_lift_opt; intros; [|split; [|done]]; apply same_pools_refl.
Qed.

Lemma keeps_lift_res {A} P (r : result A) :
  (∀ e, r = inl e → P e) → keeps_pools P (lift_res r).
Proof.
  intros HP env w. apply wp_lift_res; intros; [|split; [|eauto]]; apply same_pools_refl.
Qed.

Lemma keeps_get P : keeps_pools P (get : M World World).
Proof. intros env w. apply wp_get, same_pools_refl. Qed.

Lemma keeps_borrow_global P a : P MissingResource → keeps_pools P (borrow_global a).
Proof.
  intros HP env w. apply wp_borrow_global; intros; [|split; [|done]];
    apply same_pools_refl.
Qed.

Lemma keeps_write P a f :
  P MissingResource → (∀ d, pool_of (f d) = pool_of d) → keeps_pools P (write a f).
Proof.
  intros HP Hf env w. apply wp_write.
  - intros d Hd. by eapply same_pools_write.
  - intros _. split; [apply same_pools_refl|done].
Qed.

Lemma keeps_token_do P f : P FrameworkAbort → keeps_pools P (token_do f).
Proof.
  intros HP env w. apply wp_token_do; intros.
  - apply same_pools_tokens.
  - split; [apply same_pools_refl|done].
Qed.

Lemma keeps_token_call {A} P (f : TokenStore → option (A * TokenStore)) :
  P FrameworkAbort → keeps_pools P (token_call f).
Proof.
  intros HP env w. apply wp_token_call; intros.
  - apply same_pools_tokens.
  - split; [apply same_pools_refl|done].
Qed.

Lemma keeps_token_read {A} P (f : TokenStore → A) : keeps_pools P (token_read f).
Proof. intros env w. apply wp_token_read, same_pools_refl. Qed.

Lemma keeps_now_seconds P : keeps_pools P now_seconds.
Proof. intros env w. apply wp_now_seconds, same_pools_refl. Qed.

Lemma keeps_exists_data P a : keeps_pools P (exists_data a).
Proof. intros env w. apply wp_exists_data, same_pools_refl. Qed.

Lemma keeps_weaken {A} (P P' : abort → Prop) (m : M World A) :
  (∀ e, P e → P' e) → keeps_pools P m → keeps_pools P' m.
Proof.
  intros HPP Hm env w. eapply wp_mono; [apply Hm|auto|].
  intros e w' [? ?]. auto.
Qed.

End frames.

Ltac keeps_step :=
  first
    [ apply keeps_ret
    | apply keeps_assert
    | apply keeps_lift_opt
    | apply keeps_lift_res; intros ? ?
    | apply keeps_get
    | apply keeps_borrow_global
    | apply keeps_write; [|intros ?; reflexivity]
    | apply keeps_token_do
    | apply keeps_token_call
    | apply keeps_token_read
    | apply keeps_now_seconds
    | apply keeps_exists_data
    | apply keeps_bind; [|intros ?] ].

Section frame_lemmas.
Context `{TokenFramework} `{Hashing}.
Import velmora_nft spec.

Lemma abort_code_not_exhausted code :
  code ≠ invalid_state E_COLLECTION_NOT_FOUND → not_exhausted (Abort code).
Proof. intros Hne [= Heq]. done. Qed.

Lemma mint_nft_keeps_pools creator to name description uri rarity skill :
  keeps_pools not_exhausted (mint_nft creator to name description uri rarity skill).
Proof.
  unfold mint_nft.
  repeat keeps_step; try (apply abort_code_not_exhausted; by vm_compute); done.
Qed.

Lemma get_nft_attributes_keeps_pools creator collection token_name version :
  keeps_pools not_exhausted (get_nft_attributes creator collection token_name version).
Proof. unfold get_nft_attributes. repeat keeps_step; done. Qed.

End frame_lemmas.

Ltac keeps_auto :=
  repeat first
    [ keeps_step
    | apply mint_nft_keeps_pools
    | apply get_nft_attributes_keeps_pools
    | match goal with
      | |- spec.keeps_pools _ (match ?x with _ => _ end) => destruct x
      end ];
  try done; try (apply abort_code_not_exhausted; by vm_compute).

Section more_frame_lemmas.
Context `{TokenFramework} `{Hashing}.
Import velmora_nft spec.

Lemma transfer_nft_keeps_pools from to creator collection token_name version :
  keeps_pools not_exhausted (transfer_nft from to creator collection token_name version).
Proof. unfold transfer_nft. keeps_auto. Qed.

Lemma burn_nft_keeps_pools owner creator collection token_name version :
  keeps_pools not_exhausted (burn_nft owner creator collection token_name version).
Proof. unfold burn_nft. keeps_auto. Qed.

Lemma admin_burn_nft_keeps_pools admin_signer owner collection token_name version :
  keeps_pools not_exhausted
    (admin_burn_nft admin_signer owner collection token_name version).
Proof. unfold admin_burn_nft. keeps_auto. Qed.

Lemma mint_from_ipfs_metadata_keeps_pools creator to metadata_id :
  keeps_pools not_exhausted (mint_from_ipfs_metadata creator to metadata_id).
Proof. unfold mint_from_ipfs_metadata. keeps_auto. Qed.

Lemma mint_from_metadata_id_keeps_pools creator to metadata_id rarity skill :
  keeps_pools not_exhausted (mint_from_metadata_id creator to metadata_id rarity skill).
Proof. unfold mint_from_metadata_id. keeps_auto. Qed.

Lemma mint_from_bridge_keeps_pools creator to name description ipfs_hash rarity skill :
  keeps_pools not_exhausted
    (mint_from_bridge creator to name description ipfs_hash rarity skill).
Proof. unfold mint_from_bridge. keeps_auto. Qed.

Lemma mint_nft_with_metadata_id_keeps_pools creator to metadata_id :
  keeps_pools not_exhausted (mint_nft_with_metadata_id creator to metadata_id).
Proof.
  unfold mint_nft_with_metadata_id. keeps_auto.
  unfold u64_to_string in *. repeat case_match; simplify_eq; done.
Qed.

End more_frame_lemmas.

(** ** Vectors: removal by swapping with the last element *)

Section vectors.
Import spec.

Lemma borrow_lookup {A} (v : list A) (i : Z) :
  0 ≤ i → borrow v i = v !! Z.to_nat i.
Proof. intros Hi. unfold borrow. destruct (i <? 0) eqn:Hlt; [lia|reflexivity]. Qed.

Lemma borrow_Some {A} (v : list A) (i : Z) x :
  borrow v i = Some x → 0 ≤ i ∧ v !! Z.to_nat i = Some x ∧ (Z.to_nat i < length v)%nat.
Proof.
  unfold borrow. destruct (i <? 0) eqn:Hlt; [discriminate|].
  intros Hx. split; [lia|]. split; [exact Hx|]. by eapply lookup_lt_Some.
Qed.

Lemma borrow_None {A} (v : list A) (i : Z) :
  borrow v i = None → i < 0 ∨ Z.of_nat (length v) ≤ i.
Proof.
  unfold borrow. destruct (i <? 0) eqn:Hlt; [lia|].
  intros Hx%lookup_ge_None. lia.
Qed.

Lemma swap_with_last_app (a b : list Z) (x : Z) :
  swap_with_last_and_shrink (a ++ x :: b) (length a) ≡ₚ a ++ b.
Proof.
  unfold swap_with_last_and_shrink.
  destruct b as [|y b0] using rev_ind.
  - rewrite last_snoc, length_app. simpl.
    rewrite insert_app_r_alt, Nat.sub_diag by lia. simpl.
    replace (length a + 1 - 1)%nat with (length a) by lia.
    rewrite take_app_length. by rewrite app_nil_r.
  - clear IHb0.
    replace (a ++ x :: b0 ++ [y]) with ((a ++ x :: b0) ++ [y])
      by (by rewrite <- app_assoc).
    rewrite last_snoc.
    rewrite <- app_assoc. simpl.
    rewrite insert_app_r_alt, Nat.sub_diag by lia. simpl.
    replace (length (a ++ x :: b0 ++ [y]) - 1)%nat with (length (a ++ y :: b0)).
    2:{ rewrite !length_app. simpl. rewrite length_app. simpl. lia. }
    replace (a ++ y :: b0 ++ [y]) with ((a ++ y :: b0) ++ [y])
      by (by rewrite <- app_assoc).
    rewrite take_app_length.
    apply Permutation_app_head. apply Permutation_cons_append.
Qed.

Lemma swap_with_last_perm (l : list Z) (i : nat) (x : Z) :
  l !! i = Some x → swap_with_last_and_shrink l i ≡ₚ delete i l.
Proof.
  intros Hx. rewrite delete_take_drop.
  assert (length (take i l) = i) as Hlen.
  { rewrite length_take. apply lookup_lt_Some in Hx. lia. }
  pose proof (swap_with_last_app (take i l) (drop (S i) l) x) as Hperm.
  rewrite (take_drop_middle l i x Hx), Hlen in Hperm. exact Hperm.
Qed.

Lemma swap_with_last_length (l : list Z) (i : nat) (x : Z) :
  l !! i = Some x → length (swap_with_last_and_shrink l i) = (length l - 1)%nat.
Proof.
  intros Hx. rewrite (swap_with_last_perm l i x Hx).
  rewrite length_delete; [reflexivity|eauto].
Qed.

Lemma swap_with_last_NoDup (l : list Z) (i : nat) (x : Z) :
  l !! i = Some x → NoDup l → NoDup (swap_with_last_and_shrink l i).
Proof.
  intros Hx Hnd. rewrite (swap_with_last_perm l i x Hx).
  rewrite delete_take_drop. rewrite <- (take_drop_middle l i x Hx) in Hnd.
  apply NoDup_app in Hnd as (Ha & Hab & Hb).
  apply NoDup_cons in Hb as [Hxb Hb].
  apply NoDup_app. split; [done|]. split; [|done].
  intros y Hy Hyb. apply (Hab y Hy). by right.
Qed.

Lemma swap_with_last_elem (l : list Z) (i : nat) (x y : Z) :
  l !! i = Some x → NoDup l →
  y ∈ swap_with_last_and_shrink l i ↔ y ∈ l ∧ y ≠ x.
Proof.
  intros Hx Hnd. rewrite (swap_with_last_perm l i x Hx).
  rewrite delete_take_drop. rewrite <- (take_drop_middle l i x Hx) in Hnd.
  rewrite <- (take_drop_middle l i x Hx) at 3.
  apply NoDup_app in Hnd as (Ha & Hab & Hb).
  apply NoDup_cons in Hb as [Hxb Hb].
  rewrite !elem_of_app, elem_of_cons. split.
  - intros [Hy|Hy].
    + split; [by left|]. intros ->. apply (Hab x Hy). by left.
    + split; [by right; right|]. by intros ->.
  - intros [[Hy|[->|Hy]] Hne]; [by left|done|by right].
Qed.

Lemma swap_remove_spec (l : list Z) (i : Z) (x : Z) :
  borrow l i = Some x →
  swap_remove l i = Some (swap_with_last_and_shrink l (Z.to_nat i)).
Proof.
  intros Hb. unfold swap_remove, swap_with_last_and_shrink. rewrite Hb.
  apply borrow_Some in Hb as (Hi & Hx & Hlt).
  destruct (last l) as [z|] eqn:Hlast.
  - unfold pop_back. rewrite length_insert.
    destruct (<[Z.to_nat i:=z]> l) eqn:Hins; [|reflexivity].
    apply (f_equal length) in Hins. rewrite length_insert in Hins. simpl in Hins. lia.
  - apply last_None in Hlast. subst l. simpl in Hlt. lia.
Qed.

(** The fallback strategy spells the removal out: overwrite the position
    with the last element unless it is the last, then [pop_back]. *)
Lemma overwrite_then_pop (l : list Z) (i : nat) (x z : Z) :
  l !! i = Some x → last l = Some z →
  take (length l - 1) (if bool_decide (i ≠ length l - 1)%nat then <[i := z]> l else l)
  = swap_with_last_and_shrink l i.
Proof.
  intros Hx Hlast. unfold swap_with_last_and_shrink. rewrite Hlast.
  case_bool_decide as Hi; [reflexivity|].
  assert (i = (length l - 1)%nat) as -> by lia.
  rewrite list_insert_id; [reflexivity|].
  rewrite last_lookup in Hlast. by replace (length l - 1)%nat with (pred (length l)) by lia.
Qed.

End vectors.

(** ** The pool invariant *)

Section pool_invariant.
Context `{TokenFramework} `{Hashing}.
Import velmora_nft spec.

Lemma free_ids_length base used : length (free_ids base used) = count_false used.
Proof.
  unfold count_false. revert base. induction used as [|b used IH]; intros base.
  - reflexivity.
  - simpl. rewrite length_app, IH. rewrite filter_cons.
    destruct b; simpl; lia.
Qed.

Lemma elem_of_free_ids base used x :
  x ∈ free_ids base used ↔ ∃ i : nat, used !! i = Some false ∧ x = base + Z.of_nat i.
Proof.
  revert base. induction used as [|b used IH]; intros base; simpl.
  - split; [intros []%elem_of_nil|intros (i & Hi & _); by rewrite lookup_nil in Hi].
  - rewrite elem_of_app, IH. split.
    + intros [Hx|(i & Hi & ->)].
      * destruct b; [by apply elem_of_nil in Hx|].
        apply list_elem_of_singleton in Hx as ->. exists 0%nat. split; [done|lia].
      * exists (S i). split; [done|lia].
    + intros ([|i] & Hi & ->).
      * simpl in Hi. injection Hi as ->. left.
        apply list_elem_of_singleton. lia.
      * right. exists i. split; [done|lia].
Qed.

Lemma NoDup_free_ids base used : NoDup (free_ids base used).
Proof.
  revert base. induction used as [|b used IH]; intros base; simpl.
  - constructor.
  - apply NoDup_app. split; [destruct b; [constructor|apply NoDup_singleton]|].
    split; [|apply IH].
    intros x Hx (i & _ & ->)%elem_of_free_ids.
    destruct b; [by apply elem_of_nil in Hx|].
    apply list_elem_of_singleton in Hx. lia.
Qed.

Lemma elem_of_free_ids_1 used (x : Z) :
  length used = Z.to_nat MAX_METADATA_ID →
  x ∈ free_ids 1 used ↔ 1 ≤ x ≤ MAX_METADATA_ID ∧ borrow used (x - 1) = Some false.
Proof.
  intros Hlen. rewrite elem_of_free_ids. split.
  - intros (i & Hi & ->). pose proof (lookup_lt_Some _ _ _ Hi) as Hlt.
    split; [lia|]. rewrite borrow_lookup by lia.
    by replace (Z.to_nat (1 + Z.of_nat i - 1)) with i by lia.
  - intros [Hr Hb]. apply borrow_Some in Hb as (_ & Hb & _).
    exists (Z.to_nat (x - 1)). split; [done|lia].
Qed.

Lemma pool_wf_free_ids d :
  pool_wf d → available_metadata_ids d ≡ₚ free_ids 1 (used_metadata_ids d).
Proof.
  intros (Hlen & Hcount & Hnd & Hmem).
  apply NoDup_Permutation; [done|apply NoDup_free_ids|].
  intros x. rewrite Hmem. symmetry. by apply elem_of_free_ids_1.
Qed.

Lemma borrow_used_in_range (used : list bool) id :
  length used = Z.to_nat MAX_METADATA_ID → 1 ≤ id ≤ MAX_METADATA_ID →
  ∃ b, borrow used (id - 1) = Some b.
Proof.
  intros Hlen Hr. rewrite borrow_lookup by lia.
  apply lookup_lt_is_Some. lia.
Qed.

(** The invariant as the data model states it and the form used in the
    proofs are the same property. *)
Lemma pool_state_invariant_wf d : pool_state_invariant d ↔ pool_wf d.
Proof.
  split.
  - intros (Hlen & Hcount & Hfalse & Hpart).
    assert (free_ids 1 (used_metadata_ids d) ≡ₚ available_metadata_ids d) as Hperm.
    { apply submseteq_length_Permutation.
      - apply NoDup_submseteq; [apply NoDup_free_ids|].
        intros x [Hr Hb]%elem_of_free_ids_1; [|done].
        destruct (Hpart x Hr) as [[Hin _]|[_ Hused]]; [done|congruence].
      - rewrite free_ids_length. lia. }
    split; [done|]. split; [done|]. split.
    + rewrite <- Hperm. apply NoDup_free_ids.
    + intros id. rewrite <- Hperm. by apply elem_of_free_ids_1.
  - intros Hwf. pose proof (pool_wf_free_ids d Hwf) as Hperm.
    destruct Hwf as (Hlen & Hcount & Hnd & Hmem).
    split; [done|]. split; [done|]. split.
    + rewrite Hcount, Hperm, free_ids_length. reflexivity.
    + intros id Hr. destruct (borrow_used_in_range _ id Hlen Hr) as [[|] Hb].
      * right. split; [|done]. intros [_ Hf]%Hmem. congruence.
      * left. split; [|done]. apply Hmem. done.
Qed.

Lemma pools_invariant_wf w : pools_invariant w ↔ pools_wf w.
Proof.
  unfold pools_invariant, pools_wf.
  split; intros Hw a d Hd; apply pool_state_invariant_wf; eauto.
Qed.

(** [pool_wf] only looks at the pool part of a resource. *)
Lemma pool_wf_pool_of d d' : pool_of d' = pool_of d → pool_wf d → pool_wf d'.
Proof.
  unfold pool_of, pool_wf. intros [= -> -> -> _]. done.
Qed.

Lemma pools_wf_same_pools w w' : same_pools w w' → pools_wf w → pools_wf w'.
Proof.
  intros Hs Hw a d' Hd'.
  destruct (same_pools_lookup w' w a d' (same_pools_sym _ _ Hs) Hd') as (d & Hd & Hp).
  eapply (pool_wf_pool_of d); [done|]. eauto.
Qed.

(** An allocation keeps the invariant. *)
Lemma allocates_pool_wf w creator i id w' :
  allocates w creator i id w' → pools_wf w → pools_wf w'.
Proof.
  intros (d & d' & Hd & Hd' & Ha & Ha' & Hpos & Hr & Hfree & Hi & Hu & Hav & Hc & Hother)
         Hw a x Hx.
  destruct (decide (a = creator)) as [->|Hne].
  - assert (x = d') as -> by congruence. clear Hx.
    destruct (Hw _ _ Hd) as (Hlen & Hcount & Hnd & Hmem).
    pose proof (lookup_lt_Some _ _ _ Hi) as Hlt.
    split; [by rewrite Hu, length_insert|].
    split; [rewrite Hc, Hav, (swap_with_last_length _ _ _ Hi); lia|].
    split; [rewrite Hav; by eapply swap_with_last_NoDup|].
    intros y. rewrite Hav, (swap_with_last_elem _ _ _ y Hi Hnd), Hmem, Hu.
    split.
    + intros [[Hry Hby] Hne]. split; [done|].
      rewrite borrow_lookup in * by lia.
      rewrite list_lookup_insert_ne by lia. done.
    + intros [Hry Hby]. rewrite borrow_lookup in * by lia.
      destruct (decide (y = id)) as [->|Hne].
      * rewrite list_lookup_insert_eq in Hby by lia. discriminate.
      * rewrite list_lookup_insert_ne in Hby by lia. done.
  - specialize (Hother a Hne). rewrite Hx in Hother.
    destruct (nft w !! a) as [x0|] eqn:Hx0; [|discriminate].
    eapply (pool_wf_pool_of x0); [|by eapply Hw].
    simpl in Hother. congruence.
Qed.

(** The loop of [initialize] yields the identifiers 1 to 1200 and as many
    clear flags. *)
Lemma initialize_loop_result :
  initialize_loop (Z.to_nat MAX_METADATA_ID + 1) 1 [] []
  = Some (seqZ 1 MAX_METADATA_ID, replicate (Z.to_nat MAX_METADATA_ID) false).
Proof. vm_compute. reflexivity. Qed.

Lemma free_ids_replicate_false base n :
  free_ids base (replicate n false) = seqZ base (Z.of_nat n).
Proof.
  revert base. induction n as [|n IH]; intros base.
  - reflexivity.
  - simpl. rewrite IH. rewrite (seqZ_cons base (Z.of_nat (S n))) by lia.
    f_equal. f_equal; lia.
Qed.

Lemma initial_pool_wf events1 events2 events3 name a :
  pool_wf {| mint_events := events1; transfer_events := events2;
             burn_events := events3; collection_name := name; admin := a;
             used_metadata_ids := replicate (Z.to_nat MAX_METADATA_ID) false;
             available_metadata_ids := seqZ 1 MAX_METADATA_ID;
             available_count := MAX_METADATA_ID |}.
Proof.
  unfold pool_wf. cbn [used_metadata_ids available_metadata_ids available_count].
  split; [by rewrite length_replicate|].
  split; [rewrite length_seqZ; reflexivity|].
  split; [apply NoDup_seqZ|].
  intros id. rewrite <- elem_of_free_ids_1 by (by rewrite length_replicate).
  rewrite free_ids_replicate_false. reflexivity.
Qed.

End pool_invariant.

(** ** The two loops of the secure strategy *)

Section loops.
Context `{TokenFramework} `{Hashing}.
Import velmora_nft spec.

Lemma MAX_METADATA_ID_pos : 0 < MAX_METADATA_ID.
Proof. reflexivity. Qed.

Lemma candidate_range r k : 1 ≤ candidate r k ≤ MAX_METADATA_ID.
Proof.
  unfold candidate.
  pose proof (Z.mod_pos_bound (r + k - 1) MAX_METADATA_ID MAX_METADATA_ID_pos). lia.
Qed.

Lemma u64_range_bounds lo hi bits : lo < hi → lo ≤ u64_range lo hi bits < hi.
Proof.
  intros Hlt. unfold u64_range.
  pose proof (Z.mod_pos_bound bits (hi - lo)). lia.
Qed.

(** Every identifier is the candidate of one of the first
    [MAX_METADATA_ID] steps, whatever the start. *)
Lemma candidate_surjective r id :
  1 ≤ id ≤ MAX_METADATA_ID →
  ∃ k, 0 ≤ k < MAX_METADATA_ID ∧ candidate r k = id.
Proof.
  intros Hr. pose proof MAX_METADATA_ID_pos as Hpos.
  exists ((id - r) mod MAX_METADATA_ID). split; [by apply Z.mod_pos_bound|].
  unfold candidate.
  replace (r + (id - r) mod MAX_METADATA_ID - 1)
    with ((r - 1) + (id - r) mod MAX_METADATA_ID) by lia.
  rewrite Zplus_mod_idemp_r.
  replace (r - 1 + (id - r)) with (id - 1) by lia.
  rewrite Z.mod_small; lia.
Qed.

Lemma first_clear_Some used r k n id :
  first_clear used r k n = Some id →
  ∃ j, k ≤ j < k + Z.of_nat n ∧ id = candidate r j ∧
       borrow used (id - 1) = Some false ∧
       ∀ j', k ≤ j' < j → borrow used (candidate r j' - 1) ≠ Some false.
Proof.
  revert k. induction n as [|n IH]; intros k; simpl; [discriminate|].
  case_bool_decide as Hb.
  - intros [= <-]. exists k. split; [lia|]. split; [done|]. split; [done|]. lia.
  - intros (j & Hj & -> & Hclear & Hfirst)%IH.
    exists j. split; [lia|]. split; [done|]. split; [done|].
    intros j' Hj'. destruct (decide (j' = k)) as [->|Hne]; [done|].
    apply Hfirst. lia.
Qed.

Lemma first_clear_None used r k n :
  first_clear used r k n = None →
  ∀ j, k ≤ j < k + Z.of_nat n → borrow used (candidate r j - 1) ≠ Some false.
Proof.
  revert k. induction n as [|n IH]; intros k; simpl; [lia|].
  case_bool_decide as Hb; [discriminate|].
  intros Hn j Hj. destruct (decide (j = k)) as [->|Hne]; [done|].
  apply (IH (k + 1)); [done|lia].
Qed.

(** The loop computes the first clear candidate, zero when there is none;
    the fuel of the call is enough. *)
Lemma scan_loop_first_clear used r k fuel :
  length used = Z.to_nat MAX_METADATA_ID → 0 ≤ k →
  (Z.to_nat (MAX_METADATA_ID - k) < fuel)%nat →
  scan_loop fuel used r k 0
  = inr (default 0 (first_clear used r k (Z.to_nat (MAX_METADATA_ID - k)))).
Proof.
  intros Hlen. revert k. induction fuel as [|fuel IH]; intros k Hk Hfuel; [lia|].
  cbn [scan_loop]. destruct (k <? MAX_METADATA_ID) eqn:Hlt.
  - apply Z.ltb_lt in Hlt.
    replace (Z.to_nat (MAX_METADATA_ID - k))
      with (S (Z.to_nat (MAX_METADATA_ID - (k + 1)))) by lia.
    cbn [first_clear]. fold (candidate r k).
    destruct (borrow_used_in_range used (candidate r k) Hlen (candidate_range r k))
      as [b Hb].
    rewrite Hb. destruct b.
    + rewrite bool_decide_eq_false_2 by congruence. apply IH; lia.
    + rewrite bool_decide_eq_true_2 by done. reflexivity.
  - apply Z.ltb_ge in Hlt.
    replace (Z.to_nat (MAX_METADATA_ID - k)) with 0%nat by lia. reflexivity.
Qed.

(** With a well-formed pool that is not empty the scan finds an
    identifier. *)
Lemma first_clear_finds d r :
  pool_wf d → 0 < available_count d →
  ∃ id, first_clear (used_metadata_ids d) r 0 (Z.to_nat MAX_METADATA_ID) = Some id.
Proof.
  intros (Hlen & Hcount & Hnd & Hmem) Hpos.
  destruct (available_metadata_ids d) as [|id0 rest] eqn:Hav; [simpl in Hcount; lia|].
  assert (id0 ∈ id0 :: rest) as Hin by (by left).
  apply Hmem in Hin as [Hr Hfree].
  destruct (candidate_surjective r id0 Hr) as (k & Hk & Hcand).
  destruct (first_clear _ r 0 _) as [id|] eqn:Hfc; [by exists id|].
  exfalso. apply (first_clear_None _ _ _ _ Hfc k); [lia|]. by rewrite Hcand.
Qed.

Lemma remove_loop_spec (available : list Z) id fuel (i : nat) :
  (0 < fuel)%nat → (length available < fuel + i)%nat →
  (∃ j, (i ≤ j)%nat ∧ available !! j = Some id ∧
        (∀ j', (i ≤ j' < j)%nat → available !! j' ≠ Some id) ∧
        remove_loop fuel available id (Z.of_nat i)
        = inr (swap_with_last_and_shrink available j)) ∨
  ((∀ j, (i ≤ j)%nat → available !! j ≠ Some id) ∧
   remove_loop fuel available id (Z.of_nat i) = inr available).
Proof.
  revert i. induction fuel as [|fuel IH]; intros i Hpos Hfuel; [lia|].
  cbn [remove_loop]. destruct (Z.of_nat i <? Z.of_nat (length available)) eqn:Hlt.
  - apply Z.ltb_lt in Hlt.
    destruct (lookup_lt_is_Some_2 available i ltac:(lia)) as [x Hx].
    rewrite borrow_lookup, Nat2Z.id, Hx by lia.
    destruct (x =? id) eqn:Heq.
    + apply Z.eqb_eq in Heq as ->. left. exists i.
      split; [lia|]. split; [done|]. split; [lia|].
      rewrite (swap_remove_spec available (Z.of_nat i) id), Nat2Z.id; [done|].
      by rewrite borrow_lookup, Nat2Z.id by lia.
    + apply Z.eqb_neq in Heq.
      replace (Z.of_nat i + 1) with (Z.of_nat (S i)) by lia.
      destruct (IH (S i) ltac:(lia) ltac:(lia))
        as [(j & Hj & Hl & Hfirst & Hres)|[Hnone Hres]].
      * left. exists j. split; [lia|]. split; [done|]. split; [|done].
        intros j' Hj'. destruct (decide (j' = i)) as [->|Hne]; [congruence|].
        apply Hfirst. lia.
      * right. split; [|done]. intros j Hj.
        destruct (decide (j = i)) as [->|Hne]; [congruence|]. apply Hnone. lia.
  - apply Z.ltb_ge in Hlt. right. split; [|done].
    intros j Hj Hl. apply lookup_lt_Some in Hl. lia.
Qed.

Lemma remove_loop_finds (available : list Z) id :
  id ∈ available →
  ∃ j, available !! j = Some id ∧
       remove_loop (length available + 1) available id 0
       = inr (swap_with_last_and_shrink available j).
Proof.
  intros Hin.
  destruct (remove_loop_spec available id (length available + 1) 0
              ltac:(lia) ltac:(lia))
    as [(j & _ & Hl & _ & Hres)|[Hnone _]].
  - by exists j.
  - apply list_elem_of_lookup in Hin as [j Hj]. exfalso. by apply (Hnone j); [lia|].
Qed.

End loops.

(** ** The two allocation functions *)

Section allocation.
Context `{TokenFramework} `{Hashing}.
Import velmora_nft spec.

#[local] Opaque bcs_address bcs_u64.

Lemma u64_sub_Some a b : b ≤ a → u64_sub a b = Some (a - b).
Proof. intros Hle. unfold u64_sub. destruct (a <? b) eqn:Hlt; [lia|reflexivity]. Qed.

Lemma store_Some {A} (v : list A) i x y :
  borrow v i = Some x → store v i y = Some (<[Z.to_nat i := y]> v).
Proof. intros Hb. unfold store. by rewrite Hb. Qed.

(** [u64_to_string] has fuel for every [u64]. *)
Lemma digits_loop_enough fuel n digits :
  0 ≤ n < 10 ^ Z.of_nat fuel → is_Some (digits_loop (S fuel) n digits).
Proof.
  revert n digits. induction fuel as [|fuel IH]; intros n digits Hn.
  - assert (n = 0) as -> by (change (10 ^ Z.of_nat 0) with 1 in Hn; lia).
    cbn. eauto.
  - cbn [digits_loop]. destruct (0 <? n) eqn:Hpos; [|eauto].
    apply IH. apply Z.ltb_lt in Hpos.
    rewrite Nat2Z.inj_succ, Z.pow_succ_r in Hn by lia.
    split; [apply Z.div_pos; lia|].
    apply Z.div_lt_upper_bound; lia.
Qed.

Lemma u64_to_string_total n : 0 ≤ n ≤ MAX_U64 → ∃ s, u64_to_string n = inr s.
Proof.
  intros Hn. unfold u64_to_string. destruct (n =? 0); [eauto|].
  destruct (digits_loop_enough 20 n []) as [ds Hds].
  { unfold MAX_U64 in Hn. change (10 ^ Z.of_nat 20) with 100000000000000000000. lia. }
  rewrite Hds. eauto.
Qed.

(** The mint that closes an allocation goes through unless the token
    standard refuses: the generated attributes are in range and the
    generated URI has an accepted prefix. *)
Lemma mint_nft_with_metadata_id_progress creator to id env w d :
  nft w !! creator = Some d → admin d = creator → 1 ≤ id ≤ MAX_METADATA_ID →
  wp (mint_nft_with_metadata_id creator to id) env w
    (λ _ _, True) (λ e _, token_refusal e).
Proof.
  intros Hd Ha Hr. unfold mint_nft_with_metadata_id.
  assert (MAX_METADATA_ID = 1200) as HN by reflexivity.
  destruct (u64_to_string_total id) as [s Hs]; [unfold MAX_U64; lia|]. rewrite Hs.
  apply wp_bind, wp_lift_res; [intros ? [= <-]|intros ? [=]].
  assert (u64_mul id 7 = Some (id * 7)) as ->.
  { unfold u64_mul, MAX_U64. destruct (_ <? _) eqn:Hov; [lia|done]. }
  apply wp_bind, wp_lift_opt; [intros ? [= <-]|intros [=]].
  unfold mint_nft.
  pose proof (Z.mod_pos_bound id 100 ltac:(lia)) as Hm1.
  pose proof (Z.mod_pos_bound (id * 7) 100 ltac:(lia)) as Hm2.
  apply wp_bind, wp_assert;
    [intros _|intros Hf%Z.leb_gt; unfold MAX_RARITY in Hf; lia].
  apply wp_bind, wp_assert;
    [intros _|intros Hf%Z.leb_gt; unfold MAX_SKILL in Hf; lia].
  apply wp_bind, wp_assert; [intros _|].
  2:{ unfold validate_ipfs_uri. rewrite starts_with_prefix. discriminate. }
  apply wp_bind, wp_borrow_global; [intros d0 Hd0|congruence].
  assert (d0 = d) as -> by congruence.
  apply wp_bind, wp_assert; [intros _|intros Hf%bool_decide_eq_false; done].
  apply wp_bind, wp_now_seconds.
  apply wp_bind, wp_token_call; [intros ? ? _|done].
  apply wp_bind, wp_token_call; [intros ? ? _|done].
  apply wp_bind, wp_token_do; [intros ? _|done].
  apply wp_bind, wp_token_do; [intros ? _|done].
  apply wp_bind, wp_now_seconds.
  apply wp_write; cbn [nft]; [done|congruence].
Qed.

(** The secure strategy on a well-formed, non-empty pool, called by its
    admin. *)
Lemma mint_random_nft_secure_spec creator to env w d :
  nft w !! creator = Some d → admin d = creator → pool_wf d →
  0 < available_count d →
  wp (mint_random_nft_secure creator to) env w
    (λ id w',
       first_clear (used_metadata_ids d)
         (u64_range 1 (MAX_METADATA_ID + 1) (random_bits env)) 0
         (Z.to_nat MAX_METADATA_ID) = Some id ∧
       ∃ i, allocates w creator i id w')
    (λ e _, token_refusal e).
Proof.
  intros Hd Hadmin Hwf Hpos. unfold mint_random_nft_secure.
  apply wp_bind, wp_borrow_global; [intros d0 Hd0|congruence].
  assert (d0 = d) as -> by congruence. clear Hd0.
  apply wp_bind, wp_assert;
    [intros _|intros Hf; apply bool_decide_eq_false in Hf; done].
  apply wp_bind, wp_assert; [intros _|intros Hf; apply Z.ltb_ge in Hf; lia].
  apply wp_bind, wp_ask.
  set (r := u64_range 1 (MAX_METADATA_ID + 1) (random_bits env)).
  pose proof Hwf as (Hlen & Hcount & Hnd & Hmem).
  rewrite (scan_loop_first_clear _ r 0) by (done || lia).
  replace (Z.to_nat (MAX_METADATA_ID - 0)) with (Z.to_nat MAX_METADATA_ID) by lia.
  destruct (first_clear_finds d r Hwf Hpos) as [id Hfc]. rewrite Hfc.
  apply first_clear_Some in Hfc as Hfc'.
  destruct Hfc' as (k & Hk & Hid & Hfree & _).
  assert (1 ≤ id ≤ MAX_METADATA_ID) as Hr by (rewrite Hid; apply candidate_range).
  assert (id ∈ available_metadata_ids d) as Hin by (by apply Hmem).
  apply wp_bind, wp_lift_res; [intros ? [= <-]|intros ? [=]].
  apply wp_bind, wp_assert; [intros _|intros Hf; apply Z.ltb_ge in Hf; lia].
  rewrite (store_Some _ _ _ true Hfree).
  apply wp_bind, wp_lift_opt; [intros ? [= <-]|intros [=]].
  apply wp_bind, wp_write; [intros d0 Hd0|congruence].
  assert (d0 = d) as -> by congruence. clear Hd0.
  apply wp_bind, wp_borrow_global; cbn [nft]; rewrite lookup_insert_eq;
    [intros ? [= <-]|intros [=]].
  cbn [set_used available_metadata_ids].
  destruct (remove_loop_finds _ id Hin) as (i & Hi & Hrem). rewrite Hrem.
  apply wp_bind, wp_lift_res; [intros ? [= <-]|intros ? [=]].
  apply wp_bind, wp_write; cbn [nft tokens]; rewrite lookup_insert_eq;
    [intros ? [= <-]|intros [=]].
  apply wp_bind, wp_borrow_global; cbn [nft]; rewrite lookup_insert_eq;
    [intros ? [= <-]|intros [=]].
  cbn [set_used set_available available_count].
  rewrite u64_sub_Some by lia.
  apply wp_bind, wp_lift_opt; [intros ? [= <-]|intros [=]].
  apply wp_bind, wp_write; cbn [nft tokens]; rewrite lookup_insert_eq;
    [intros ? [= <-]|intros [=]].
  rewrite !insert_insert_eq.
  apply wp_bind.
  eapply wp_mono;
    [apply wp_conj;
       [apply mint_nft_with_metadata_id_keeps_pools
       |eapply mint_nft_with_metadata_id_progress;
          [cbn [nft]; apply lookup_insert_eq|done|done]]
    | |by intros e w' [_ He]].
  intros u w' [Hsame _]. cbv beta in Hsame. apply wp_ret. split; [done|]. exists i.
  match type of Hsame with same_pools ?w3 _ => set (w3' := w3) in * end.
  destruct (same_pools_lookup w3' w' creator _ Hsame (lookup_insert_eq _ _ _))
    as (d' & Hd' & Hp').
  unfold pool_of in Hp'. cbn in Hp'. injection Hp' as Hu' Hav' Hc' Ha'.
  exists d, d'. repeat split; try done; try lia.
  intros b Hne. rewrite <- (Hsame b). unfold w3'. cbn [nft].
  by rewrite lookup_insert_ne.
Qed.


Lemma pop_back_Some {A} (v : list A) :
  v ≠ [] → pop_back v = Some (take (length v - 1) v).
Proof. destruct v; [done|reflexivity]. Qed.

Lemma bytes_to_u64_be bytes acc v :
  bytes_to_u64 bytes acc = Some v → v = foldl (λ a b, a * 256 + b) acc bytes.
Proof.
  revert acc. induction bytes as [|b bytes IH]; intros acc; simpl.
  - by intros [= ->].
  - unfold u64_mul, u64_add.
    destruct (MAX_U64 <? acc * 256); simpl; [discriminate|].
    destruct (MAX_U64 <? acc * 256 + b); simpl; [discriminate|].
    apply IH.
Qed.

(** The fallback strategy on a well-formed, non-empty pool, called by its
    admin. *)
Lemma mint_random_nft_spec creator to env w d :
  nft w !! creator = Some d → admin d = creator → pool_wf d →
  0 < available_count d →
  wp (mint_random_nft creator to) env w
    (λ id w',
       let i := fallback_index creator (now env) (available_count d) in
       0 ≤ i < available_count d ∧
       available_metadata_ids d !! Z.to_nat i = Some id ∧
       allocates w creator (Z.to_nat i) id w')
    (λ e _, fallback_refusal e).
Proof.
  intros Hd Hadmin Hwf Hpos. unfold mint_random_nft.
  pose proof Hwf as (Hlen & Hcount & Hnd & Hmem).
  apply wp_bind, wp_borrow_global; [intros d0 Hd0|congruence].
  assert (d0 = d) as -> by congruence. clear Hd0.
  apply wp_bind, wp_assert;
    [intros _|intros Hf; apply bool_decide_eq_false in Hf; done].
  apply wp_bind, wp_assert; [intros _|intros Hf; apply Z.ltb_ge in Hf; lia].
  apply wp_bind, wp_now_seconds.
  apply wp_bind, wp_lift_opt; [intros random_bytes Hslice|by right; left].
  apply wp_bind, wp_lift_opt; [intros random_u64 Hbytes|by right; right].
  unfold slice0 in Hslice. case_match; [|discriminate]. injection Hslice as <-.
  apply bytes_to_u64_be in Hbytes.
  set (i := random_u64 mod available_count d).
  assert (i = fallback_index creator (now env) (available_count d)) as Hfi.
  { unfold i, fallback_index, be_u64. by rewrite Hbytes. }
  assert (0 ≤ i < available_count d) as Hi by (by apply Z.mod_pos_bound).
  destruct (lookup_lt_is_Some_2 (available_metadata_ids d) (Z.to_nat i) ltac:(lia))
    as [id Hid].
  assert (1 ≤ id ≤ MAX_METADATA_ID ∧
          borrow (used_metadata_ids d) (id - 1) = Some false) as [Hr Hfree].
  { apply Hmem. apply list_elem_of_lookup. eauto. }
  rewrite borrow_lookup, Hid by lia.
  apply wp_bind, wp_lift_opt; [intros ? [= <-]|intros [=]].
  rewrite (u64_sub_Some (available_count d) 1) by lia.
  apply wp_bind, wp_lift_opt; [intros ? [= <-]|intros [=]].
  destruct (lookup_lt_is_Some_2 (available_metadata_ids d)
              (Z.to_nat (available_count d - 1)) ltac:(lia)) as [last_id Hlast].
  assert (last (available_metadata_ids d) = Some last_id) as Hlast'.
  { rewrite last_lookup. rewrite <- Hlast. f_equal. lia. }
  assert (available_metadata_ids d ≠ []) as Hne.
  { intros Hnil. rewrite Hnil in Hid. by rewrite lookup_nil in Hid. }
  apply wp_bind.
  apply (wp_mono _ _ _
           (λ _ w1, ∃ av, w1 = {| nft := <[creator := set_available av d]> (nft w);
                                  tokens := tokens w |} ∧
                          av ≠ [] ∧
                          take (length av - 1) av
                          = swap_with_last_and_shrink (available_metadata_ids d)
                              (Z.to_nat i)) _
           (λ e _, fallback_refusal e) _); [| |done].
  { case_bool_decide as Hil.
    - rewrite borrow_lookup, Hlast by lia.
      apply wp_bind, wp_lift_opt; [intros ? [= <-]|intros [=]].
      rewrite (store_Some _ _ id) by (by rewrite borrow_lookup by lia).
      apply wp_bind, wp_lift_opt; [intros ? [= <-]|intros [=]].
      apply wp_write; [intros d0 Hd0|congruence].
      assert (d0 = d) as -> by congruence. eexists. split; [reflexivity|].
      split.
      + intros Hnil%(f_equal length). rewrite length_insert in Hnil.
        destruct (available_metadata_ids d); [done|discriminate].
      + rewrite length_insert. unfold swap_with_last_and_shrink. by rewrite Hlast'.
    - apply wp_ret. exists (available_metadata_ids d). split.
      + destruct w as [m t]. cbn [nft tokens] in *. f_equal.
        rewrite insert_id; [done|]. rewrite Hd. f_equal. by destruct d.
      + split; [done|]. unfold swap_with_last_and_shrink. rewrite Hlast'.
        assert (i = available_count d - 1) as Hieq
          by (destruct (decide (i = available_count d - 1)); done).
        rewrite list_insert_id; [done|]. rewrite <- Hlast. f_equal. lia. }
  intros u w1 (av & -> & Hav & Htake).
  apply wp_bind, wp_borrow_global; cbn [nft]; rewrite lookup_insert_eq;
    [intros ? [= <-]|intros [=]].
  cbn [set_available available_metadata_ids].
  rewrite (pop_back_Some av Hav), Htake.
  apply wp_bind, wp_lift_opt; [intros ? [= <-]|intros [=]].
  apply wp_bind, wp_write; cbn [nft tokens]; rewrite lookup_insert_eq;
    [intros ? [= <-]|intros [=]].
  apply wp_bind, wp_borrow_global; cbn [nft]; rewrite lookup_insert_eq;
    [intros ? [= <-]|intros [=]].
  cbn [set_available available_count].
  rewrite (u64_sub_Some (available_count d) 1) by lia.
  apply wp_bind, wp_lift_opt; [intros ? [= <-]|intros [=]].
  apply wp_bind, wp_write; cbn [nft tokens]; rewrite lookup_insert_eq;
    [intros ? [= <-]|intros [=]].
  apply wp_bind, wp_borrow_global; cbn [nft]; rewrite lookup_insert_eq;
    [intros ? [= <-]|intros [=]].
  rewrite (u64_sub_Some id 1) by lia.
  apply wp_bind, wp_lift_opt; [intros ? [= <-]|intros [=]].
  cbn [set_count set_available used_metadata_ids].
  rewrite (store_Some _ _ _ true Hfree).
  apply wp_bind, wp_lift_opt; [intros ? [= <-]|intros [=]].
  apply wp_bind, wp_write; cbn [nft tokens]; rewrite lookup_insert_eq;
    [intros ? [= <-]|intros [=]].
  rewrite !insert_insert_eq.
  apply wp_bind.
  eapply wp_mono;
    [apply wp_conj;
       [apply mint_nft_with_metadata_id_keeps_pools
       |eapply mint_nft_with_metadata_id_progress;
          [cbn [nft]; apply lookup_insert_eq|done|done]]
    | |by intros e w' [_ He]; left].
  intros u' w' [Hsame _]. cbv beta in Hsame. apply wp_ret.
  rewrite <- Hfi. split; [done|]. split; [done|].
  match type of Hsame with same_pools ?w3 _ => set (w3' := w3) in * end.
  destruct (same_pools_lookup w3' w' creator _ Hsame (lookup_insert_eq _ _ _))
    as (d' & Hd' & Hp').
  unfold pool_of in Hp'. cbn in Hp'. injection Hp' as Hu' Hav' Hc' Ha'.
  exists d, d'. repeat split; try done; try lia.
  intros b Hneb. rewrite <- (Hsame b). unfold w3'. cbn [nft].
  by rewrite lookup_insert_ne.
Qed.

End allocation.

(** ** The guards of the allocation functions *)

Section guards.
Context `{TokenFramework} `{Hashing}.
Import velmora_nft spec.

Lemma wp_fail_eq {St A} (m : M St A) env s e0 s0 :
  wp m env s (λ _ _, False) (λ e s', e = e0 ∧ s' = s0) → m env s = Fail e0 s0.
Proof. unfold wp. destruct (m env s); [done|]. by intros [-> ->]. Qed.

Lemma secure_missing creator to env w :
  nft w !! creator = None →
  mint_random_nft_secure creator to env w = Fail MissingResource w.
Proof.
  intros Hd. apply wp_fail_eq. unfold mint_random_nft_secure.
  apply wp_bind, wp_borrow_global; [congruence|done].
Qed.

Lemma secure_not_admin creator to env w d :
  nft w !! creator = Some d → admin d ≠ creator →
  mint_random_nft_secure creator to env w = Fail PermissionDenied w.
Proof.
  intros Hd Ha. apply wp_fail_eq. unfold mint_random_nft_secure.
  apply wp_bind, wp_borrow_global; [intros d0 Hd0|congruence].
  assert (d0 = d) as -> by congruence.
  apply wp_bind, wp_assert; [|done].
  intros Ht%bool_decide_eq_true. done.
Qed.

Lemma secure_exhausted creator to env w d :
  nft w !! creator = Some d → admin d = creator → available_count d ≤ 0 →
  mint_random_nft_secure creator to env w = Fail PoolExhausted w.
Proof.
  intros Hd Ha Hc. apply wp_fail_eq. unfold mint_random_nft_secure.
  apply wp_bind, wp_borrow_global; [intros d0 Hd0|congruence].
  assert (d0 = d) as -> by congruence.
  apply wp_bind, wp_assert; [intros _|intros Hf%bool_decide_eq_false; done].
  apply wp_bind, wp_assert; [|done].
  intros Ht%Z.ltb_lt. lia.
Qed.

Lemma fallback_missing creator to env w :
  nft w !! creator = None →
  mint_random_nft creator to env w = Fail MissingResource w.
Proof.
  intros Hd. apply wp_fail_eq. unfold mint_random_nft.
  apply wp_bind, wp_borrow_global; [congruence|done].
Qed.

Lemma fallback_not_admin creator to env w d :
  nft w !! creator = Some d → admin d ≠ creator →
  mint_random_nft creator to env w = Fail PermissionDenied w.
Proof.
  intros Hd Ha. apply wp_fail_eq. unfold mint_random_nft.
  apply wp_bind, wp_borrow_global; [intros d0 Hd0|congruence].
  assert (d0 = d) as -> by congruence.
  apply wp_bind, wp_assert; [|done].
  intros Ht%bool_decide_eq_true. done.
Qed.

Lemma fallback_exhausted creator to env w d :
  nft w !! creator = Some d → admin d = creator → available_count d ≤ 0 →
  mint_random_nft creator to env w = Fail PoolExhausted w.
Proof.
  intros Hd Ha Hc. apply wp_fail_eq. unfold mint_random_nft.
  apply wp_bind, wp_borrow_global; [intros d0 Hd0|congruence].
  assert (d0 = d) as -> by congruence.
  apply wp_bind, wp_assert; [intros _|intros Hf%bool_decide_eq_false; done].
  apply wp_bind, wp_assert; [|done].
  intros Ht%Z.ltb_lt. lia.
Qed.

(** A successful allocation, by either function, on a state with
    well-formed pools. *)
Lemma secure_Ok creator to env w id w' :
  pools_wf w → mint_random_nft_secure creator to env w = Ok id w' →
  ∃ i, allocates w creator i id w'.
Proof.
  intros Hw Hok.
  destruct (nft w !! creator) as [d|] eqn:Hd;
    [|by rewrite secure_missing in Hok].
  destruct (decide (admin d = creator)) as [Ha|Ha];
    [|by rewrite (secure_not_admin _ _ _ _ d) in Hok].
  destruct (decide (0 < available_count d)) as [Hc|Hc];
    [|rewrite (secure_exhausted _ _ _ _ d) in Hok by (done || lia); done].
  pose proof (mint_random_nft_secure_spec creator to env w d Hd Ha (Hw _ _ Hd) Hc)
    as Hwp.
  unfold wp in Hwp. rewrite Hok in Hwp. by destruct Hwp as [_ Halloc].
Qed.

Lemma fallback_Ok creator to env w id w' :
  pools_wf w → mint_random_nft creator to env w = Ok id w' →
  ∃ i, allocates w creator i id w'.
Proof.
  intros Hw Hok.
  destruct (nft w !! creator) as [d|] eqn:Hd;
    [|by rewrite fallback_missing in Hok].
  destruct (decide (admin d = creator)) as [Ha|Ha];
    [|by rewrite (fallback_not_admin _ _ _ _ d) in Hok].
  destruct (decide (0 < available_count d)) as [Hc|Hc];
    [|rewrite (fallback_exhausted _ _ _ _ d) in Hok by (done || lia); done].
  pose proof (mint_random_nft_spec creator to env w d Hd Ha (Hw _ _ Hd) Hc) as Hwp.
  unfold wp in Hwp. rewrite Hok in Hwp. destruct Hwp as (_ & _ & Halloc). eauto.
Qed.

(** [initialize], when it returns, has stored a fresh, full pool under an
    address that had none. *)
Lemma initialize_spec signer env w :
  wp (initialize signer) env w
    (λ _ w', nft w !! signer = None ∧
             ∃ d, pool_wf d ∧ admin d = signer ∧
                  available_count d = MAX_METADATA_ID ∧
                  nft w' = <[signer := d]> (nft w))
    (λ _ _, True).
Proof.
  unfold initialize.
  apply wp_bind, wp_token_do; [intros t Ht|done].
  rewrite initialize_loop_result.
  apply wp_bind, wp_lift_opt; [intros ? [= <-]|done].
  apply wp_move_to; [|done]. cbn [nft]. intros Hnone. split; [done|].
  eexists. split; [apply initial_pool_wf|]. done.
Qed.

(** Called by the admin on a sound pool that is not empty, the secure
    strategy returns unless the token standard refuses the mint; the
    fallback returns unless the token standard refuses or the hash is
    malformed. *)
Lemma secure_allocation_progress creator to env w d :
  nft w !! creator = Some d → admin d = creator → pool_state_invariant d →
  0 < available_count d →
  (∃ id w', mint_random_nft_secure creator to env w = Ok id w') ∨
  (∃ w', mint_random_nft_secure creator to env w = Fail FrameworkAbort w').
Proof.
  intros Hd Ha Hwf%pool_state_invariant_wf Hc.
  pose proof (mint_random_nft_secure_spec creator to env w d Hd Ha Hwf Hc) as Hwp.
  unfold wp in Hwp. destruct (mint_random_nft_secure creator to env w) as [id w'|e w'].
  - left. eauto.
  - right. rewrite Hwp. eauto.
Qed.

Lemma fallback_allocation_progress creator to env w d :
  nft w !! creator = Some d → admin d = creator → pool_state_invariant d →
  0 < available_count d →
  (∃ id w', mint_random_nft creator to env w = Ok id w') ∨
  (∃ e w', fallback_refusal e ∧ mint_random_nft creator to env w = Fail e w').
Proof.
  intros Hd Ha Hwf%pool_state_invariant_wf Hc.
  pose proof (mint_random_nft_spec creator to env w d Hd Ha Hwf Hc) as Hwp.
  unfold wp in Hwp. destruct (mint_random_nft creator to env w) as [id w'|e w'].
  - left. eauto.
  - right. eauto.
Qed.

(** [initialize] returns whenever the token standard accepts the
    collection and the signer holds no pool yet: the loop has enough
    fuel. *)
Lemma initialize_returns signer env w t :
  create_collection signer COLLECTION_NAME COLLECTION_DESCRIPTION COLLECTION_URI 0
    (tokens w) = Some t →
  nft w !! signer = None →
  ∃ d, initialize signer env w
       = Ok tt {| nft := <[signer := d]> (nft w); tokens := t |} ∧
       pool_wf d ∧ admin d = signer ∧ available_count d = MAX_METADATA_ID.
Proof.
  intros Hc Hnone. eexists. split; [|split; [apply initial_pool_wf|done]].
  unfold initialize.
  assert (∀ (m : M World unit) a0 s0,
            wp m env w (λ a s', a = a0 ∧ s' = s0) (λ _ _, False) → m env w = Ok a0 s0)
    as Hok.
  { intros m a0 s0. unfold wp. destruct (m env w); [|done]. by intros [-> ->]. }
  apply Hok.
  apply wp_bind, wp_token_do; [intros t' Ht'|congruence].
  assert (t' = t) as -> by congruence.
  rewrite initialize_loop_result.
  apply wp_bind, wp_lift_opt; [intros ? [= <-]|done].
  apply wp_move_to; cbn [nft tokens]; [done|].
  intros [? ?]. congruence.
Qed.

End guards.

(** ** Transactions *)

Section transactions.
Context `{TokenFramework} `{Hashing}.
Import velmora_nft spec.

Lemma transaction_frame {A} P (m : M World A) env w :
  keeps_pools P m →
  let o := transaction (m ;; mret (None : option Z)) env w in
  same_pools w o.2 ∧ ∀ id, o.1 ≠ inr (Some id).
Proof.
  intros Hm. specialize (Hm env w). unfold wp in Hm.
  unfold transaction, mbind, M_bind, bind.
  destruct (m env w) as [a w'|e w']; simpl.
  - split; [done|]. intros id [=].
  - split; [apply same_pools_refl|]. intros id [=].
Qed.

Lemma step_effect_holds signer c env w :
  pools_wf w →
  step_effect signer (step signer c env w).1 w (step signer c env w).2.
Proof.
  intros Hw. unfold step.
  destruct c; cbn [run];
    try (left; eapply transaction_frame; first
           [ apply mint_from_ipfs_metadata_keeps_pools
           | apply mint_nft_keeps_pools
           | apply transfer_nft_keeps_pools
           | apply burn_nft_keeps_pools
           | apply admin_burn_nft_keeps_pools
           | apply mint_from_metadata_id_keeps_pools
           | apply mint_from_bridge_keeps_pools ]).
  - pose proof (initialize_spec signer env w) as Hwp. unfold wp in Hwp.
    unfold transaction, mbind, M_bind, bind.
    destruct (initialize signer env w) as [u w'|e w']; simpl.
    + right; right. destruct Hwp as (Hnone & d & Hwf & Ha & _ & Hnft). eauto 10.
    + left. split; [apply same_pools_refl|]. intros id [=].
  - unfold transaction, mbind, M_bind, bind.
    destruct (mint_random_nft_secure signer to env w) as [id w'|e w'] eqn:Hrun; simpl.
    + right; left. destruct (secure_Ok _ _ _ _ _ _ Hw Hrun) as [i Halloc]. eauto.
    + left. split; [apply same_pools_refl|]. intros id [=].
  - unfold transaction, mbind, M_bind, bind.
    destruct (mint_random_nft signer to env w) as [id w'|e w'] eqn:Hrun; simpl.
    + right; left. destruct (fallback_Ok _ _ _ _ _ _ Hw Hrun) as [i Halloc]. eauto.
    + left. split; [apply same_pools_refl|]. intros id [=].
Qed.

Lemma step_effect_pools_wf signer r w w' :
  step_effect signer r w w' → pools_wf w → pools_wf w'.
Proof.
  intros [[Hs _]|[(i & id & _ & Ha)|(Hnone & _ & d & Hwf & _ & Hnft)]] Hw.
  - by eapply pools_wf_same_pools.
  - by eapply allocates_pool_wf.
  - intros a x. rewrite Hnft. destruct (decide (a = signer)) as [->|Hne].
    + rewrite lookup_insert_eq. by intros [= <-].
    + rewrite lookup_insert_ne by done. apply Hw.
Qed.

Lemma step_pools_wf signer c env w : pools_wf w → pools_wf (step signer c env w).2.
Proof. intros Hw. eapply step_effect_pools_wf; [by apply step_effect_holds|done]. Qed.

Lemma run_all_pools_wf txs w : pools_wf w → pools_wf (run_all txs w).
Proof.
  revert w. induction txs as [|[[signer c] env] txs IH]; intros w Hw; [done|].
  simpl. apply IH. by apply step_pools_wf.
Qed.

(** A flag that is set stays set. *)
Lemma step_effect_taken signer r w w' creator id :
  step_effect signer r w w' → pools_wf w → taken w creator id → taken w' creator id.
Proof.
  intros [[Hs _]|[(i & id' & _ & Ha)|(Hnone & _ & d & _ & _ & Hnft)]] Hw
         (x & Hx & Hused).
  - destruct (same_pools_lookup w w' creator x Hs Hx) as (x' & Hx' & Hp).
    exists x'. split; [done|]. unfold pool_of in Hp. by injection Hp as -> _ _ _.
  - destruct Ha as (d & d' & Hd & Hd' & _ & _ & _ & Hr & Hfree & _ & Hu & _ & _ & Hother).
    destruct (decide (creator = signer)) as [->|Hne].
    + assert (x = d) as -> by congruence. exists d'. split; [done|].
      rewrite Hu. apply borrow_Some in Hused as (Hi & Hl & Hlt).
      rewrite borrow_lookup by done.
      destruct (decide (id = id')) as [->|Hne'].
      * rewrite list_lookup_insert_eq by done. reflexivity.
      * rewrite list_lookup_insert_ne by lia. done.
    + specialize (Hother creator Hne). rewrite Hx in Hother.
      destruct (nft w' !! creator) as [x'|] eqn:Hx'; [|discriminate].
      exists x'. split; [done|]. simpl in Hother. unfold pool_of in Hother.
      by injection Hother as -> _ _ _.
  - exists x. split; [|done]. rewrite Hnft. rewrite lookup_insert_ne; [done|].
    intros <-. congruence.
Qed.

(** The identifier of an allocation was free before and is flagged after. *)
Lemma allocates_fresh w creator i id w' :
  allocates w creator i id w' →
  ¬ taken w creator id ∧ taken w' creator id ∧
  is_metadata_id_used w' creator id = inr true.
Proof.
  intros (d & d' & Hd & Hd' & _ & _ & _ & Hr & Hfree & _ & Hu & _).
  assert (borrow (used_metadata_ids d') (id - 1) = Some true) as Hset.
  { rewrite Hu. apply borrow_Some in Hfree as (Hi & Hl & Hlt).
    rewrite borrow_lookup by done. by rewrite list_lookup_insert_eq. }
  split; [|split].
  - intros (x & Hx & Hused). assert (x = d) as -> by congruence. congruence.
  - by exists d'.
  - unfold is_metadata_id_used. rewrite Hd'.
    destruct (id =? 0) eqn:Hzero; [lia|].
    destruct (MAX_METADATA_ID <? id) eqn:Hmax; [lia|]. simpl. by rewrite Hset.
Qed.

Lemma allocated_not_taken creator txs w id :
  pools_wf w → id ∈ allocated creator txs w → ¬ taken w creator id.
Proof.
  revert w. induction txs as [|[[signer c] env] txs IH]; intros w Hw; simpl.
  - by intros ?%elem_of_nil.
  - pose proof (step_effect_holds signer c env w Hw) as Heff.
    pose proof (step_pools_wf signer c env w Hw) as Hw'.
    destruct (step signer c env w) as [r w'] eqn:Hstep. simpl in *.
    assert (id ∈ allocated creator txs w' → ¬ taken w creator id) as Hrest.
    { intros Hin Ht. apply (IH w' Hw' Hin). by eapply step_effect_taken. }
    destruct r as [e|[id'|]]; [done| |done].
    case_bool_decide as Hsig; [|done]. subst signer.
    intros [->|Hin]%elem_of_cons; [|by apply Hrest].
    destruct Heff as [[_ Hno]|[(i & id & [= <-] & Ha)|(_ & [=] & _)]];
      [by destruct (Hno id')|].
    by apply allocates_fresh in Ha as (Hfree & _).
Qed.

Lemma allocated_NoDup creator txs w : pools_wf w → NoDup (allocated creator txs w).
Proof.
  revert w. induction txs as [|[[signer c] env] txs IH]; intros w Hw; simpl.
  - constructor.
  - pose proof (step_effect_holds signer c env w Hw) as Heff.
    pose proof (step_pools_wf signer c env w Hw) as Hw'.
    destruct (step signer c env w) as [r w'] eqn:Hstep. simpl in *.
    destruct r as [e|[id'|]]; [by apply IH| |by apply IH].
    case_bool_decide as Hsig; [|by apply IH]. subst signer.
    apply NoDup_cons. split; [|by apply IH].
    intros Hin. apply (allocated_not_taken creator txs w' id' Hw' Hin).
    destruct Heff as [[_ Hno]|[(i & id & [= <-] & Ha)|(_ & [=] & _)]];
      [by destruct (Hno id')|].
    by apply allocates_fresh in Ha as (_ & Ht & _).
Qed.

(** C1: along any list of transactions that starts in a state whose pools
    satisfy the invariant, the identifiers returned by the allocations of
    one creator, secure or fallback, are pairwise distinct; and in the
    state right after a successful allocation [is_metadata_id_used]
    answers [true] for the identifier it returned. *)
Theorem allocated_identifiers_distinct_and_used creator txs w :
  pools_invariant w →
  NoDup (allocated creator txs w) ∧
  ∀ to env id w',
    (step creator (MintRandomNftSecure to) env (run_all txs w) = (inr (Some id), w') ∨
     step creator (MintRandomNft to) env (run_all txs w) = (inr (Some id), w')) →
    is_metadata_id_used w' creator id = inr true.
Proof.
  intros Hw%pools_invariant_wf. split; [by apply allocated_NoDup|].
  intros to env id w' Hstep.
  pose proof (run_all_pools_wf txs w Hw) as Hw1.
  assert (∃ c, step creator c env (run_all txs w) = (inr (Some id), w')) as [c Hc]
    by (destruct Hstep; eauto).
  pose proof (step_effect_holds creator c env _ Hw1) as Heff. rewrite Hc in Heff.
  simpl in Heff.
  destruct Heff as [[_ Hno]|[(i & id0 & [= <-] & Ha)|(_ & [=] & _)]];
    [by destruct (Hno id)|].
  by apply allocates_fresh in Ha as (_ & _ & Hused).
Qed.

(** C2: [initialize] establishes the pool-state invariant: where the
    token standard accepts the collection and the signer holds no pool yet,
    it returns and has stored a pool that satisfies the invariant and
    counts [MAX_METADATA_ID] available identifiers.  Every entry function
    of the module, run as a transaction, preserves the invariant in every
    pool. *)
Theorem pool_invariant_established_and_preserved signer c env w :
  (∀ t,
     create_collection signer COLLECTION_NAME COLLECTION_DESCRIPTION COLLECTION_URI 0
       (tokens w) = Some t →
     nft w !! signer = None →
     ∃ d, initialize signer env w
          = Ok tt {| nft := <[signer := d]> (nft w); tokens := t |} ∧
          pool_state_invariant d ∧ available_count d = MAX_METADATA_ID) ∧
  (pools_invariant w → pools_invariant (step signer c env w).2).
Proof.
  split.
  - intros t Hc Hnone.
    destruct (initialize_returns signer env w t Hc Hnone) as (d & Hinit & Hwf & _ & Hn).
    exists d. split; [done|]. split; [by apply pool_state_invariant_wf|done].
  - intros Hw%pools_invariant_wf. apply pools_invariant_wf. by apply step_pools_wf.
Qed.

End transactions.

(** ** Exhaustion, selection and the unreachable branch *)

Section selection.
Context `{TokenFramework} `{Hashing}.
Import velmora_nft spec.

Lemma pool_wf_count_nonneg d : pool_wf d → 0 ≤ available_count d.
Proof. intros (_ & -> & _). lia. Qed.

(** C3: called by the admin of a pool that satisfies the invariant, each
    allocation function aborts with the code of an exhausted pool if and
    only if [get_available_count] is zero. *)
Theorem allocation_exhausted_iff_count_zero creator to env w d :
  nft w !! creator = Some d → admin d = creator → pool_state_invariant d →
  ((∃ w', mint_random_nft_secure creator to env w = Fail PoolExhausted w')
   ↔ get_available_count w creator = 0) ∧
  ((∃ w', mint_random_nft creator to env w = Fail PoolExhausted w')
   ↔ get_available_count w creator = 0).
Proof.
  intros Hd Ha Hwf%pool_state_invariant_wf.
  pose proof (pool_wf_count_nonneg d Hwf) as Hnn.
  unfold get_available_count. rewrite Hd. split; split.
  - intros [w' Hfail]. destruct (decide (0 < available_count d)) as [Hc|Hc]; [|lia].
    pose proof (mint_random_nft_secure_spec creator to env w d Hd Ha Hwf Hc) as Hwp.
    unfold wp in Hwp. rewrite Hfail in Hwp. discriminate Hwp.
  - intros Hz. exists w. apply (secure_exhausted _ _ _ _ d); [done..|lia].
  - intros [w' Hfail]. destruct (decide (0 < available_count d)) as [Hc|Hc]; [|lia].
    pose proof (mint_random_nft_spec creator to env w d Hd Ha Hwf Hc) as Hwp.
    unfold wp in Hwp. rewrite Hfail in Hwp.
    destruct Hwp as [Hwp|[Hwp|Hwp]]; discriminate Hwp.
  - intros Hz. exists w. apply (fallback_exhausted _ _ _ _ d); [done..|lia].
Qed.

(** C4: the secure strategy draws [r] in [1, N]; its loop, which has fuel
    for more than [N] iterations, stops at some step [k < N] on the first
    candidate [((r + k - 1) mod N) + 1] whose flag is clear, provided the
    pool satisfies the invariant and is not empty; and an allocation that
    returns, returns that candidate. *)
Theorem secure_scan_selects_first_clear creator to env w d :
  nft w !! creator = Some d → admin d = creator → pool_state_invariant d →
  0 < available_count d →
  let r := u64_range 1 (MAX_METADATA_ID + 1) (random_bits env) in
  1 ≤ r ≤ MAX_METADATA_ID ∧
  ∃ k id,
    0 ≤ k < MAX_METADATA_ID ∧
    id = (r + k - 1) mod MAX_METADATA_ID + 1 ∧
    borrow (used_metadata_ids d) (id - 1) = Some false ∧
    (∀ j, 0 ≤ j < k →
          borrow (used_metadata_ids d) ((r + j - 1) mod MAX_METADATA_ID + 1 - 1)
          = Some true) ∧
    scan_loop (Z.to_nat MAX_METADATA_ID + 1) (used_metadata_ids d) r 0 0 = inr id ∧
    ∀ id' w', mint_random_nft_secure creator to env w = Ok id' w' → id' = id.
Proof.
  intros Hd Ha Hwf%pool_state_invariant_wf Hc r.
  pose proof MAX_METADATA_ID_pos as Hpos.
  split; [pose proof (u64_range_bounds 1 (MAX_METADATA_ID + 1) (random_bits env)); lia|].
  destruct (first_clear_finds d r Hwf Hc) as [id Hfc].
  pose proof Hwf as (Hlen & _).
  destruct (first_clear_Some _ _ _ _ _ Hfc) as (k & Hk & Hid & Hfree & Hfirst).
  exists k, id. split; [lia|]. split; [done|]. split; [done|]. split; [|split].
  - intros j Hj. fold (candidate r j).
    destruct (borrow_used_in_range _ _ Hlen (candidate_range r j)) as [[|] Hb]; [done|].
    by destruct (Hfirst j ltac:(lia)).
  - rewrite (scan_loop_first_clear _ r 0) by (done || lia).
    replace (Z.to_nat (MAX_METADATA_ID - 0)) with (Z.to_nat MAX_METADATA_ID) by lia.
    by rewrite Hfc.
  - intros id' w' Hok.
    pose proof (mint_random_nft_secure_spec creator to env w d Hd Ha Hwf Hc) as Hwp.
    unfold wp in Hwp. rewrite Hok in Hwp. destruct Hwp as [Hfc' _].
    fold r in Hfc'. congruence.
Qed.

(** C5: on a pool that satisfies the invariant, an allocation by the
    fallback strategy that returns has selected the identifier at the index
    [hash(caller, time) mod available_count] of the available vector and has
    removed that index by moving the last element into it and shrinking the
    vector by one.  Two such allocations with the same caller, the same time
    and the same pool select the same identifier, whatever else differs. *)
Theorem fallback_selects_hashed_index creator to env w d id w' :
  nft w !! creator = Some d → pool_state_invariant d →
  mint_random_nft creator to env w = Ok id w' →
  let i := Z.to_nat (fallback_index creator (now env) (available_count d)) in
  (available_metadata_ids d !! i = Some id ∧
   ∃ d', nft w' !! creator = Some d' ∧
         available_metadata_ids d'
         = swap_with_last_and_shrink (available_metadata_ids d) i ∧
         length (available_metadata_ids d')
         = (length (available_metadata_ids d) - 1)%nat) ∧
  ∀ to2 env2 w2 d2 id2 w2',
    nft w2 !! creator = Some d2 → pool_of d2 = pool_of d → now env2 = now env →
    mint_random_nft creator to2 env2 w2 = Ok id2 w2' → id2 = id.
Proof.
  intros Hd Hwf%pool_state_invariant_wf Hok i.
  assert (∀ to env w d id w',
            nft w !! creator = Some d → pool_wf d →
            mint_random_nft creator to env w = Ok id w' →
            available_metadata_ids d
              !! Z.to_nat (fallback_index creator (now env) (available_count d))
            = Some id ∧
            allocates w creator
              (Z.to_nat (fallback_index creator (now env) (available_count d))) id w')
    as Hsel.
  { clear. intros to env w d id w' Hd Hwf Hok.
    destruct (decide (admin d = creator)) as [Ha|Ha];
      [|by rewrite (fallback_not_admin _ _ _ _ d) in Hok].
    destruct (decide (0 < available_count d)) as [Hc|Hc];
      [|rewrite (fallback_exhausted _ _ _ _ d) in Hok by (done || lia); done].
    pose proof (mint_random_nft_spec creator to env w d Hd Ha Hwf Hc) as Hwp.
    unfold wp in Hwp. rewrite Hok in Hwp. by destruct Hwp as (_ & Hl & Halloc). }
  destruct (Hsel _ _ _ _ _ _ Hd Hwf Hok) as [Hl Halloc]. split.
  - split; [done|].
    destruct Halloc as (d0 & d' & Hd0 & Hd' & _ & _ & _ & _ & _ & Hi & _ & Hav & _).
    assert (d0 = d) as -> by congruence.
    exists d'. split; [done|]. split; [done|].
    rewrite Hav. by eapply swap_with_last_length.
  - intros to2 env2 w2 d2 id2 w2' Hd2 Hp Hnow Hok2.
    assert (pool_wf d2) as Hwf2 by (by eapply pool_wf_pool_of).
    destruct (Hsel _ _ _ _ _ _ Hd2 Hwf2 Hok2) as [Hl2 _].
    unfold pool_of in Hp. injection Hp as _ Hav Hc _.
    rewrite Hav, Hc, Hnow in Hl2. congruence.
Qed.

(** C7: in a pool that satisfies the invariant and is not empty the scan
    of the secure strategy never ends with [metadata_id = 0]; and in any
    state in which it does, with the counter positive, the function aborts
    at the assertion that follows the loop, before any write, and returns
    no identifier. *)
Theorem secure_scan_exhaustion_unreachable_and_fatal creator to env w d :
  nft w !! creator = Some d → admin d = creator → 0 < available_count d →
  let scan :=
    scan_loop (Z.to_nat MAX_METADATA_ID + 1) (used_metadata_ids d)
      (u64_range 1 (MAX_METADATA_ID + 1) (random_bits env)) 0 0 in
  (pool_state_invariant d → ∃ id, scan = inr id ∧ 0 < id) ∧
  (scan = inr 0 →
   mint_random_nft_secure creator to env w
   = Fail (Abort (invalid_state E_COLLECTION_NOT_FOUND)) w).
Proof.
  intros Hd Ha Hc scan. split.
  - intros Hwf%pool_state_invariant_wf. pose proof Hwf as (Hlen & _).
    set (r := u64_range 1 (MAX_METADATA_ID + 1) (random_bits env)) in *.
    destruct (first_clear_finds d r Hwf Hc) as [id Hfc].
    destruct (first_clear_Some _ _ _ _ _ Hfc) as (k & _ & Hid & _).
    exists id. split.
    + unfold scan. rewrite (scan_loop_first_clear _ r 0) by (done || lia).
      replace (Z.to_nat (MAX_METADATA_ID - 0)) with (Z.to_nat MAX_METADATA_ID) by lia.
      by rewrite Hfc.
    + pose proof (candidate_range r k). lia.
  - intros Hscan. apply wp_fail_eq. unfold mint_random_nft_secure.
    apply wp_bind, wp_borrow_global; [intros d0 Hd0|congruence].
    assert (d0 = d) as -> by congruence.
    apply wp_bind, wp_assert; [intros _|intros Hf%bool_decide_eq_false; done].
    apply wp_bind, wp_assert; [intros _|intros Hf%Z.ltb_ge; lia].
    apply wp_bind, wp_ask. fold scan. rewrite Hscan.
    apply wp_bind, wp_lift_res; [intros ? [= <-]|intros ? [=]].
    apply wp_bind, wp_assert; [intros [=]|done].
Qed.

End selection.

(** ** Burning *)

Section burning.
Context `{TokenFramework} `{Hashing}.
Import velmora_nft spec.

Lemma keeps_pools_final {A} P (m : M World A) env w :
  keeps_pools P m → same_pools w (final (m env w)).
Proof.
  intros Hm. specialize (Hm env w). unfold wp in Hm.
  destruct (m env w); simpl; [done|by destruct Hm].
Qed.

Lemma get_nft_attributes_pure creator collection token_name version env w
    (Q : Z * Z → World → Prop) (E : abort → World → Prop) :
  (∀ r, Q r w) → (∀ e, E e w) →
  wp (get_nft_attributes creator collection token_name version) env w Q E.
Proof.
  intros HQ HE. unfold get_nft_attributes.
  apply wp_bind, wp_lift_opt; [intros ? _|done].
  apply wp_bind, wp_get.
  apply wp_bind, wp_lift_opt; [intros ? _|done].
  apply wp_ret, HQ.
Qed.

Lemma burn_nft_tokens owner creator collection token_name version env w w' :
  burn_nft owner creator collection token_name version env w = Ok tt w' →
  burn owner creator collection token_name version 1 (tokens w) = Some (tokens w').
Proof.
  intros Hok.
  assert (wp (burn_nft owner creator collection token_name version) env w
            (λ _ w', burn owner creator collection token_name version 1 (tokens w)
                     = Some (tokens w'))
            (λ _ _, True)) as Hwp.
  { unfold burn_nft.
    apply wp_bind, wp_lift_opt; [intros ? _|done].
    apply wp_bind, wp_token_read.
    apply wp_bind, wp_assert; [intros _|done].
    apply wp_bind, get_nft_attributes_pure; [intros [rarity skill]|done].
    apply wp_bind, wp_token_do; [intros t Ht|done].
    apply wp_bind, wp_exists_data.
    case_bool_decide.
    - apply wp_bind, wp_now_seconds. apply wp_write; [intros ? _|done]. done.
    - by apply wp_ret. }
  unfold wp in Hwp. by rewrite Hok in Hwp.
Qed.

Lemma admin_burn_nft_tokens admin_signer owner collection token_name version env w w' :
  admin_burn_nft admin_signer owner collection token_name version env w = Ok tt w' →
  burn_by_creator admin_signer owner collection token_name version 1 (tokens w)
  = Some (tokens w').
Proof.
  intros Hok.
  assert (wp (admin_burn_nft admin_signer owner collection token_name version) env w
            (λ _ w', burn_by_creator admin_signer owner collection token_name version 1
                       (tokens w) = Some (tokens w'))
            (λ _ _, True)) as Hwp.
  { unfold admin_burn_nft.
    apply wp_bind, wp_borrow_global; [intros ? _|done].
    apply wp_bind, wp_assert; [intros _|done].
    apply wp_bind, wp_lift_opt; [intros ? _|done].
    apply wp_bind, wp_token_read.
    apply wp_bind, wp_assert; [intros _|done].
    apply wp_bind, get_nft_attributes_pure; [intros [rarity skill]|done].
    apply wp_bind, wp_token_do; [intros t Ht|done].
    apply wp_bind, wp_now_seconds. apply wp_write; [intros ? _|done]. done. }
  unfold wp in Hwp. by rewrite Hok in Hwp.
Qed.

Lemma run_all_taken txs w creator id :
  pools_wf w → taken w creator id → taken (run_all txs w) creator id.
Proof.
  revert w. induction txs as [|[[signer c] env] txs IH]; intros w Hw Ht; [done|].
  simpl. apply IH; [by apply step_pools_wf|].
  eapply step_effect_taken; [by apply step_effect_holds|done..].
Qed.

(** C10: [burn_nft] and [admin_burn_nft] change no pool, in any account
    and however they end: the bitmap, the available vector, the counter
    and the admin stay as they were; when they return, the token store is
    the one the burn of the token standard produced.  No later transaction
    clears a flag that is set, and no allocation returns a flagged
    identifier again. *)
Theorem burn_leaves_pool_untouched
    signer other collection token_name version env w :
  (same_pools w (final (burn_nft signer other collection token_name version env w)) ∧
   ∀ w', burn_nft signer other collection token_name version env w = Ok tt w' →
         burn signer other collection token_name version 1 (tokens w)
         = Some (tokens w')) ∧
  (same_pools w
     (final (admin_burn_nft signer other collection token_name version env w)) ∧
   ∀ w', admin_burn_nft signer other collection token_name version env w = Ok tt w' →
         burn_by_creator signer other collection token_name version 1 (tokens w)
         = Some (tokens w')) ∧
  ∀ creator id txs,
    pools_invariant w → taken w creator id →
    taken (run_all txs w) creator id ∧ id ∉ allocated creator txs w.
Proof.
  split; [|split].
  - split; [eapply keeps_pools_final, burn_nft_keeps_pools|].
    apply burn_nft_tokens.
  - split; [eapply keeps_pools_final, admin_burn_nft_keeps_pools|].
    apply admin_burn_nft_tokens.
  - intros creator id txs Hw%pools_invariant_wf Ht. split.
    + by apply run_all_taken.
    + intros Hin. by apply (allocated_not_taken creator txs w id Hw Hin).
Qed.

End burning.

(** ** The admin check comes first *)

Section authorization.
Context `{TokenFramework} `{Hashing}.
Import velmora_nft spec.

Lemma admin_burn_nft_turned_away signer owner collection token_name version env w e :
  turned_away w signer e →
  admin_burn_nft signer owner collection token_name version env w = Fail e w.
Proof.
  intros Hta. apply wp_fail_eq. unfold admin_burn_nft.
  destruct Hta as [[Hnone ->]|(d & Hd & Ha & ->)].
  - apply wp_bind, wp_borrow_global; [congruence|done].
  - apply wp_bind, wp_borrow_global; [intros d0 Hd0|congruence].
    assert (d0 = d) as -> by congruence.
    apply wp_bind, wp_assert; [|done]. intros Ht%bool_decide_eq_true. done.
Qed.

Lemma mint_nft_turned_away signer to name description uri rarity skill env w e :
  turned_away w signer e → rarity ≤ 100 → skill ≤ 100 → validate_ipfs_uri uri = true →
  mint_nft signer to name description uri rarity skill env w = Fail e w.
Proof.
  intros Hta Hr Hs Hu. apply wp_fail_eq. unfold mint_nft.
  apply wp_bind, wp_assert; [intros _|intros Hf%Z.leb_gt; unfold MAX_RARITY in Hf; lia].
  apply wp_bind, wp_assert; [intros _|intros Hf%Z.leb_gt; unfold MAX_SKILL in Hf; lia].
  apply wp_bind, wp_assert; [intros _|congruence].
  destruct Hta as [[Hnone ->]|(d & Hd & Ha & ->)].
  - apply wp_bind, wp_borrow_global; [congruence|done].
  - apply wp_bind, wp_borrow_global; [intros d0 Hd0|congruence].
    assert (d0 = d) as -> by congruence.
    apply wp_bind, wp_assert; [|done]. intros Ht%bool_decide_eq_true. done.
Qed.

Lemma secure_turned_away signer to env w e :
  turned_away w signer e → mint_random_nft_secure signer to env w = Fail e w.
Proof.
  intros [[Hnone ->]|(d & Hd & Ha & ->)];
    [by apply secure_missing|by eapply secure_not_admin].
Qed.

Lemma fallback_turned_away signer to env w e :
  turned_away w signer e → mint_random_nft signer to env w = Fail e w.
Proof.
  intros [[Hnone ->]|(d & Hd & Ha & ->)];
    [by apply fallback_missing|by eapply fallback_not_admin].
Qed.

Lemma wp_fail_state {St A} (m : M St A) env s s0 :
  wp m env s (λ _ _, False) (λ _ s', s' = s0) → ∃ e, m env s = Fail e s0.
Proof. unfold wp. destruct (m env s); [done|]. intros ->. eauto. Qed.

Lemma mint_nft_turned_away_state signer to name description uri rarity skill env w e :
  turned_away w signer e →
  wp (mint_nft signer to name description uri rarity skill) env w
    (λ _ _, False) (λ _ w', w' = w).
Proof.
  intros Hta. unfold mint_nft.
  apply wp_bind, wp_assert; [intros _|done].
  apply wp_bind, wp_assert; [intros _|done].
  apply wp_bind, wp_assert; [intros _|done].
  destruct Hta as [[Hnone ->]|(d & Hd & Ha & ->)].
  - apply wp_bind, wp_borrow_global; [congruence|done].
  - apply wp_bind, wp_borrow_global; [intros d0 Hd0|congruence].
    assert (d0 = d) as -> by congruence.
    apply wp_bind, wp_assert; [|done]. intros Ht%bool_decide_eq_true. done.
Qed.

(** Every admin-gated entry function turns such a signer away with the
    state of the call untouched. *)
Lemma admin_gated_turned_away signer c env w e :
  admin_gated c = true → turned_away w signer e →
  ∃ e', run signer c env w = Fail e' w.
Proof.
  intros Hc Hta. apply wp_fail_state.
  destruct c; try discriminate Hc; cbn [run]; apply wp_bind.
  - unfold mint_from_ipfs_metadata.
    apply wp_bind, wp_assert; [intros _|done].
    by eapply mint_nft_turned_away_state.
  - by eapply mint_nft_turned_away_state.
  - unfold wp at 1. by rewrite (admin_burn_nft_turned_away _ _ _ _ _ _ _ e Hta).
  - unfold mint_from_metadata_id.
    apply wp_bind, wp_assert; [intros _|done].
    by eapply mint_nft_turned_away_state.
  - unfold wp at 1. by rewrite (secure_turned_away _ _ _ _ e Hta).
  - unfold wp at 1. by rewrite (fallback_turned_away _ _ _ _ e Hta).
  - unfold mint_from_bridge. by eapply mint_nft_turned_away_state.
Qed.

End authorization.

(** ** The ledger of Coins of Aura *)

Section ledger.
Import coins_of_aura spec.
Implicit Types (l : Ledger) (env : Env).

Lemma wp_ok_eq {St A} (m : M St A) env s a0 s0 :
  wp m env s (λ a s', a = a0 ∧ s' = s0) (λ _ _, False) → m env s = Ok a0 s0.
Proof. unfold wp. destruct (m env s); [|done]. by intros [-> ->]. Qed.

Lemma wp_get_metadata env l (Q : unit → Ledger → Prop) E :
  (∀ o, metadata_owner l = Some o → Q tt l) →
  (metadata_owner l = None → E FrameworkAbort l) →
  wp get_metadata env l Q E.
Proof.
  intros HQ HE. unfold get_metadata. apply wp_bind, wp_get.
  destruct (metadata_owner l); [apply wp_ret|apply wp_throw]; eauto.
Qed.

Lemma wp_authorized_borrow_refs admin env l (Q : unit → Ledger → Prop) E :
  (metadata_owner l = Some admin → Q tt l) →
  (metadata_owner l ≠ Some admin → E (Abort (permission_denied E_NOT_OWNER)) l) →
  wp (authorized_borrow_refs admin) env l Q E.
Proof.
  intros HQ HE. unfold authorized_borrow_refs. apply wp_bind, wp_get.
  apply wp_assert; [intros Ht%bool_decide_eq_true|intros Hf%bool_decide_eq_false]; auto.
Qed.

Lemma wp_ensure_primary_store_exists owner env l (Q : unit → Ledger → Prop) E :
  (∀ b, stores l !! owner = Some b → Q tt l) →
  (stores l !! owner = None → Q tt (set_stores (<[owner := 0]> (stores l)) l)) →
  wp (ensure_primary_store_exists owner) env l Q E.
Proof.
  intros HQ HQ'. unfold ensure_primary_store_exists. apply wp_bind, wp_get.
  destruct (stores l !! owner); [apply wp_ret|apply wp_put]; eauto.
Qed.

Lemma wp_primary_store owner env l (Q : unit → Ledger → Prop) E :
  (∀ b, stores l !! owner = Some b → Q tt l) →
  (stores l !! owner = None → E FrameworkAbort l) →
  wp (primary_store owner) env l Q E.
Proof.
  intros HQ HE. unfold primary_store. apply wp_bind, wp_get.
  destruct (stores l !! owner); [apply wp_ret|apply wp_throw]; eauto.
Qed.

Lemma wp_store_balance owner env l (Q : Z → Ledger → Prop) E :
  (∀ b, stores l !! owner = Some b → Q b l) →
  (stores l !! owner = None → E FrameworkAbort l) →
  wp (store_balance owner) env l Q E.
Proof.
  intros HQ HE. unfold store_balance. apply wp_bind, wp_get.
  apply wp_lift_opt; auto.
Qed.

Lemma wp_fa_mint amount env l (Q : unit → Ledger → Prop) E :
  (supply l + amount ≤ MAX_U128 → Q tt (set_supply (supply l + amount) l)) →
  (MAX_U128 < supply l + amount → E FrameworkAbort l) →
  wp (fa_mint amount) env l Q E.
Proof.
  intros HQ HE. unfold fa_mint. apply wp_bind, wp_get.
  destruct (MAX_U128 <? supply l + amount) eqn:Hlt.
  - apply wp_throw, HE. lia.
  - apply wp_put, HQ. lia.
Qed.

Lemma wp_deposit_with_ref owner amount env l (Q : unit → Ledger → Prop) E :
  (∀ b, stores l !! owner = Some b → b + amount ≤ MAX_U64 →
        Q tt (set_stores (<[owner := b + amount]> (stores l)) l)) →
  (∀ b, stores l !! owner = Some b → MAX_U64 < b + amount → E ArithmeticError l) →
  (stores l !! owner = None → E FrameworkAbort l) →
  wp (deposit_with_ref owner amount) env l Q E.
Proof.
  intros HQ HE HE'. unfold deposit_with_ref. apply wp_bind, wp_get.
  apply wp_bind, wp_lift_opt; [intros b Hb|done].
  destruct (MAX_U64 <? b + amount) eqn:Hlt.
  - apply wp_throw, (HE b); [done|lia].
  - apply wp_put, HQ; [done|lia].
Qed.

Lemma wp_withdraw_with_ref owner amount env l (Q : unit → Ledger → Prop) E :
  (∀ b, stores l !! owner = Some b → amount ≤ b →
        Q tt (set_stores (<[owner := b - amount]> (stores l)) l)) →
  E FrameworkAbort l →
  wp (withdraw_with_ref owner amount) env l Q E.
Proof.
  intros HQ HE. unfold withdraw_with_ref. apply wp_bind, wp_get.
  apply wp_bind, wp_lift_opt; [intros b Hb|done].
  destruct (b <? amount) eqn:Hlt.
  - apply wp_throw, HE.
  - apply wp_put, HQ; [done|lia].
Qed.

Lemma wp_fa_burn amount env l (Q : unit → Ledger → Prop) E :
  (amount ≤ supply l → Q tt (set_supply (supply l - amount) l)) →
  E FrameworkAbort l →
  wp (fa_burn amount) env l Q E.
Proof.
  intros HQ HE. unfold fa_burn. apply wp_bind, wp_get.
  destruct (supply l <? amount) eqn:Hlt.
  - apply wp_throw, HE.
  - apply wp_put, HQ. lia.
Qed.

Lemma wp_emit_event e env l (Q : unit → Ledger → Prop) E :
  Q tt (emit e l) → wp (emit_event e) env l Q E.
Proof. intros HQ. unfold emit_event. apply wp_bind, wp_get, wp_put, HQ. Qed.

Lemma wp_coin_now_seconds env l (Q : Z → Ledger → Prop) E :
  Q (now env) l → wp now_seconds env l Q E.
Proof. intros HQ. unfold now_seconds. apply wp_bind, wp_ask, wp_ret, HQ. Qed.

Lemma mint_not_owner admin to amount env l owner :
  metadata_owner l = Some owner → admin ≠ owner →
  mint admin to amount env l = Fail LedgerPermissionDenied l.
Proof.
  intros Ho Hne. apply wp_fail_eq. unfold mint.
  apply wp_bind, wp_get_metadata; [intros ? _|congruence].
  apply wp_bind, wp_authorized_borrow_refs; [congruence|done].
Qed.

Lemma burn_not_owner admin amount env l owner :
  metadata_owner l = Some owner → admin ≠ owner →
  burn admin amount env l = Fail LedgerPermissionDenied l.
Proof.
  intros Ho Hne. apply wp_fail_eq. unfold burn.
  apply wp_bind, wp_get_metadata; [intros ? _|congruence].
  apply wp_bind, wp_authorized_borrow_refs; [congruence|done].
Qed.

Lemma reward_new_player_not_owner admin player env l owner :
  metadata_owner l = Some owner → admin ≠ owner →
  reward_new_player admin player env l = Fail LedgerPermissionDenied l.
Proof.
  intros Ho Hne. apply wp_fail_eq. unfold reward_new_player.
  apply wp_bind, wp_get_metadata; [intros ? _|congruence].
  apply wp_bind, wp_authorized_borrow_refs; [congruence|done].
Qed.

(** The reward for a player whose store exists and is empty. *)
Lemma reward_new_player_zero_balance admin player env l :
  metadata_owner l = Some admin → stores l !! player = Some 0 →
  supply l + INITIAL_PLAYER_AMOUNT ≤ MAX_U128 →
  reward_new_player admin player env l
  = Ok tt {| metadata_owner := metadata_owner l;
             stores := <[player := INITIAL_PLAYER_AMOUNT]> (stores l);
             supply := supply l + INITIAL_PLAYER_AMOUNT;
             events := events l
                       ++ [PlayerLoginReward player INITIAL_PLAYER_AMOUNT (now env)] |}.
Proof.
  intros Ho Hs Hsup. apply wp_ok_eq. unfold reward_new_player.
  apply wp_bind, wp_get_metadata; [intros ? _|congruence].
  apply wp_bind, wp_authorized_borrow_refs; [intros _|congruence].
  apply wp_bind, wp_primary_store; [intros ? _|congruence].
  apply wp_bind, wp_store_balance; [intros bal Hbal|congruence].
  assert (bal = 0) as -> by congruence. cbn [Z.eqb].
  apply wp_bind, wp_ensure_primary_store_exists; [intros ? _|congruence].
  apply wp_bind, wp_fa_mint; [intros _|lia].
  apply wp_bind, wp_deposit_with_ref; cbn [set_supply stores];
    [intros cur Hcur _|intros cur Hcur Hlt|congruence].
  - assert (cur = 0) as -> by congruence.
    apply wp_bind, wp_coin_now_seconds, wp_emit_event. done.
  - assert (cur = 0) as -> by congruence. unfold INITIAL_PLAYER_AMOUNT, MAX_U64 in Hlt.
    lia.
Qed.

(** A player whose store holds something is left alone. *)
Lemma reward_new_player_positive_balance admin player env l b :
  metadata_owner l = Some admin → stores l !! player = Some b → b ≠ 0 →
  reward_new_player admin player env l = Ok tt l.
Proof.
  intros Ho Hs Hb. apply wp_ok_eq. unfold reward_new_player.
  apply wp_bind, wp_get_metadata; [intros ? _|congruence].
  apply wp_bind, wp_authorized_borrow_refs; [intros _|congruence].
  apply wp_bind, wp_primary_store; [intros ? _|congruence].
  apply wp_bind, wp_store_balance; [intros b' Hb'|congruence].
  assert (b' = b) as -> by congruence.
  destruct (b =? 0) eqn:Heq; [lia|]. by apply wp_ret.
Qed.

(** A player without a store has balance zero and is not rewarded: the
    lookup of the store aborts. *)
Lemma reward_new_player_no_store admin player env l :
  metadata_owner l = Some admin → stores l !! player = None →
  balance l player = 0 ∧
  reward_new_player admin player env l = Fail FrameworkAbort l.
Proof.
  intros Ho Hs. split; [unfold balance; by rewrite Hs|].
  apply wp_fail_eq. unfold reward_new_player.
  apply wp_bind, wp_get_metadata; [intros ? _|congruence].
  apply wp_bind, wp_authorized_borrow_refs; [intros _|congruence].
  apply wp_bind, wp_primary_store; [congruence|done].
Qed.

End ledger.

Section admin_first.
Context `{TokenFramework} `{Hashing}.
Import velmora_nft spec.

(** C9: the admin check of every admin-gated function is evaluated before
    the first write.  On an initialized ledger, [mint], [burn] and
    [reward_new_player] called by anyone but the owner of the asset abort
    with the permission-denied code, and the state at the abort is the state
    of the call: no balance, supply or event has changed.  In the NFT
    module a signer that is not the admin of a collection is turned away by
    [mint_random_nft_secure], [mint_random_nft], [admin_burn_nft] and
    [mint_nft] with the state of the call untouched; [mint_nft] may abort
    on its attribute or URI checks first, which write nothing either.  The
    same holds for the entry functions that end in [mint_nft]. *)
Theorem admin_check_precedes_every_write :
  (∀ l owner caller env,
     coins_of_aura.metadata_owner l = Some owner → caller ≠ owner →
     (∀ to amount,
        coins_of_aura.mint caller to amount env l = Fail LedgerPermissionDenied l) ∧
     (∀ amount, coins_of_aura.burn caller amount env l = Fail LedgerPermissionDenied l) ∧
     (∀ player,
        coins_of_aura.reward_new_player caller player env l
        = Fail LedgerPermissionDenied l)) ∧
  (∀ w caller e env,
     turned_away w caller e →
     (∀ to, mint_random_nft_secure caller to env w = Fail e w) ∧
     (∀ to, mint_random_nft caller to env w = Fail e w) ∧
     (∀ owner collection token_name version,
        admin_burn_nft caller owner collection token_name version env w = Fail e w) ∧
     (∀ to name description uri rarity skill,
        ∃ e', (e' = e ∨ InvalidAttribute e' ∨ e' = InvalidURI) ∧
              mint_nft caller to name description uri rarity skill env w = Fail e' w) ∧
     (∀ c, admin_gated c = true → ∃ e', run caller c env w = Fail e' w)).
Proof.
  split.
  - intros l owner caller env Ho Hne. split; [|split]; intros.
    + by eapply mint_not_owner.
    + by eapply burn_not_owner.
    + by eapply reward_new_player_not_owner.
  - intros w caller e env Hta. split; [|split; [|split; [|split]]]; intros.
    5:{ by eapply admin_gated_turned_away. }
    + by apply secure_turned_away.
    + by apply fallback_turned_away.
    + by apply admin_burn_nft_turned_away.
    + destruct (decide (100 < rarity)) as [Hr|Hr].
      { eexists. split; [right; left; left; reflexivity|].
        by apply mint_nft_invalid_rarity. }
      destruct (decide (100 < skill)) as [Hs|Hs].
      { eexists. split; [right; left; right; reflexivity|].
        apply mint_nft_invalid_skill; lia. }
      destruct (validate_ipfs_uri uri) eqn:Hu.
      * exists e. split; [by left|]. apply mint_nft_turned_away; (done || lia).
      * exists InvalidURI. split; [by right; right|].
        apply mint_nft_invalid_uri; (done || lia).
Qed.

End admin_first.

(** ** The scenario *)

Section outcomes.
Import spec.

Lemma returned_Ok {St A} (o : outcome St A) a : returned o = Some a → o = Ok a (final o).
Proof. destruct o; simpl; [by intros [= ->]|discriminate]. Qed.

Lemma pair_fst {A B} (x : A * B) a : x.1 = a → x = (a, x.2).
Proof. destruct x. simpl. by intros ->. Qed.

End outcomes.

Section scenario_facts.
Import velmora_nft spec scenario.
#[local] Existing Instance reference.simple_tokens.
#[local] Existing Instance reference.toy_hashing.

Lemma genesis_invariant : pools_invariant genesis.
Proof. intros a d Hd. unfold genesis in Hd. cbn [nft] in Hd. by rewrite lookup_empty in Hd. Qed.

Lemma fresh_pool_invariant a : pool_state_invariant (fresh_pool a).
Proof. apply pool_state_invariant_wf, initial_pool_wf. Qed.

Lemma opened_lookup : nft opened !! creator = Some (fresh_pool creator).
Proof. unfold opened. cbn [nft]. apply lookup_singleton_eq. Qed.

Lemma opened_invariant : pools_invariant opened.
Proof.
  intros a d. unfold opened. cbn [nft].
  intros [-> <-]%lookup_singleton_Some. apply fresh_pool_invariant.
Qed.

Lemma count_false_replicate_true n : count_false (replicate n true) = 0%nat.
Proof. unfold count_false. induction n as [|n IH]; [reflexivity|]. simpl. exact IH. Qed.

Lemma drained_pool_invariant a : pool_state_invariant (drained_pool a).
Proof.
  unfold pool_state_invariant, drained_pool.
  cbn [used_metadata_ids available_metadata_ids available_count].
  split; [by rewrite length_replicate|]. split; [reflexivity|].
  split; [by rewrite count_false_replicate_true|].
  intros id Hr. right. split; [apply not_elem_of_nil|].
  rewrite borrow_lookup by lia. apply lookup_replicate_2. lia.
Qed.

Lemma drained_lookup : nft drained !! creator = Some (drained_pool creator).
Proof. unfold drained. cbn [nft]. apply lookup_singleton_eq. Qed.

Lemma broken_lookup : nft broken !! creator = Some (broken_pool creator).
Proof. unfold broken. cbn [nft]. apply lookup_singleton_eq. Qed.

(** The transactions of the scenario allocate four identifiers. *)
Example scenario_allocations :
  allocated creator transactions genesis = [801; 778; 779; 252] ∧
  get_available_count (run_all transactions genesis) creator = 1196.
Proof. split; vm_compute; reflexivity. Qed.

(** A pool of three identifiers cannot be set up in the module, whose
    capacity is fixed; the last allocation of a full pool behaves as the
    scenario of the specification expects from the fourth call. *)
Example drained_pool_is_exhausted :
  mint_random_nft creator player env0 drained = Fail PoolExhausted drained ∧
  mint_random_nft_secure creator player env0 drained = Fail PoolExhausted drained.
Proof.
  split.
  - apply (fallback_exhausted _ _ _ _ (drained_pool creator)); [apply drained_lookup|done..].
  - apply (secure_exhausted _ _ _ _ (drained_pool creator)); [apply drained_lookup|done..].
Qed.

End scenario_facts.

(** ** The reward of a new player *)

Section reward.
Import coins_of_aura spec scenario.

(** C6: the reward is paid to a player whose store exists and is empty,
    and once only; a player who has never held CoA has no store, reads as
    balance zero through [balance], and makes [reward_new_player] abort in
    [primary_store] instead of being rewarded. *)
Theorem reward_new_player_aborts_without_store :
  initialize creator creator env0 empty_ledger = Ok tt ledger0 ∧
  balance ledger0 player = 0 ∧
  reward_new_player creator player env0 ledger0 = Fail FrameworkAbort ledger0 ∧
  transaction (reward_new_player creator player) env0 ledger0
  = (inl FrameworkAbort, ledger0).
Proof.
  destruct (reward_new_player_no_store creator player env0 ledger0) as [Hb Hf];
    [reflexivity..|].
  split; [reflexivity|]. split; [done|]. split; [done|].
  unfold transaction. by rewrite Hf.
Qed.

(** With a store in place the function does what its documentation says:
    the first call pays the reward, the second changes nothing. *)
Example reward_new_player_twice :
  ∃ l1 l2,
    reward_new_player creator player env0 ledger1 = Ok tt l1 ∧
    reward_new_player creator player env1 l1 = Ok tt l2 ∧
    balance l1 player = INITIAL_PLAYER_AMOUNT ∧ l2 = l1 ∧
    INITIAL_PLAYER_AMOUNT = 650 * 10 ^ DECIMALS ∧
    events l1 = [PlayerLoginReward player INITIAL_PLAYER_AMOUNT (now env0)].
Proof.
  eexists _, _. split; [|split; [|split; [|split; [|split]]]].
  - apply reward_new_player_zero_balance; [reflexivity|reflexivity|].
    vm_compute. discriminate.
  - eapply reward_new_player_positive_balance; [reflexivity| |].
    + cbn [stores]. apply lookup_insert_eq.
    + discriminate.
  - unfold balance. cbn [stores]. by rewrite lookup_insert_eq.
  - reflexivity.
  - reflexivity.
  - reflexivity.
Qed.

End reward.

(** ** The statements at concrete inputs *)

Section witnesses.
Import velmora_nft spec scenario.
#[local] Existing Instance reference.simple_tokens.
#[local] Existing Instance reference.toy_hashing.

Lemma allocated_identifiers_distinct_and_used_witness :
  pools_invariant genesis ∧
  NoDup (allocated creator transactions genesis) ∧
  is_metadata_id_used
    (step creator (MintRandomNft player) env0
       (run_all [(creator, Initialize, env0)] genesis)).2 creator 801
  = inr true.
Proof.
  split; [exact genesis_invariant|]. split.
  - exact (proj1 (allocated_identifiers_distinct_and_used
                    creator transactions genesis genesis_invariant)).
  - apply (proj2 (allocated_identifiers_distinct_and_used
                    creator [(creator, Initialize, env0)] genesis genesis_invariant)
             player env0).
    right. apply pair_fst. vm_compute. reflexivity.
Defined.

Lemma pool_invariant_established_and_preserved_witness :
  (∃ d, initialize creator env0 genesis
        = Ok tt {| nft := <[creator := d]> (nft genesis);
                   tokens := reference.empty_store |} ∧
        pool_state_invariant d ∧ available_count d = MAX_METADATA_ID) ∧
  pools_invariant opened ∧
  pools_invariant (step creator (MintRandomNft player) env0 opened).2.
Proof.
  split.
  - exact (proj1 (pool_invariant_established_and_preserved
                    creator Initialize env0 genesis)
             reference.empty_store eq_refl eq_refl).
  - split; [exact opened_invariant|].
    exact (proj2 (pool_invariant_established_and_preserved
                    creator (MintRandomNft player) env0 opened) opened_invariant).
Defined.

Lemma allocation_exhausted_iff_count_zero_witness :
  (get_available_count opened creator = 1200 ∧
   ¬ ∃ w', mint_random_nft creator player env0 opened = Fail PoolExhausted w') ∧
  (get_available_count drained creator = 0 ∧
   ∃ w', mint_random_nft_secure creator player env0 drained = Fail PoolExhausted w').
Proof.
  split.
  - split; [reflexivity|]. intros Hfail.
    pose proof (proj1 (proj2 (allocation_exhausted_iff_count_zero
                                creator player env0 opened (fresh_pool creator)
                                opened_lookup eq_refl (fresh_pool_invariant creator)))
                  Hfail) as Hzero.
    vm_compute in Hzero. discriminate Hzero.
  - split; [reflexivity|].
    apply (proj1 (allocation_exhausted_iff_count_zero
                    creator player env0 drained (drained_pool creator)
                    drained_lookup eq_refl (drained_pool_invariant creator))).
    reflexivity.
Defined.

Lemma secure_scan_selects_first_clear_witness :
  ∃ k id,
    0 ≤ k < MAX_METADATA_ID ∧
    id = (u64_range 1 (MAX_METADATA_ID + 1) (random_bits env1) + k - 1)
           mod MAX_METADATA_ID + 1 ∧
    scan_loop (Z.to_nat MAX_METADATA_ID + 1) (used_metadata_ids (fresh_pool creator))
      (u64_range 1 (MAX_METADATA_ID + 1) (random_bits env1)) 0 0 = inr id.
Proof.
  destruct (secure_scan_selects_first_clear creator player env1 opened
              (fresh_pool creator) opened_lookup eq_refl
              (fresh_pool_invariant creator) eq_refl)
    as (_ & k & id & Hk & Hid & _ & _ & Hscan & _).
  exists k, id. split; [exact Hk|]. split; [exact Hid|exact Hscan].
Defined.

Lemma fallback_selects_hashed_index_witness :
  returned (mint_random_nft creator player env0 opened) = Some 801 ∧
  available_metadata_ids (fresh_pool creator)
    !! Z.to_nat (fallback_index creator (now env0)
                   (available_count (fresh_pool creator)))
  = Some 801.
Proof.
  assert (returned (mint_random_nft creator player env0 opened) = Some 801) as Hok
    by (vm_compute; reflexivity).
  split; [exact Hok|].
  exact (proj1 (proj1 (fallback_selects_hashed_index creator player env0 opened
                         (fresh_pool creator) 801 _ opened_lookup
                         (fresh_pool_invariant creator) (returned_Ok _ _ Hok)))).
Defined.

Lemma secure_scan_exhaustion_unreachable_and_fatal_witness :
  (∃ id,
     scan_loop (Z.to_nat MAX_METADATA_ID + 1) (used_metadata_ids (fresh_pool creator))
       (u64_range 1 (MAX_METADATA_ID + 1) (random_bits env0)) 0 0 = inr id ∧
     0 < id) ∧
  mint_random_nft_secure creator player env0 broken
  = Fail (Abort (invalid_state E_COLLECTION_NOT_FOUND)) broken.
Proof.
  split.
  - exact (proj1 (secure_scan_exhaustion_unreachable_and_fatal
                    creator player env0 opened (fresh_pool creator)
                    opened_lookup eq_refl eq_refl)
             (fresh_pool_invariant creator)).
  - apply (proj2 (secure_scan_exhaustion_unreachable_and_fatal
                    creator player env0 broken (broken_pool creator)
                    broken_lookup eq_refl eq_refl)).
    vm_compute. reflexivity.
Defined.

Lemma admin_check_precedes_every_write_witness :
  coins_of_aura.mint stranger player 100 env0 ledger0
  = Fail LedgerPermissionDenied ledger0 ∧
  coins_of_aura.burn stranger 100 env0 ledger0 = Fail LedgerPermissionDenied ledger0 ∧
  mint_random_nft stranger player env0 opened = Fail MissingResource opened ∧
  admin_burn_nft stranger player COLLECTION_NAME "Aura Eye #1" 0 env0 opened
  = Fail MissingResource opened.
Proof.
  assert (turned_away opened stranger MissingResource) as Hta.
  { left. split; [|reflexivity]. unfold opened. cbn [nft].
    apply lookup_singleton_ne. discriminate. }
  assert (stranger ≠ creator) as Hne by discriminate.
  pose proof (proj1 admin_check_precedes_every_write
                ledger0 creator stranger env0 eq_refl Hne) as (Hmint & Hburn & _).
  pose proof (proj2 admin_check_precedes_every_write
                opened stranger MissingResource env0 Hta) as (_ & Hfb & Hab & _ & _).
  split; [apply Hmint|]. split; [apply Hburn|]. split; [apply Hfb|apply Hab].
Defined.

Lemma burn_leaves_pool_untouched_witness :
  let w := run_all [(creator, Initialize, env0); (creator, MintRandomNft player, env0)]
             genesis in
  taken w creator 801 ∧
  taken (run_all [(player, BurnNft creator COLLECTION_NAME "Aura Eye #801" 0, env1);
                  (creator, MintRandomNft player, env0)] w) creator 801 ∧
  801 ∉ allocated creator
          [(player, BurnNft creator COLLECTION_NAME "Aura Eye #801" 0, env1);
           (creator, MintRandomNft player, env0)] w.
Proof.
  intros w.
  assert (pools_invariant w) as Hw.
  { apply pools_invariant_wf, run_all_pools_wf, pools_invariant_wf, genesis_invariant. }
  assert (taken w creator 801) as Ht.
  { destruct (nft w !! creator) as [d|] eqn:Hd; [|vm_compute in Hd; discriminate Hd].
    exists d. split; [exact Hd|].
    assert (default (fresh_pool creator) (nft w !! creator) = d) as <-
      by (by rewrite Hd).
    vm_compute. reflexivity. }
  split; [exact Ht|].
  exact (proj2 (proj2 (burn_leaves_pool_untouched
                         creator creator COLLECTION_NAME "Aura Eye #801" 0 env1 w))
           creator 801 _ Hw Ht).
Defined.

End witnesses.

(** * Further properties of the NFT module *)

(** ** Decimal names *)

Section decimal_names.
Context `{TokenFramework} `{Hashing}.
Import velmora_nft spec names_spec.






End decimal_names.

(** ** The views of the pool *)

Section pool_views.
Context `{TokenFramework} `{Hashing}.
Import velmora_nft spec names_spec.

Lemma views_same_pools w w' creator id :
  same_pools w w' →
  is_metadata_id_used w' creator id = is_metadata_id_used w creator id ∧
  get_available_count w' creator = get_available_count w creator.
Proof.
  intros Hs. specialize (Hs creator). unfold is_metadata_id_used, get_available_count.
  destruct (nft w !! creator) as [d|], (nft w' !! creator) as [d'|];
    simpl in Hs; try discriminate; [|done].
  unfold pool_of in Hs. injection Hs as Hu _ Hc _. by rewrite Hu, Hc.
Qed.

(** X2: on a pool that satisfies the invariant, [is_metadata_id_used]
    never aborts and answers [false] exactly for the identifiers in the
    available vector; for an account without a pool it answers [true]. *)
Theorem is_metadata_id_used_reflects_available w creator d id :
  nft w !! creator = Some d → pool_state_invariant d → 0 ≤ id →
  (∃ b, is_metadata_id_used w creator id = inr b) ∧
  (is_metadata_id_used w creator id = inr false ↔ id ∈ available_metadata_ids d) ∧
  (∀ w0 other, nft w0 !! other = None → is_metadata_id_used w0 other id = inr true).
Proof.
  intros Hd Hwf%pool_state_invariant_wf Hid.
  pose proof Hwf as (Hlen & _ & _ & Hmem).
  assert (MAX_METADATA_ID = 1200) as HN by reflexivity.
  split; [|split].
  - unfold is_metadata_id_used. rewrite Hd.
    destruct (id =? 0) eqn:Hz0; [eauto|]. destruct (MAX_METADATA_ID <? id) eqn:Hz1; [eauto|].
    cbn [orb]. apply Z.eqb_neq in Hz0. apply Z.ltb_ge in Hz1.
    destruct (borrow_used_in_range (used_metadata_ids d) id Hlen ltac:(lia)) as [b ->].
    eauto.
  - unfold is_metadata_id_used. rewrite Hd, Hmem.
    destruct (id =? 0) eqn:Hz0.
    { apply Z.eqb_eq in Hz0. split; [discriminate|lia]. }
    destruct (MAX_METADATA_ID <? id) eqn:Hz1.
    { apply Z.ltb_lt in Hz1. split; [discriminate|lia]. }
    cbn [orb]. apply Z.eqb_neq in Hz0. apply Z.ltb_ge in Hz1.
    destruct (borrow_used_in_range (used_metadata_ids d) id Hlen ltac:(lia)) as [b Hb].
    rewrite Hb. split.
    + intros [= ->]. split; [lia|done].
    + intros [_ [= ->]]. done.
  - intros w0 other Hnone. unfold is_metadata_id_used. by rewrite Hnone.
Qed.

Lemma step_effect_count signer r w w' creator d :
  step_effect signer r w w' → nft w !! creator = Some d →
  ∃ d', nft w' !! creator = Some d' ∧
        available_count d'
        = available_count d
          - match r with
            | inr (Some _) => if bool_decide (signer = creator) then 1 else 0
            | _ => 0
            end.
Proof.
  intros [[Hs Hno]|[(i & id & -> & Ha)|(Hnone & -> & d0 & _ & _ & Hnft)]] Hd.
  - destruct (same_pools_lookup w w' creator d Hs Hd) as (d' & Hd' & Hp).
    exists d'. split; [done|]. unfold pool_of in Hp. injection Hp as _ _ -> _.
    destruct r as [e|[id|]]; [lia| |lia]. by destruct (Hno id).
  - destruct Ha as (x & x' & Hx & Hx' & _ & _ & _ & _ & _ & _ & _ & _ & Hc & Hother).
    destruct (decide (signer = creator)) as [->|Hne].
    + assert (x = d) as -> by congruence. exists x'. split; [done|].
      rewrite bool_decide_eq_true_2 by done. done.
    + specialize (Hother creator ltac:(done)). rewrite Hd in Hother.
      destruct (nft w' !! creator) as [d'|] eqn:Hd'; [|discriminate].
      exists d'. split; [done|]. simpl in Hother. unfold pool_of in Hother.
      injection Hother as _ _ -> _.
      rewrite bool_decide_eq_false_2 by done. lia.
  - exists d. rewrite Hnft. split; [|lia].
    rewrite lookup_insert_ne; [done|]. intros <-. congruence.
Qed.

Lemma allocated_count creator txs w d :
  pools_wf w → nft w !! creator = Some d →
  get_available_count (run_all txs w) creator
  = available_count d - Z.of_nat (length (allocated creator txs w)).
Proof.
  revert w d. induction txs as [|[[signer c] env] txs IH]; intros w d Hw Hd.
  - simpl. unfold get_available_count. rewrite Hd. lia.
  - cbn [run_all allocated].
    pose proof (step_effect_holds signer c env w Hw) as Heff.
    pose proof (step_pools_wf signer c env w Hw) as Hw'.
    destruct (step_effect_count _ _ _ _ creator d Heff Hd) as (d' & Hd' & Hc).
    rewrite (IH _ d' Hw' Hd'), Hc.
    destruct (step signer c env w) as [r w']. cbn [fst snd] in *.
    destruct r as [e|[id|]]; [lia| |lia].
    case_bool_decide as Hsig; [cbn [length]; lia|lia].
Qed.

Lemma allocated_in_range creator txs w id :
  pools_wf w → id ∈ allocated creator txs w → 1 ≤ id ≤ MAX_METADATA_ID.
Proof.
  revert w. induction txs as [|[[signer c] env] txs IH]; intros w Hw; simpl.
  - by intros ?%elem_of_nil.
  - pose proof (step_effect_holds signer c env w Hw) as Heff.
    pose proof (step_pools_wf signer c env w Hw) as Hw'.
    destruct (step signer c env w) as [r w'] eqn:Hstep. simpl in *.
    destruct r as [e|[id'|]]; [by apply IH| |by apply IH].
    case_bool_decide as Hsig; [|by apply IH]. subst signer.
    intros [->|Hin]%elem_of_cons; [|by apply (IH w')].
    destruct Heff as [[_ Hno]|[(i & id & [= <-] & Ha)|(_ & [=] & _)]];
      [by destruct (Hno id')|].
    by destruct Ha as (? & ? & _ & _ & _ & _ & _ & Hr & _).
Qed.

(** X3: along any transactions, the counter of a pool drops by exactly
    the number of identifiers its allocations returned; these identifiers
    all come from the vector that was available at the start, so a pool
    never hands out more than it counted. *)
Theorem available_count_tracks_allocations creator txs w d :
  nft w !! creator = Some d → pools_invariant w →
  get_available_count (run_all txs w) creator
  = get_available_count w creator - Z.of_nat (length (allocated creator txs w)) ∧
  (∀ id, id ∈ allocated creator txs w → id ∈ available_metadata_ids d) ∧
  Z.of_nat (length (allocated creator txs w)) ≤ get_available_count w creator.
Proof.
  intros Hd Hw%pools_invariant_wf.
  pose proof (allocated_count creator txs w d Hw Hd) as Hcount.
  assert (get_available_count w creator = available_count d) as Hget
    by (unfold get_available_count; by rewrite Hd).
  split; [by rewrite Hget|]. split.
  - intros id Hin. pose proof (Hw _ _ Hd) as (Hlen & _ & _ & Hmem). apply Hmem.
    pose proof (allocated_in_range creator txs w id Hw Hin) as Hr. split; [done|].
    destruct (borrow_used_in_range _ id Hlen Hr) as [[|] Hb]; [|done].
    exfalso. apply (allocated_not_taken creator txs w id Hw Hin). by exists d.
  - pose proof (run_all_pools_wf txs w Hw) as Hw'.
    rewrite Hget. revert Hcount. unfold get_available_count.
    destruct (nft (run_all txs w) !! creator) as [d'|] eqn:Hd'.
    + pose proof (pool_wf_count_nonneg d' (Hw' _ _ Hd')). lia.
    + lia.
Qed.

Lemma pool_neutral_same_pools signer c env w :
  pool_neutral c = true → same_pools w (step signer c env w).2.
Proof.
  intros Hc. unfold step.
  destruct c; try discriminate Hc; cbn [run];
    (eapply transaction_frame; first
       [ apply mint_from_ipfs_metadata_keeps_pools
       | apply mint_nft_keeps_pools
       | apply transfer_nft_keeps_pools
       | apply burn_nft_keeps_pools
       | apply admin_burn_nft_keeps_pools
       | apply mint_from_metadata_id_keeps_pools
       | apply mint_from_bridge_keeps_pools ]).
Qed.

(** X4: the entry functions that mint with given attributes or a given
    metadata identifier, like the transfers and burns, go past the pool:
    after them [is_metadata_id_used] and [get_available_count] answer as
    before, for every account and identifier.  A token minted by
    [mint_from_metadata_id] for some identifier does not flag it. *)
Theorem direct_mints_bypass_pool signer c env w creator id :
  pool_neutral c = true →
  is_metadata_id_used (step signer c env w).2 creator id
  = is_metadata_id_used w creator id ∧
  get_available_count (step signer c env w).2 creator = get_available_count w creator.
Proof. intros Hc. by apply views_same_pools, pool_neutral_same_pools. Qed.

(** X5: [initialize] never resets a pool: signed by an account that
    holds one it aborts, whatever the token standard does; and in every
    case it leaves the resources of all other accounts as they are. *)
Theorem initialize_never_resets signer env w :
  (is_Some (nft w !! signer) →
   ∃ e, step signer Initialize env w = (inl e, w)) ∧
  (∀ a, a ≠ signer → nft (step signer Initialize env w).2 !! a = nft w !! a).
Proof.
  pose proof (initialize_spec signer env w) as Hwp. unfold wp in Hwp.
  unfold step, transaction. cbn [run]. unfold mbind, M_bind, bind.
  destruct (initialize signer env w) as [u w'|e w'] eqn:Hinit; cbn.
  - destruct Hwp as (Hnone & d & _ & _ & _ & Hnft). split.
    + intros [x Hx]. congruence.
    + intros a Hne. rewrite Hnft. by rewrite lookup_insert_ne.
  - split; [eauto|done].
Qed.

Lemma step_effect_admin_is_holder signer r w w' :
  step_effect signer r w w' → admin_is_holder w → admin_is_holder w'.
Proof.
  intros [[Hs _]|[(i & id & _ & Ha)|(Hnone & _ & d & _ & Hadm & Hnft)]] Hw a x Hx.
  - destruct (same_pools_lookup w' w a x (same_pools_sym _ _ Hs) Hx) as (x0 & Hx0 & Hp).
    unfold pool_of in Hp. injection Hp as _ _ _ Hadm. rewrite <- Hadm. by eapply Hw.
  - destruct Ha as (d & d' & Hd & Hd' & _ & Hadm' & _ & _ & _ & _ & _ & _ & _ & Hother).
    destruct (decide (a = signer)) as [->|Hne]; [congruence|].
    specialize (Hother a Hne). rewrite Hx in Hother.
    destruct (nft w !! a) as [x0|] eqn:Hx0; [|discriminate].
    simpl in Hother. unfold pool_of in Hother. injection Hother as _ _ _ Hadm.
    rewrite Hadm. by eapply Hw.
  - rewrite Hnft in Hx. destruct (decide (a = signer)) as [->|Hne].
    + rewrite lookup_insert_eq in Hx. congruence.
    + rewrite lookup_insert_ne in Hx by done. by eapply Hw.
Qed.

(** X6: in every state reached from one without pools, each
    [VelmoraNFTData] names as admin the account that holds it; so the
    assertion on the admin can never fail there, and a signer that is not
    an admin is turned away by the missing resource alone. *)
Theorem admin_is_always_holder txs w0 :
  nft w0 = ∅ →
  admin_is_holder (run_all txs w0) ∧
  ∀ caller e, turned_away (run_all txs w0) caller e → e = MissingResource.
Proof.
  intros Hempty.
  assert (pools_wf w0 ∧ admin_is_holder w0) as Hinv.
  { split; intros a d; rewrite Hempty, lookup_empty; discriminate. }
  assert (admin_is_holder (run_all txs w0)) as Hadm.
  { clear Hempty. revert w0 Hinv.
    induction txs as [|[[signer c] env] txs IH]; intros w [Hw Ha]; [done|].
    cbn [run_all]. apply IH. split; [by apply step_pools_wf|].
    eapply step_effect_admin_is_holder; [by apply step_effect_holds|done]. }
  split; [done|].
  intros caller e [[_ ->]|(d & Hd & Hne & _)]; [done|].
  by destruct Hne; apply (Hadm _ _ Hd).
Qed.

End pool_views.

(** ** Minting with given attributes *)

Section minting.
Context `{TokenFramework} `{Hashing}.
Import velmora_nft spec names_spec.

(** The token-standard part of [mint_nft]: token data, one token minted to
    the creator, opt-in, transfer to the recipient. *)
Lemma mint_nft_wp creator to name description uri rarity skill env w
    (Q : unit → World → Prop) (E : abort → World → Prop) :
  (100 < rarity → E (Abort (invalid_argument E_INVALID_RARITY)) w) →
  (rarity ≤ 100 → 100 < skill → E (Abort (invalid_argument E_INVALID_SKILL)) w) →
  (rarity ≤ 100 → skill ≤ 100 → validate_ipfs_uri uri = false → E InvalidURI w) →
  (nft w !! creator = None → E MissingResource w) →
  (∀ d, nft w !! creator = Some d → admin d ≠ creator → E PermissionDenied w) →
  (∀ t, E FrameworkAbort {| nft := nft w; tokens := t |}) →
  (∀ d data_id t1 token_id t2 t3 t4,
     rarity ≤ 100 → skill ≤ 100 → validate_ipfs_uri uri = true →
     nft w !! creator = Some d → admin d = creator →
     create_tokendata creator (collection_name d) name description 1 uri creator
       100 100
       {| prop_rarity := rarity; prop_skill := skill; prop_mint_time := now env;
          prop_ipfs_uri := uri |} (tokens w) = Some (data_id, t1) →
     mint_token creator data_id 1 t1 = Some (token_id, t2) →
     opt_in_direct_transfer creator true t2 = Some t3 →
     transfer creator token_id to 1 t3 = Some t4 →
     Q tt {| nft := <[creator :=
                        emit_mint {| mint_token_id := token_id;
                                     mint_creator := creator; mint_owner := to;
                                     mint_rarity := rarity; mint_skill := skill;
                                     mint_timestamp := now env |} d]> (nft w);
             tokens := t4 |}) →
  wp (mint_nft creator to name description uri rarity skill) env w Q E.
Proof.
  intros E1 E2 E3 E4 E5 E6 HQ. unfold mint_nft.
  apply wp_bind, wp_assert;
    [intros Hr%Z.leb_le|intros Hr%Z.leb_gt; apply E1; exact Hr].
  apply wp_bind, wp_assert;
    [intros Hs%Z.leb_le|intros Hs%Z.leb_gt; by apply E2].
  apply wp_bind, wp_assert; [intros Hu|intros Hu; by apply E3].
  apply wp_bind, wp_borrow_global; [intros d Hd|exact E4].
  apply wp_bind, wp_assert;
    [intros Ha%bool_decide_eq_true|intros Ha%bool_decide_eq_false; by eapply E5].
  apply wp_bind, wp_now_seconds.
  apply wp_bind, wp_token_call; [intros data_id t1 Ht1|intros _; destruct w; apply E6].
  apply wp_bind, wp_token_call; [intros token_id t2 Ht2|intros _; apply E6].
  apply wp_bind, wp_token_do; [intros t3 Ht3|intros _; apply E6].
  apply wp_bind, wp_token_do; [intros t4 Ht4|intros _; apply E6].
  apply wp_bind, wp_now_seconds.
  apply wp_write; cbn [nft tokens]; [|congruence].
  intros d0 Hd0. assert (d0 = d) as -> by congruence.
  by eapply HQ.
Qed.


(** Why [mint_nft] can abort, by code. *)
Lemma mint_nft_abort_reason creator to name description uri rarity skill env w e w' :
  mint_nft creator to name description uri rarity skill env w = Fail e w' →
  (e = Abort (invalid_argument E_INVALID_RARITY) ∧ 100 < rarity) ∨
  (e = Abort (invalid_argument E_INVALID_SKILL) ∧ 100 < skill) ∨
  (e = InvalidURI ∧ validate_ipfs_uri uri = false) ∨
  e = MissingResource ∨ e = PermissionDenied ∨ e = FrameworkAbort.
Proof.
  intros Hfail.
  pose proof (mint_nft_wp creator to name description uri rarity skill env w
                (λ _ _, True)
                (λ e _,
                   (e = Abort (invalid_argument E_INVALID_RARITY) ∧ 100 < rarity) ∨
                   (e = Abort (invalid_argument E_INVALID_SKILL) ∧ 100 < skill) ∨
                   (e = InvalidURI ∧ validate_ipfs_uri uri = false) ∨
                   e = MissingResource ∨ e = PermissionDenied ∨ e = FrameworkAbort))
    as Hwp.
  unfold wp in Hwp. rewrite Hfail in Hwp. apply Hwp; intros; auto 10.
Qed.

Lemma lighthouse_uri_valid (file : string) :
  validate_ipfs_uri (LIGHTHOUSE_DIR ++ file) = true.
Proof. unfold validate_ipfs_uri. rewrite !starts_with_prefix. reflexivity. Qed.

Lemma bridge_uri_valid (ipfs_hash : string) :
  validate_ipfs_uri ("ipfs://" ++ ipfs_hash) = true.
Proof.
  unfold validate_ipfs_uri. rewrite !starts_with_prefix.
  cbn. destruct ipfs_hash; reflexivity.
Qed.

(** X8: the entry functions that build the URI themselves never fail on
    it.  [mint_from_metadata_id] aborts with the invalid-URI code exactly
    for a metadata identifier outside 1..1200, [mint_from_ipfs_metadata]
    aborts with the invalid-rarity code exactly for such an identifier, and
    [mint_from_bridge] never aborts with the invalid-URI code, whatever the
    hash, even an empty one. *)
Theorem wrapper_argument_errors creator to metadata_id rarity skill
    name description ipfs_hash env w :
  ((∃ w', mint_from_metadata_id creator to metadata_id rarity skill env w
          = Fail InvalidURI w')
   ↔ ¬ (1 ≤ metadata_id ≤ MAX_METADATA_ID)) ∧
  ((∃ w', mint_from_ipfs_metadata creator to metadata_id env w
          = Fail (Abort (invalid_argument E_INVALID_RARITY)) w')
   ↔ ¬ (1 ≤ metadata_id ≤ MAX_METADATA_ID)) ∧
  (∀ w', mint_from_bridge creator to name description ipfs_hash rarity skill env w
         ≠ Fail InvalidURI w').
Proof.
  assert (∀ id, (1 <=? id) && (id <=? MAX_METADATA_ID) = true
                ↔ 1 ≤ id ≤ MAX_METADATA_ID) as Hrange.
  { intros id. rewrite andb_true_iff, !Z.leb_le. done. }
  split; [|split].
  - unfold mint_from_metadata_id, mbind, M_bind, bind, assert.
    destruct ((1 <=? metadata_id) && (metadata_id <=? MAX_METADATA_ID)) eqn:Hin.
    + apply Hrange in Hin. cbn. split; [|done].
      intros [w' Hfail]. exfalso. apply mint_nft_abort_reason in Hfail.
      assert (∀ u, validate_ipfs_uri u = true →
                   ¬ (InvalidURI = InvalidURI ∧ validate_ipfs_uri u = false))
        as Hno by (intros u -> [_ ?]; done).
      repeat case_match;
        (destruct Hfail as [[[=] _]|[[[=] _]|[Hbad|[[=]|[[=]|[=]]]]]];
         by eapply Hno; [apply lighthouse_uri_valid|exact Hbad]).
    + cbn. split; [intros _|eauto].
      intros Hr%Hrange. congruence.
  - unfold mint_from_ipfs_metadata, mbind, M_bind, bind, assert.
    destruct ((1 <=? metadata_id) && (metadata_id <=? MAX_METADATA_ID)) eqn:Hin.
    + apply Hrange in Hin. cbn. split; [|done].
      intros [w' Hfail]. exfalso. apply mint_nft_abort_reason in Hfail.
      destruct Hfail as [[_ Hbig]|[[[=] _]|[[[=] _]|[[=]|[[=]|[=]]]]]].
      destruct (metadata_id =? 1); lia.
    + cbn. split; [intros _|eauto].
      intros Hr%Hrange. congruence.
  - intros w' Hfail. unfold mint_from_bridge in Hfail.
    apply mint_nft_abort_reason in Hfail.
    destruct Hfail as [[[=] _]|[[[=] _]|[[_ Hbad]|[[=]|[[=]|[=]]]]]].
    rewrite bridge_uri_valid in Hbad. discriminate.
Qed.

End minting.

(** ** Transfers and burns *)

Section transfers_and_burns.
Context `{TokenFramework} `{Hashing}.
Import velmora_nft spec names_spec.

Lemma wp_logged_write creator (f : Z → VelmoraNFTData → VelmoraNFTData) env w
    (Q : unit → World → Prop) (E : abort → World → Prop) :
  Q tt {| nft := update_at creator (f (now env)) (nft w); tokens := tokens w |} →
  wp (has ← exists_data creator;
      if has : bool then timestamp ← now_seconds; write creator (f timestamp)
      else mret tt) env w Q E.
Proof.
  intros HQ. apply wp_bind, wp_exists_data. unfold update_at in HQ.
  case_bool_decide as Hex.
  - apply wp_bind, wp_now_seconds. destruct Hex as [d Hd].
    apply wp_write; [|congruence]. intros d0 Hd0. rewrite Hd0 in HQ. exact HQ.
  - apply wp_ret. destruct (nft w !! creator) eqn:Hd; [by destruct Hex|].
    by destruct w.
Qed.

(** X9: [transfer_nft] checks nothing itself: for any signer it returns
    exactly when the token standard builds the token identifier and moves
    one token; it then logs one transfer event, with sender, recipient and
    time, in the resource of the creator if the creator holds one, and
    changes no other resource. *)
Theorem transfer_nft_outcome from to creator collection token_name version env w :
  (∀ w', transfer_nft from to creator collection token_name version env w = Ok tt w'
         ↔ ∃ data_id t,
             create_token_data_id creator collection token_name = Some data_id ∧
             transfer from (data_id, version) to 1 (tokens w) = Some t ∧
             w' = {| nft := update_at creator
                              (emit_transfer
                                 {| transfer_token_id := (data_id, version);
                                    transfer_from := from; transfer_to := to;
                                    transfer_timestamp := now env |}) (nft w);
                     tokens := t |}) ∧
  (∀ e w', transfer_nft from to creator collection token_name version env w = Fail e w'
           → e = FrameworkAbort ∧ w' = w).
Proof.
  assert (wp (transfer_nft from to creator collection token_name version) env w
            (λ _ w', ∃ data_id t,
               create_token_data_id creator collection token_name = Some data_id ∧
               transfer from (data_id, version) to 1 (tokens w) = Some t ∧
               w' = {| nft := update_at creator
                                (emit_transfer
                                   {| transfer_token_id := (data_id, version);
                                      transfer_from := from; transfer_to := to;
                                      transfer_timestamp := now env |}) (nft w);
                       tokens := t |})
            (λ e w', e = FrameworkAbort ∧ w' = w ∧
               ¬ ∃ data_id t,
                   create_token_data_id creator collection token_name = Some data_id ∧
                   transfer from (data_id, version) to 1 (tokens w) = Some t)) as Hwp.
  { unfold transfer_nft.
    apply wp_bind, wp_lift_opt; [intros data_id Hid|].
    2:{ intros Hnone. split; [done|]. split; [done|]. intros (? & ? & ? & _). congruence. }
    apply wp_bind, wp_token_do; [intros t Ht|].
    2:{ intros Hnone. split; [done|]. split; [done|].
        intros (? & ? & ? & ?). congruence. }
    apply (wp_logged_write creator
             (λ ts, emit_transfer
                      {| transfer_token_id := (data_id, version);
                         transfer_from := from; transfer_to := to;
                         transfer_timestamp := ts |})).
    exists data_id, t. done. }
  unfold wp in Hwp. split.
  - intros w'. destruct (transfer_nft _ _ _ _ _ _ env w) as [[] w1|e w1].
    + split; [intros [= <-]; exact Hwp|].
      intros (data_id & t & Hid & Ht & ->).
      destruct Hwp as (data_id' & t' & Hid' & Ht' & ->).
      rewrite Hid in Hid'. injection Hid' as <-. rewrite Ht in Ht'. by injection Ht' as <-.
    + split; [discriminate|]. intros (data_id & t & Hid & Ht & _).
      destruct Hwp as (_ & _ & Hno). destruct Hno. eauto.
  - intros e w' Hfail. rewrite Hfail in Hwp. by destruct Hwp as (-> & -> & _).
Qed.

(** X10: [burn_nft] lets only a holder burn: when the signer holds none
    of the token it aborts with the permission-denied code before anything
    changes.  When it returns, the burn event in the resource of the creator
    carries the signer as owner and the rarity and skill that the property
    map held before the burn. *)
Theorem burn_nft_guard_and_event
    owner creator collection token_name version env w data_id :
  create_token_data_id creator collection token_name = Some data_id →
  (balance_of owner (data_id, version) (tokens w) ≤ 0 →
   burn_nft owner creator collection token_name version env w
   = Fail PermissionDenied w) ∧
  (∀ w', burn_nft owner creator collection token_name version env w = Ok tt w' →
         ∃ props t,
           0 < balance_of owner (data_id, version) (tokens w) ∧
           get_property_map creator (data_id, version) (tokens w) = Some props ∧
           burn owner creator collection token_name version 1 (tokens w) = Some t ∧
           w' = {| nft := update_at creator
                            (emit_burn
                               {| burn_token_id := (data_id, version);
                                  burn_owner := owner;
                                  burn_rarity := prop_rarity props;
                                  burn_skill := prop_skill props;
                                  burn_timestamp := now env |}) (nft w);
                   tokens := t |}).
Proof.
  intros Hid. split.
  - intros Hbal. apply wp_fail_eq. unfold burn_nft. rewrite Hid.
    apply wp_bind, wp_lift_opt; [intros ? [= <-]|intros [=]].
    apply wp_bind, wp_token_read.
    apply wp_bind, wp_assert; [intros Hpos%Z.ltb_lt; lia|done].
  - intros w' Hok.
    assert (wp (burn_nft owner creator collection token_name version) env w
              (λ _ w', ∃ props t,
                 0 < balance_of owner (data_id, version) (tokens w) ∧
                 get_property_map creator (data_id, version) (tokens w) = Some props ∧
                 burn owner creator collection token_name version 1 (tokens w) = Some t ∧
                 w' = {| nft := update_at creator
                                  (emit_burn
                                     {| burn_token_id := (data_id, version);
                                        burn_owner := owner;
                                        burn_rarity := prop_rarity props;
                                        burn_skill := prop_skill props;
                                        burn_timestamp := now env |}) (nft w);
                         tokens := t |})
              (λ _ _, True)) as Hwp.
    { unfold burn_nft, get_nft_attributes. rewrite Hid.
      apply wp_bind, wp_lift_opt; [intros ? [= <-]|done].
      apply wp_bind, wp_token_read.
      apply wp_bind, wp_assert; [intros Hpos%Z.ltb_lt|done].
      apply wp_bind, wp_bind, wp_lift_opt; [intros ? [= <-]|done].
      apply wp_bind, wp_get.
      apply wp_bind, wp_lift_opt; [intros props Hprops|done].
      apply wp_ret.
      apply wp_bind, wp_token_do; [intros t Ht|done].
      apply (wp_logged_write creator
               (λ ts, emit_burn
                        {| burn_token_id := (data_id, version);
                           burn_owner := owner;
                           burn_rarity := prop_rarity props;
                           burn_skill := prop_skill props;
                           burn_timestamp := ts |})).
      exists props, t. done. }
    unfold wp in Hwp. by rewrite Hok in Hwp.
Qed.

(** X11: [admin_burn_nft], run by the admin of a collection, aborts with
    the not-found code before anything changes when the named owner holds
    none of the token; when it returns it has burnt through
    [burn_by_creator] and logged one burn event with the named owner and the
    attributes read before the burn. *)
Theorem admin_burn_nft_guard_and_event
    signer owner collection token_name version env w d data_id :
  nft w !! signer = Some d → admin d = signer →
  create_token_data_id signer collection token_name = Some data_id →
  (balance_of owner (data_id, version) (tokens w) ≤ 0 →
   admin_burn_nft signer owner collection token_name version env w
   = Fail (Abort (not_found E_COLLECTION_NOT_FOUND)) w) ∧
  (∀ w', admin_burn_nft signer owner collection token_name version env w = Ok tt w' →
         ∃ props t,
           0 < balance_of owner (data_id, version) (tokens w) ∧
           get_property_map signer (data_id, version) (tokens w) = Some props ∧
           burn_by_creator signer owner collection token_name version 1 (tokens w)
           = Some t ∧
           w' = {| nft := <[signer :=
                              emit_burn
                                {| burn_token_id := (data_id, version);
                                   burn_owner := owner;
                                   burn_rarity := prop_rarity props;
                                   burn_skill := prop_skill props;
                                   burn_timestamp := now env |} d]> (nft w);
                   tokens := t |}).
Proof.
  intros Hd Ha Hid. split.
  - intros Hbal. apply wp_fail_eq. unfold admin_burn_nft. rewrite Hid.
    apply wp_bind, wp_borrow_global; [intros d0 Hd0|congruence].
    assert (d0 = d) as -> by congruence.
    apply wp_bind, wp_assert; [intros _|intros Hf%bool_decide_eq_false; done].
    apply wp_bind, wp_lift_opt; [intros ? [= <-]|intros [=]].
    apply wp_bind, wp_token_read.
    apply wp_bind, wp_assert; [intros Hpos%Z.ltb_lt; lia|done].
  - intros w' Hok.
    assert (wp (admin_burn_nft signer owner collection token_name version) env w
              (λ _ w', ∃ props t,
                 0 < balance_of owner (data_id, version) (tokens w) ∧
                 get_property_map signer (data_id, version) (tokens w) = Some props ∧
                 burn_by_creator signer owner collection token_name version 1 (tokens w)
                 = Some t ∧
                 w' = {| nft := <[signer :=
                                    emit_burn
                                      {| burn_token_id := (data_id, version);
                                         burn_owner := owner;
                                         burn_rarity := prop_rarity props;
                                         burn_skill := prop_skill props;
                                         burn_timestamp := now env |} d]> (nft w);
                         tokens := t |})
              (λ _ _, True)) as Hwp.
    { unfold admin_burn_nft, get_nft_attributes. rewrite Hid.
      apply wp_bind, wp_borrow_global; [intros d0 Hd0|done].
      assert (d0 = d) as -> by congruence.
      apply wp_bind, wp_assert; [intros _|done].
      apply wp_bind, wp_lift_opt; [intros ? [= <-]|done].
      apply wp_bind, wp_token_read.
      apply wp_bind, wp_assert; [intros Hpos%Z.ltb_lt|done].
      apply wp_bind, wp_bind, wp_lift_opt; [intros ? [= <-]|done].
      apply wp_bind, wp_get.
      apply wp_bind, wp_lift_opt; [intros props Hprops|done].
      apply wp_ret.
      apply wp_bind, wp_token_do; [intros t Ht|done].
      apply wp_bind, wp_now_seconds.
      apply wp_write; cbn [nft tokens]; [|done].
      intros d1 Hd1. assert (d1 = d) as -> by congruence.
      exists props, t. done. }
    unfold wp in Hwp. by rewrite Hok in Hwp.
Qed.

End transfers_and_burns.

(** ** The attributes derived from a metadata identifier *)

Section derived_attributes.
Context `{TokenFramework} `{Hashing}.
Import velmora_nft spec names_spec.

Lemma u64_to_string_returns k : 0 ≤ k ≤ MAX_U64 → ∃ s, u64_to_string k = inr s.
Proof.
  intros Hk. unfold u64_to_string. destruct (k =? 0) eqn:Hz; [eauto|].
  apply Z.eqb_neq in Hz.
  destruct (digits_loop_enough 20 k []) as [ds Hds].
  { unfold MAX_U64 in Hk. change (10 ^ Z.of_nat 20) with 100000000000000000000. lia. }
  rewrite Hds. eauto.
Qed.

Lemma random_uri_valid (id_string : string) :
  validate_ipfs_uri
    (("ipfs://bafybeiem7ucsjote74moefa2kmprng6cdtcey43hakgvpww3icahqtpgee/"
        ++ id_string) ++ ".json") = true.
Proof. unfold validate_ipfs_uri. rewrite !starts_with_prefix. reflexivity. Qed.

(** X12: the helper behind both random mints and [mint_from_metadata_id]
    derives rarity [id mod 100 + 1] and skill [(id * 7) mod 100 + 1], both
    within 1..100, and an [ipfs://] address, so the argument checks of
    [mint_nft] never fire for it: it aborts with an arithmetic error exactly
    when [id * 7] overflows [u64], and otherwise only on a missing resource,
    a signer that is not the admin, or a refusal of the token standard.
    When it returns, the logged event carries the derived attributes. *)
Theorem derived_attributes_pass_checks creator to id env w :
  0 ≤ id ≤ MAX_U64 →
  (mint_nft_with_metadata_id creator to id env w = Fail ArithmeticError w
   ↔ MAX_U64 < id * 7) ∧
  (∀ e w', mint_nft_with_metadata_id creator to id env w = Fail e w' →
           e = ArithmeticError ∨ e = MissingResource ∨ e = PermissionDenied
           ∨ e = FrameworkAbort) ∧
  (∀ w', mint_nft_with_metadata_id creator to id env w = Ok tt w' →
         ∃ d token_id,
           nft w !! creator = Some d ∧
           1 ≤ id mod 100 + 1 ≤ 100 ∧ 1 ≤ (id * 7) mod 100 + 1 ≤ 100 ∧
           nft w' = <[creator :=
                        emit_mint {| mint_token_id := token_id;
                                     mint_creator := creator; mint_owner := to;
                                     mint_rarity := id mod 100 + 1;
                                     mint_skill := (id * 7) mod 100 + 1;
                                     mint_timestamp := now env |} d]> (nft w)).
Proof.
  intros Hid.
  pose proof (Z.mod_pos_bound id 100 ltac:(lia)) as Hr.
  pose proof (Z.mod_pos_bound (id * 7) 100 ltac:(lia)) as Hs.
  destruct (u64_to_string_returns id Hid) as [s Hstr].
  assert (wp (mint_nft_with_metadata_id creator to id) env w
            (λ _ w', id * 7 ≤ MAX_U64 ∧
               ∃ d token_id,
                 nft w !! creator = Some d ∧
                 nft w' = <[creator :=
                              emit_mint {| mint_token_id := token_id;
                                           mint_creator := creator; mint_owner := to;
                                           mint_rarity := id mod 100 + 1;
                                           mint_skill := (id * 7) mod 100 + 1;
                                           mint_timestamp := now env |} d]> (nft w))
            (λ e w', (e = ArithmeticError ∧ w' = w ∧ MAX_U64 < id * 7) ∨
                     (id * 7 ≤ MAX_U64 ∧
                      (e = MissingResource ∨ e = PermissionDenied
                       ∨ e = FrameworkAbort)))) as Hwp.
  { unfold mint_nft_with_metadata_id. rewrite Hstr.
    apply wp_bind, wp_lift_res; [intros ? [= <-]|intros ? [=]].
    unfold u64_mul. destruct (MAX_U64 <? id * 7) eqn:Hov.
    - apply Z.ltb_lt in Hov.
      apply wp_bind, wp_lift_opt; [intros ? [=]|intros _; left; done].
    - apply Z.ltb_ge in Hov.
      apply wp_bind, wp_lift_opt; [intros ? [= <-]|intros [=]].
      apply mint_nft_wp.
      + lia.
      + lia.
      + intros _ _ Hu. by rewrite random_uri_valid in Hu.
      + intros _. right. auto.
      + intros d _ _. right. auto.
      + intros t. right. auto.
      + intros d data_id t1 token_id t2 t3 t4 _ _ _ Hd _ _ _ _ _.
        split; [done|]. exists d, token_id. done. }
  unfold wp in Hwp. split; [|split].
  - split.
    + intros Hfail. rewrite Hfail in Hwp.
      destruct Hwp as [(_ & _ & ?)|(_ & [[=]|[[=]|[=]]])]. done.
    + intros Hov. destruct (mint_nft_with_metadata_id creator to id env w) as [[] w1|e w1].
      * lia.
      * destruct Hwp as [(-> & -> & _)|[? _]]; [done|lia].
  - intros e w' Hfail. rewrite Hfail in Hwp.
    destruct Hwp as [(-> & _)|(_ & Hcase)]; [by left|]. right. exact Hcase.
  - intros w' Hok. rewrite Hok in Hwp. destruct Hwp as (_ & d & token_id & Hd & Hw').
    exists d, token_id. repeat split; try done; lia.
Qed.

End derived_attributes.

(** ** Conservation in the ledger of Coins of Aura *)

Section conservation.
Import coins_of_aura spec ledger_spec.
Implicit Types (l : Ledger) (env : Env) (m : gmap address Z).

Lemma total_empty : total ∅ = 0.
Proof. unfold total. by rewrite map_fold_empty. Qed.

Lemma total_insert_fresh m a b : m !! a = None → total (<[a := b]> m) = b + total m.
Proof.
  intros Hnone. unfold total. rewrite map_fold_insert_L; [done| |done].
  intros. lia.
Qed.

Lemma total_insert m a b : total (<[a := b]> m) = total m - default 0 (m !! a) + b.
Proof.
  destruct (m !! a) as [b0|] eqn:Ha; cbn [default from_option id].
  - assert (total m = b0 + total (delete a m)) as ->.
    { rewrite <- (insert_delete_id m a b0 Ha) at 1.
      apply total_insert_fresh, lookup_delete_eq. }
    rewrite <- (insert_delete_eq m a b).
    rewrite total_insert_fresh by apply lookup_delete_eq. lia.
  - rewrite total_insert_fresh by done. lia.
Qed.

Lemma sound_insert l a b :
  ledger_sound l → is_u64 b → metadata_owner l ≠ None →
  ledger_sound {| metadata_owner := metadata_owner l;
                  stores := <[a := b]> (stores l);
                  supply := supply l - default 0 (stores l !! a) + b;
                  events := events l |}.
Proof.
  intros (Hsum & Hu & Hnone) Hb Ho. split; [|split]; cbn [supply stores metadata_owner].
  - rewrite total_insert. lia.
  - intros a' b'. destruct (decide (a' = a)) as [->|Hne].
    + rewrite lookup_insert_eq. by intros [= <-].
    + rewrite lookup_insert_ne by done. apply Hu.
  - done.
Qed.

Lemma sound_events o m n evs evs' :
  ledger_sound {| metadata_owner := o; stores := m; supply := n; events := evs |} →
  ledger_sound {| metadata_owner := o; stores := m; supply := n; events := evs' |}.
Proof. intros H. exact H. Qed.

Lemma mint_wp admin to amount env l (Q : unit → Ledger → Prop) :
  (metadata_owner l = Some admin →
     supply l + amount ≤ MAX_U128 →
     default 0 (stores l !! to) + amount ≤ MAX_U64 →
     Q tt {| metadata_owner := metadata_owner l;
             stores := <[to := default 0 (stores l !! to) + amount]> (stores l);
             supply := supply l + amount;
             events := events l ++ [MintEvent to amount (now env)] |}) →
  wp (mint admin to amount) env l Q (λ _ _, True).
Proof.
  intros HQ. unfold mint.
  apply wp_bind, wp_get_metadata; [intros o _|done].
  apply wp_bind, wp_authorized_borrow_refs; [intros Ho|done].
  apply wp_bind, wp_ensure_primary_store_exists; [intros b Hb|intros Hb].
  - apply wp_bind, wp_fa_mint; [intros Hsup|done].
    apply wp_bind, wp_deposit_with_ref; cbn [set_supply stores]; [|done|done].
    intros b' Hb' Hle. assert (b' = b) as -> by congruence.
    apply wp_bind, wp_coin_now_seconds, wp_emit_event.
    specialize (HQ Ho Hsup). rewrite Hb in HQ. apply HQ. exact Hle.
  - apply wp_bind, wp_fa_mint; cbn [set_stores supply]; [intros Hsup|done].
    apply wp_bind, wp_deposit_with_ref; cbn [set_supply set_stores stores]; [|done|done].
    intros b'. rewrite lookup_insert_eq. intros [= <-] Hle.
    apply wp_bind, wp_coin_now_seconds, wp_emit_event.
    specialize (HQ Ho Hsup). rewrite Hb in HQ. cbn [default from_option id] in HQ.
    unfold emit, set_stores, set_supply. cbn [metadata_owner stores supply events].
    rewrite insert_insert_eq. apply HQ. exact Hle.
Qed.

Lemma burn_wp admin amount env l (Q : unit → Ledger → Prop) :
  (∀ b, metadata_owner l = Some admin → stores l !! admin = Some b →
     amount ≤ b → amount ≤ supply l →
     Q tt {| metadata_owner := metadata_owner l;
             stores := <[admin := b - amount]> (stores l);
             supply := supply l - amount;
             events := events l ++ [BurnEvent admin amount (now env)] |}) →
  wp (burn admin amount) env l Q (λ _ _, True).
Proof.
  intros HQ. unfold burn.
  apply wp_bind, wp_get_metadata; [intros o Ho|done].
  apply wp_bind, wp_authorized_borrow_refs; [intros Hadm|done].
  apply wp_bind, wp_primary_store; [intros b0 _|done].
  apply wp_bind, wp_withdraw_with_ref; [intros b Hb Hle|done].
  apply wp_bind, wp_fa_burn; cbn [set_stores supply]; [intros Hsup|done].
  apply wp_bind, wp_coin_now_seconds, wp_emit_event.
  by apply HQ.
Qed.

Lemma wp_ensure_store owner env l (Q : unit → Ledger → Prop) E :
  Q tt (set_stores (<[owner := default 0 (stores l !! owner)]> (stores l)) l) →
  wp (ensure_primary_store_exists owner) env l Q E.
Proof.
  intros HQ. apply wp_ensure_primary_store_exists; [intros b Hb|intros Hb];
    rewrite Hb in HQ; cbn [default from_option id] in HQ; [|exact HQ].
  rewrite (insert_id (stores l) owner b Hb) in HQ. by destruct l.
Qed.

Lemma transfer_wp from to amount env l (Q : unit → Ledger → Prop) :
  (∀ o, metadata_owner l = Some o →
     amount ≤ default 0 (stores l !! from) →
     (from ≠ to → default 0 (stores l !! to) + amount ≤ MAX_U64) →
     Q tt {| metadata_owner := metadata_owner l;
             stores :=
               <[to := (if decide (from = to)
                        then default 0 (stores l !! from) - amount
                        else default 0 (stores l !! to)) + amount]>
                 (<[from := default 0 (stores l !! from) - amount]> (stores l));
             supply := supply l;
             events := events l |}) →
  wp (transfer from to amount) env l Q (λ _ _, True).
Proof.
  intros HQ. unfold transfer.
  apply wp_bind, wp_get_metadata; [intros o Ho|done].
  specialize (HQ o Ho).
  apply wp_bind, wp_ensure_store.
  apply wp_bind, wp_ensure_store. cbn [set_stores stores].
  set (bf := default 0 (stores l !! from)) in *.
  set (bt := default 0 (stores l !! to)) in *.
  apply wp_bind, wp_withdraw_with_ref; cbn [set_stores stores]; [intros b Hb Hle|done].
  assert (b = bf) as ->.
  { destruct (decide (from = to)) as [<-|Hne].
    - rewrite !lookup_insert_eq in Hb. cbn [default from_option id] in Hb. congruence.
    - rewrite lookup_insert_ne, lookup_insert_eq in Hb by done. congruence. }
  apply wp_deposit_with_ref; cbn [set_stores stores metadata_owner supply events];
    [|done|done].
  intros y Hy Hle'.
  assert (y = if decide (from = to) then bf - amount else bt) as ->.
  { destruct (decide (from = to)) as [<-|Hne].
    - rewrite lookup_insert_eq in Hy. congruence.
    - rewrite lookup_insert_ne, lookup_insert_eq in Hy by done.
      rewrite lookup_insert_ne in Hy by done. fold bt in Hy. cbn [default from_option id] in Hy.
      congruence. }
  unfold set_stores. cbn [metadata_owner stores supply events].
  match goal with
  | |- Q tt {| metadata_owner := _; stores := ?s; supply := _; events := _ |} =>
      replace s with
        (<[to := (if decide (from = to) then bf - amount else bt) + amount]>
           (<[from := bf - amount]> (stores l)))
  end.
  - apply HQ; [done|]. intros Hne. destruct (decide (from = to)); [done|]. exact Hle'.
  - apply map_eq. intros i.
    destruct (decide (i = to)) as [->|Hto]; [by rewrite !lookup_insert_eq|].
    rewrite !(lookup_insert_ne _ to i) by congruence.
    destruct (decide (i = from)) as [->|Hfrom]; [by rewrite !lookup_insert_eq|].
    by rewrite !lookup_insert_ne by congruence.
Qed.

Lemma reward_new_player_wp admin player env l (Q : unit → Ledger → Prop) :
  (∀ b, metadata_owner l = Some admin → stores l !! player = Some b → b ≠ 0 →
        Q tt l) →
  (metadata_owner l = Some admin → stores l !! player = Some 0 →
   supply l + INITIAL_PLAYER_AMOUNT ≤ MAX_U128 →
   Q tt {| metadata_owner := metadata_owner l;
           stores := <[player := INITIAL_PLAYER_AMOUNT]> (stores l);
           supply := supply l + INITIAL_PLAYER_AMOUNT;
           events := events l
                     ++ [PlayerLoginReward player INITIAL_PLAYER_AMOUNT (now env)] |}) →
  wp (reward_new_player admin player) env l Q (λ _ _, True).
Proof.
  intros Hkeep Hpay. unfold reward_new_player.
  apply wp_bind, wp_get_metadata; [intros o Ho|done].
  apply wp_bind, wp_authorized_borrow_refs; [intros Hadm|done].
  apply wp_bind, wp_primary_store; [intros b0 _|done].
  apply wp_bind, wp_store_balance; [intros b Hb|done].
  destruct (b =? 0) eqn:Hz.
  - apply Z.eqb_eq in Hz as ->.
    apply wp_bind, wp_ensure_primary_store_exists; [intros ? _|congruence].
    apply wp_bind, wp_fa_mint; [intros Hsup|done].
    apply wp_bind, wp_deposit_with_ref; cbn [set_supply stores]; [|done|done].
    intros cur Hcur _. assert (cur = 0) as -> by congruence.
    apply wp_bind, wp_coin_now_seconds, wp_emit_event. by apply Hpay.
  - apply Z.eqb_neq in Hz. apply wp_ret. by eapply Hkeep.
Qed.

Lemma step_sound velmora signer c env l :
  ledger_sound l → well_typed c → ledger_sound (step velmora signer c env l).2.
Proof.
  intros Hl Hc.
  assert (wp (run velmora signer c) env l (λ _ l', ledger_sound l') (λ _ _, True))
    as Hwp.
  { destruct Hl as (Hsum & Hu & Hnone).
    assert (∀ a, is_u64 (default 0 (stores l !! a))) as Hd.
    { intros a. destruct (stores l !! a) as [b|] eqn:Hb; cbn [default from_option id].
      - by eapply Hu.
      - unfold is_u64, MAX_U64. lia. }
    destruct c as [|to amount|player|amount|to amount]; cbn [run well_typed] in *.
    - unfold initialize. apply wp_bind, wp_get. case_bool_decide; [|by apply wp_ret].
      destruct (metadata_owner l) eqn:Ho; [by apply wp_throw|].
      apply wp_put. split; [|split]; cbn [supply stores metadata_owner]; [|done|done].
      rewrite (Hnone eq_refl). by rewrite total_empty.
    - apply mint_wp. intros Ho Hsup Hle.
      pose proof (Hd to) as Hto. unfold is_u64 in *.
      apply (sound_events _ _ _ (events l)).
      replace (supply l + amount)
        with (supply l - default 0 (stores l !! to)
              + (default 0 (stores l !! to) + amount)) by lia.
      apply (sound_insert l); [done|unfold is_u64; lia|congruence].
    - apply reward_new_player_wp; [done|]. intros Ho Hb Hsup.
      apply (sound_events _ _ _ (events l)).
      replace (supply l + INITIAL_PLAYER_AMOUNT)
        with (supply l - default 0 (stores l !! player) + INITIAL_PLAYER_AMOUNT)
        by (rewrite Hb; cbn [default from_option id]; lia).
      apply (sound_insert l); [done| |congruence].
      unfold is_u64, INITIAL_PLAYER_AMOUNT, MAX_U64. lia.
    - apply burn_wp. intros b Ho Hb Hle Hsup.
      pose proof (Hu _ _ Hb) as Hbu. unfold is_u64 in *.
      apply (sound_events _ _ _ (events l)).
      replace (supply l - amount)
        with (supply l - default 0 (stores l !! signer) + (b - amount))
        by (rewrite Hb; cbn [default from_option id]; lia).
      apply (sound_insert l); [done|unfold is_u64; lia|congruence].
    - apply transfer_wp. intros o Ho Hle Hle'.
      pose proof (Hd signer) as Hf. pose proof (Hd to) as Ht. unfold is_u64 in *.
      set (bf := default 0 (stores l !! signer)) in *.
      set (bt := default 0 (stores l !! to)) in *.
      pose (l1 := {| metadata_owner := metadata_owner l;
                     stores := <[signer := bf - amount]> (stores l);
                     supply := supply l - bf + (bf - amount);
                     events := events l |}).
      assert (ledger_sound l1) as Hl1.
      { apply (sound_insert l); [done|unfold is_u64; lia|congruence]. }
      assert (default 0 (stores l1 !! to)
              = if decide (signer = to) then bf - amount else bt) as Hy.
      { cbn [l1 stores]. destruct (decide (signer = to)) as [<-|Hne].
        - by rewrite lookup_insert_eq.
        - by rewrite lookup_insert_ne by done. }
      replace (supply l)
        with (supply l1 - default 0 (stores l1 !! to)
              + ((if decide (signer = to) then bf - amount else bt) + amount)).
      2:{ rewrite Hy. cbn [l1 supply]. lia. }
      apply (sound_insert l1); [done| |cbn [l1 metadata_owner]; congruence].
      unfold is_u64. destruct (decide (signer = to)); [lia|]. specialize (Hle' n). lia. }
  unfold step, transaction. unfold wp in Hwp.
  destruct (run velmora signer c env l); [exact Hwp|exact Hl].
Qed.

(** X13: in the ledger of Coins of Aura the total supply is always the sum
    of the balances of the primary stores, and every balance fits [u64]:
    [mint] and [reward_new_player] deposit all they mint, [burn] burns all
    it withdraws, [transfer] moves coins without creating any, and a failed
    call changes nothing.  The property holds after any sequence of calls by
    any signers. *)
Theorem supply_is_sum_of_balances velmora txs l :
  ledger_sound l → Forall (λ tx, well_typed tx.1.2) txs →
  ledger_sound (run_all velmora txs l).
Proof.
  intros Hl Htxs. revert l Hl.
  induction Htxs as [|[[signer c] env] txs Hc _ IH]; intros l Hl; [exact Hl|].
  cbn [ledger_spec.run_all]. apply IH. by apply step_sound.
Qed.

(** X14: [transfer] asks for no permission: for any signer it returns
    exactly when the asset exists, the sender holds the amount and the
    balance of the recipient does not overflow.  It moves the amount from
    the sender to the recipient, leaves every other balance, the supply and
    the event log as they were, and a transfer to oneself changes no
    balance. *)
Theorem transfer_moves_coins from to amount env l :
  ledger_sound l →
  (∀ l', transfer from to amount env l = Ok tt l' →
     is_Some (metadata_owner l) ∧ amount ≤ balance l from ∧
     (from ≠ to → balance l to + amount ≤ MAX_U64) ∧
     supply l' = supply l ∧ events l' = events l ∧
     (from ≠ to → balance l' from = balance l from - amount
                  ∧ balance l' to = balance l to + amount) ∧
     (from = to → balance l' from = balance l from) ∧
     (∀ a, a ≠ from → a ≠ to → stores l' !! a = stores l !! a)) ∧
  (is_Some (metadata_owner l) → amount ≤ balance l from →
   (from ≠ to → balance l to + amount ≤ MAX_U64) →
   ∃ l', transfer from to amount env l = Ok tt l').
Proof.
  intros (_ & Hu & _). split.
  - intros l' Hok.
    pose proof (transfer_wp from to amount env l
                  (λ _ l', is_Some (metadata_owner l) ∧ amount ≤ balance l from ∧
                     (from ≠ to → balance l to + amount ≤ MAX_U64) ∧
                     supply l' = supply l ∧ events l' = events l ∧
                     (from ≠ to → balance l' from = balance l from - amount
                                  ∧ balance l' to = balance l to + amount) ∧
                     (from = to → balance l' from = balance l from) ∧
                     (∀ a, a ≠ from → a ≠ to → stores l' !! a = stores l !! a)))
      as Hwp.
    unfold wp in Hwp. rewrite Hok in Hwp. apply Hwp. clear Hwp Hok.
    intros o Ho Hle Hle'. unfold balance. cbn [stores supply events].
    split; [by rewrite Ho|]. split; [done|]. split; [done|].
    split; [done|]. split; [done|]. split; [|split].
    + intros Hne. destruct (decide (from = to)); [done|].
      rewrite lookup_insert_ne, !lookup_insert_eq by done. cbn [default from_option id].
      split; [done|lia].
    + intros <-. destruct (decide (from = from)); [|done].
      rewrite lookup_insert_eq. cbn [default from_option id]. lia.
    + intros a Hf Ht. by rewrite !lookup_insert_ne by done.
  - intros [o Ho] Hle Hle'. unfold balance in *.
    assert (wp (transfer from to amount) env l (λ _ _, True) (λ _ _, False)) as Hwp.
    { unfold transfer.
      apply wp_bind, wp_get_metadata; [intros _ _|congruence].
      apply wp_bind, wp_ensure_store.
      apply wp_bind, wp_ensure_store. cbn [set_stores stores].
      set (bf := default 0 (stores l !! from)) in *.
      set (bt := default 0 (stores l !! to)) in *.
      assert (<[to:=default 0 (<[from:=bf]> (stores l) !! to)]>
                (<[from:=bf]> (stores l)) !! from = Some bf) as Hfrom.
      { destruct (decide (from = to)) as [<-|Hne].
        - by rewrite !lookup_insert_eq.
        - by rewrite lookup_insert_ne, lookup_insert_eq by done. }
      unfold withdraw_with_ref.
      apply wp_bind, wp_bind, wp_get. cbn [set_stores stores]. rewrite Hfrom.
      apply wp_bind, wp_lift_opt; [intros ? [= <-]|intros [=]].
      destruct (bf <? amount) eqn:Hlt; [lia|].
      apply wp_put. unfold deposit_with_ref.
      apply wp_bind, wp_get. cbn [set_stores stores].
      destruct (decide (from = to)) as [<-|Hne].
      + apply wp_bind, wp_lift_opt;
          [intros y Hy|intros Hy; by rewrite lookup_insert_eq in Hy].
        rewrite lookup_insert_eq in Hy.
        assert (y = bf - amount) as -> by congruence.
        destruct (MAX_U64 <? bf - amount + amount) eqn:Hov; [|by apply wp_put].
        apply Z.ltb_lt in Hov. exfalso.
        assert (bf ≤ MAX_U64); [|lia]. subst bf.
        destruct (stores l !! from) as [b|] eqn:Hb; cbn [default from_option id].
        * by apply (Hu _ _ Hb).
        * unfold MAX_U64. lia.
      + apply wp_bind, wp_lift_opt;
          [intros y Hy|intros Hy; by rewrite lookup_insert_ne, lookup_insert_eq in Hy].
        rewrite lookup_insert_ne, lookup_insert_eq in Hy by done.
        rewrite lookup_insert_ne in Hy by done. fold bt in Hy.
        assert (y = bt) as -> by congruence.
        specialize (Hle' Hne).
        destruct (MAX_U64 <? bt + amount) eqn:Hov; [lia|]. by apply wp_put. }
    unfold wp in Hwp.
    destruct (transfer from to amount env l) as [[] l'|]; [eauto|done].
Qed.

Lemma total_nonneg m : (∀ a b, m !! a = Some b → 0 ≤ b) → 0 ≤ total m.
Proof.
  induction m as [|a b m Hnone _ IH] using map_first_key_ind.
  - intros _. by rewrite total_empty.
  - intros Hall. rewrite total_insert_fresh by done.
    pose proof (Hall a b (lookup_insert_eq m a b)).
    assert (0 ≤ total m); [|lia].
    apply IH. intros a' b' Hb'. apply (Hall a' b').
    rewrite lookup_insert_ne; [done|]. intros <-. congruence.
Qed.

Lemma burn_returns admin amount env l b :
  metadata_owner l = Some admin → stores l !! admin = Some b →
  amount ≤ b → amount ≤ supply l →
  burn admin amount env l
  = Ok tt {| metadata_owner := metadata_owner l;
             stores := <[admin := b - amount]> (stores l);
             supply := supply l - amount;
             events := events l ++ [BurnEvent admin amount (now env)] |}.
Proof.
  intros Ho Hb Hle Hsup. apply wp_ok_eq. unfold burn.
  apply wp_bind, wp_get_metadata; [intros _ _|congruence].
  apply wp_bind, wp_authorized_borrow_refs; [intros _|congruence].
  apply wp_bind, wp_primary_store; [intros _ _|congruence].
  unfold withdraw_with_ref. apply wp_bind, wp_bind, wp_get. rewrite Hb.
  apply wp_bind, wp_lift_opt; [intros y Hy|intros [=]].
  assert (y = b) as -> by congruence.
  destruct (b <? amount) eqn:Hlt; [lia|]. apply wp_put.
  unfold fa_burn. apply wp_bind, wp_bind, wp_get. cbn [set_stores supply].
  destruct (supply l <? amount) eqn:Hlt'; [lia|]. apply wp_put.
  apply wp_bind, wp_coin_now_seconds, wp_emit_event. done.
Qed.

(** X15: [burn] takes the coins from the store of the admin itself: for
    the owner of the asset it returns exactly when the admin has a primary
    store that holds the amount and the supply covers it; without a store it
    aborts even for the amount zero.  Every abort is a framework abort.
    When it returns, the balance of the admin and the supply have both
    dropped by the amount, one burn event names the admin, and no other
    store has changed. *)
Theorem burn_needs_store_and_funds admin amount env l :
  metadata_owner l = Some admin →
  ((∃ l', burn admin amount env l = Ok tt l')
   ↔ ∃ b, stores l !! admin = Some b ∧ amount ≤ b ∧ amount ≤ supply l) ∧
  (∀ e l', burn admin amount env l = Fail e l' → e = FrameworkAbort) ∧
  (∀ l', burn admin amount env l = Ok tt l' →
     balance l' admin = balance l admin - amount ∧
     supply l' = supply l - amount ∧
     events l' = events l ++ [BurnEvent admin amount (now env)] ∧
     ∀ a, a ≠ admin → stores l' !! a = stores l !! a).
Proof.
  intros Ho.
  assert (wp (burn admin amount) env l
            (λ _ l', ∃ b, stores l !! admin = Some b ∧ amount ≤ b ∧ amount ≤ supply l ∧
               l' = {| metadata_owner := metadata_owner l;
                       stores := <[admin := b - amount]> (stores l);
                       supply := supply l - amount;
                       events := events l ++ [BurnEvent admin amount (now env)] |})
            (λ e _, e = FrameworkAbort ∧
               ¬ ∃ b, stores l !! admin = Some b ∧ amount ≤ b ∧ amount ≤ supply l))
    as Hwp.
  { unfold burn.
    apply wp_bind, wp_get_metadata; [intros _ _|congruence].
    apply wp_bind, wp_authorized_borrow_refs; [intros _|congruence].
    apply wp_bind, wp_primary_store; [intros b Hb|].
    2:{ intros Hnone. split; [done|]. intros (b & Hb & _). congruence. }
    unfold withdraw_with_ref. apply wp_bind, wp_bind, wp_get. rewrite Hb.
    apply wp_bind, wp_lift_opt; [intros y Hy|intros [=]].
    assert (y = b) as -> by congruence.
    destruct (b <? amount) eqn:Hlt.
    { apply Z.ltb_lt in Hlt. apply wp_throw. split; [done|].
      intros (b' & Hb' & Hle & _). assert (b' = b) as -> by congruence. lia. }
    apply Z.ltb_ge in Hlt. apply wp_put.
    unfold fa_burn. apply wp_bind, wp_bind, wp_get. cbn [set_stores supply].
    destruct (supply l <? amount) eqn:Hsup.
    { apply Z.ltb_lt in Hsup. apply wp_throw. split; [done|].
      intros (_ & _ & _ & Hle). lia. }
    apply Z.ltb_ge in Hsup. apply wp_put.
    apply wp_bind, wp_coin_now_seconds, wp_emit_event.
    exists b. done. }
  unfold wp in Hwp. split; [split|split].
  - intros [l' Hok]. rewrite Hok in Hwp. destruct Hwp as (b & Hb & Hle & Hsup & _).
    eauto.
  - intros Hex. destruct (burn admin amount env l) as [[] l'|e l']; [eauto|].
    by destruct Hwp as [_ Hno].
  - intros e l' Hfail. rewrite Hfail in Hwp. by destruct Hwp.
  - intros l' Hok. rewrite Hok in Hwp. destruct Hwp as (b & Hb & Hle & Hsup & ->).
    unfold balance. cbn [stores supply events]. rewrite lookup_insert_eq, Hb.
    cbn [default from_option id]. repeat split; try done.
    intros a Hne. by rewrite lookup_insert_ne by done.
Qed.

(** X16: what the owner mints to itself it can burn again: a [burn] of
    the same amount right after a successful [mint] to the admin returns,
    and restores every balance and the total supply; the log has grown by
    the mint event and the burn event. *)
Theorem mint_then_burn_restores admin amount env env' l l1 :
  ledger_sound l → is_u64 amount →
  mint admin admin amount env l = Ok tt l1 →
  ∃ l2, burn admin amount env' l1 = Ok tt l2 ∧
        (∀ a, balance l2 a = balance l a) ∧
        total_supply l2 = total_supply l ∧
        events l2 = events l ++ [MintEvent admin amount (now env);
                                 BurnEvent admin amount (now env')].
Proof.
  intros (Hsum & Hu & _) Hamount Hmint.
  assert (0 ≤ supply l) as Hsup.
  { rewrite Hsum. apply total_nonneg. intros a b Hb. by apply (Hu a b). }
  pose proof (mint_wp admin admin amount env l
                (λ _ l', metadata_owner l = Some admin ∧
                   default 0 (stores l !! admin) + amount ≤ MAX_U64 ∧
                   l' = {| metadata_owner := metadata_owner l;
                           stores := <[admin := default 0 (stores l !! admin)
                                                + amount]> (stores l);
                           supply := supply l + amount;
                           events := events l
                                     ++ [MintEvent admin amount (now env)] |}))
    as Hwp.
  unfold wp in Hwp. rewrite Hmint in Hwp.
  destruct Hwp as (Ho & Hle & ->); [done|].
  set (b := default 0 (stores l !! admin)) in *.
  assert (0 ≤ b) as Hb.
  { subst b. destruct (stores l !! admin) as [b0|] eqn:Hb0; cbn [default from_option id].
    - by apply (Hu admin b0).
    - done. }
  unfold is_u64 in Hamount.
  eexists. split.
  { apply (burn_returns admin amount env' _ (b + amount));
      cbn [metadata_owner stores supply]; [done|by rewrite lookup_insert_eq|lia|lia]. }
  cbn [metadata_owner stores supply events]. split; [|split].
  - intros a. unfold balance. cbn [stores]. rewrite insert_insert_eq.
    destruct (decide (a = admin)) as [->|Hne].
    + rewrite lookup_insert_eq. cbn [default from_option id]. fold b. lia.
    + by rewrite lookup_insert_ne by done.
  - unfold total_supply. cbn [metadata_owner supply]. rewrite Ho. f_equal. lia.
  - by rewrite <- app_assoc.
Qed.

(** X17: [reward_new_player] pays at most once: after a call that
    returned, the player holds a non-zero balance, and a second call, at
    whatever time, returns without changing the ledger.  The first call paid
    the initial amount and logged one reward event when the balance was
    zero, and changed nothing when it was not. *)
Theorem reward_new_player_pays_once admin player env env' l l1 :
  reward_new_player admin player env l = Ok tt l1 →
  reward_new_player admin player env' l1 = Ok tt l1 ∧
  balance l1 player ≠ 0 ∧
  (balance l player ≠ 0 → l1 = l) ∧
  (balance l player = 0 →
   balance l1 player = INITIAL_PLAYER_AMOUNT ∧
   supply l1 = supply l + INITIAL_PLAYER_AMOUNT ∧
   events l1 = events l ++ [PlayerLoginReward player INITIAL_PLAYER_AMOUNT (now env)]).
Proof.
  intros Hok.
  pose proof (reward_new_player_wp admin player env l
                (λ _ l', metadata_owner l = Some admin ∧
                   ((∃ b, stores l !! player = Some b ∧ b ≠ 0 ∧ l' = l) ∨
                    (stores l !! player = Some 0 ∧
                     l' = {| metadata_owner := metadata_owner l;
                             stores := <[player := INITIAL_PLAYER_AMOUNT]> (stores l);
                             supply := supply l + INITIAL_PLAYER_AMOUNT;
                             events := events l
                                       ++ [PlayerLoginReward player
                                             INITIAL_PLAYER_AMOUNT (now env)] |}))))
    as Hwp.
  unfold wp in Hwp. rewrite Hok in Hwp.
  destruct Hwp as (Ho & [(b & Hb & Hne & ->)|(Hb & ->)]).
  { intros b Ho Hb Hne. split; [done|]. left. eauto. }
  { intros Ho Hb _. split; [done|]. by right. }
  - unfold balance. rewrite Hb. cbn [default from_option id].
    split; [by apply (reward_new_player_positive_balance admin player env' l b)|].
    split; [done|]. split; [done|]. intros Hz. done.
  - unfold balance. cbn [stores supply events]. rewrite lookup_insert_eq, Hb.
    cbn [default from_option id]. split.
    { apply (reward_new_player_positive_balance admin player env' _
               INITIAL_PLAYER_AMOUNT); cbn [metadata_owner stores];
        [done|by rewrite lookup_insert_eq|done]. }
    split; [done|]. split; [intros Hne; done|]. intros _. done.
Qed.

End conservation.

(** ** Further statements at concrete inputs *)

Section worked_examples.
Import velmora_nft spec names_spec scenario.
#[local] Existing Instance reference.simple_tokens.
#[local] Existing Instance reference.toy_hashing.


Lemma is_metadata_id_used_reflects_available_witness :
  is_metadata_id_used opened creator 5 = inr false
  ↔ 5 ∈ available_metadata_ids (fresh_pool creator).
Proof.
  assert (0 ≤ 5) as Hid by lia.
  exact (proj1 (proj2 (is_metadata_id_used_reflects_available
                         opened creator (fresh_pool creator) 5
                         opened_lookup (fresh_pool_invariant creator) Hid))).
Defined.

Lemma available_count_tracks_allocations_witness :
  let txs := [(creator, MintRandomNft player, env0);
              (stranger, MintRandomNft player, env0);
              (creator, MintRandomNftSecure player, env1)] in
  get_available_count (run_all txs opened) creator
  = get_available_count opened creator
    - Z.of_nat (length (allocated creator txs opened)).
Proof.
  intros txs.
  exact (proj1 (available_count_tracks_allocations
                  creator txs opened (fresh_pool creator)
                  opened_lookup opened_invariant)).
Defined.

Lemma direct_mints_bypass_pool_witness :
  is_metadata_id_used
    (step creator (MintFromMetadataId player 5 10 10) env0 opened).2 creator 5
  = is_metadata_id_used opened creator 5 ∧
  get_available_count
    (step creator (MintFromMetadataId player 5 10 10) env0 opened).2 creator
  = get_available_count opened creator.
Proof.
  exact (direct_mints_bypass_pool creator (MintFromMetadataId player 5 10 10)
           env0 opened creator 5 eq_refl).
Defined.

Lemma initialize_never_resets_witness :
  ∃ e, step creator Initialize env1 opened = (inl e, opened).
Proof.
  apply (proj1 (initialize_never_resets creator env1 opened)).
  exists (fresh_pool creator). exact opened_lookup.
Defined.

Lemma admin_is_always_holder_witness :
  admin_is_holder (run_all transactions genesis).
Proof. exact (proj1 (admin_is_always_holder transactions genesis eq_refl)). Defined.


Lemma wrapper_argument_errors_witness :
  ∃ w', mint_from_metadata_id creator player 1201 10 10 env0 opened
        = Fail InvalidURI w'.
Proof.
  apply (proj2 (proj1 (wrapper_argument_errors creator player 1201 10 10
                         "" "" "" env0 opened))).
  unfold MAX_METADATA_ID. lia.
Defined.

Lemma transfer_nft_outcome_witness :
  transfer_nft stranger player creator COLLECTION_NAME "Aura Eye #801" 0 env0 opened
  = Fail FrameworkAbort opened.
Proof.
  destruct (transfer_nft_outcome stranger player creator COLLECTION_NAME
              "Aura Eye #801" 0 env0 opened) as [Hok Hfail].
  destruct (transfer_nft stranger player creator COLLECTION_NAME "Aura Eye #801" 0
              env0 opened) as [[] w'|e w'].
  - destruct (proj1 (Hok w') eq_refl) as (data_id & t & Hid & Ht & _).
    injection Hid as <-. vm_compute in Ht. discriminate Ht.
  - destruct (Hfail e w' eq_refl) as [-> ->]. reflexivity.
Defined.

Lemma burn_nft_guard_and_event_witness :
  burn_nft stranger creator COLLECTION_NAME "Aura Eye #801" 0 env0 opened
  = Fail PermissionDenied opened.
Proof.
  apply (proj1 (burn_nft_guard_and_event stranger creator COLLECTION_NAME
                  "Aura Eye #801" 0 env0 opened
                  (creator, COLLECTION_NAME, "Aura Eye #801"%string) eq_refl)).
  vm_compute. discriminate.
Defined.

Lemma admin_burn_nft_guard_and_event_witness :
  admin_burn_nft creator stranger COLLECTION_NAME "Aura Eye #801" 0 env0 opened
  = Fail (Abort (not_found E_COLLECTION_NOT_FOUND)) opened.
Proof.
  apply (proj1 (admin_burn_nft_guard_and_event creator stranger COLLECTION_NAME
                  "Aura Eye #801" 0 env0 opened (fresh_pool creator)
                  (creator, COLLECTION_NAME, "Aura Eye #801"%string)
                  opened_lookup eq_refl eq_refl)).
  vm_compute. discriminate.
Defined.

Lemma derived_attributes_pass_checks_witness :
  mint_nft_with_metadata_id creator player MAX_U64 env0 opened
  = Fail ArithmeticError opened.
Proof.
  assert (0 ≤ MAX_U64 ≤ MAX_U64) as Hid by (unfold MAX_U64; lia).
  apply (proj1 (derived_attributes_pass_checks creator player MAX_U64 env0 opened Hid)).
  unfold MAX_U64. lia.
Defined.

End worked_examples.

Section ledger_examples.
Import coins_of_aura spec ledger_spec scenario.

Lemma ledger0_sound : ledger_sound ledger0.
Proof.
  split; [|split].
  - cbn [ledger0 supply stores]. by rewrite total_empty.
  - intros a b. cbn [ledger0 stores]. by rewrite lookup_empty.
  - discriminate.
Qed.

Lemma empty_ledger_sound : ledger_sound empty_ledger.
Proof.
  split; [|split].
  - cbn [empty_ledger supply stores]. by rewrite total_empty.
  - intros a b. cbn [empty_ledger stores]. by rewrite lookup_empty.
  - done.
Qed.

Lemma supply_is_sum_of_balances_witness :
  ledger_sound
    (ledger_spec.run_all creator
       [(creator, Initialize, env0);
        (creator, Mint player 100, env0);
        (player, Transfer stranger 40, env1);
        (creator, RewardNewPlayer stranger, env1);
        (stranger, Burn 10, env1)]
       empty_ledger).
Proof.
  apply supply_is_sum_of_balances; [exact empty_ledger_sound|].
  repeat constructor; cbn; unfold is_u64, MAX_U64; lia.
Defined.

Lemma transfer_moves_coins_witness :
  ∃ l', transfer player stranger 40 env1
          (step creator creator (Mint player 100) env0 ledger0).2 = Ok tt l'.
Proof.
  assert (ledger_sound (step creator creator (Mint player 100) env0 ledger0).2) as Hl.
  { apply step_sound; [exact ledger0_sound|]. cbn. unfold is_u64, MAX_U64. lia. }
  apply (proj2 (transfer_moves_coins player stranger 40 env1 _ Hl)).
  - vm_compute. eauto.
  - vm_compute. discriminate.
  - intros _. vm_compute. discriminate.
Defined.

Lemma burn_needs_store_and_funds_witness :
  ∃ l', burn creator 40 env1 (final (mint creator creator 100 env0 ledger0)) = Ok tt l'.
Proof.
  assert (metadata_owner (final (mint creator creator 100 env0 ledger0)) = Some creator)
    as Ho by (vm_compute; reflexivity).
  apply (proj2 (proj1 (burn_needs_store_and_funds creator 40 env1 _ Ho))).
  exists 100. split; [vm_compute; reflexivity|].
  split; [lia|]. vm_compute. discriminate.
Defined.

Lemma mint_then_burn_restores_witness :
  ∃ l2, burn creator 100 env1 (final (mint creator creator 100 env0 ledger0)) = Ok tt l2 ∧
        (∀ a, balance l2 a = balance ledger0 a) ∧
        total_supply l2 = total_supply ledger0 ∧
        events l2 = [MintEvent creator 100 (now env0); BurnEvent creator 100 (now env1)].
Proof.
  assert (is_u64 100) as Hamount by (unfold is_u64, MAX_U64; lia).
  assert (returned (mint creator creator 100 env0 ledger0) = Some tt) as Hret
    by (vm_compute; reflexivity).
  exact (mint_then_burn_restores creator 100 env0 env1 ledger0 _
           ledger0_sound Hamount (returned_Ok _ _ Hret)).
Defined.

Lemma reward_new_player_pays_once_witness :
  reward_new_player creator player env1
    (final (reward_new_player creator player env0 ledger1))
  = Ok tt (final (reward_new_player creator player env0 ledger1)).
Proof.
  assert (returned (reward_new_player creator player env0 ledger1) = Some tt) as Hret
    by (vm_compute; reflexivity).
  exact (proj1 (reward_new_player_pays_once creator player env0 env1 ledger1 _
                  (returned_Ok _ _ Hret))).
Defined.

End ledger_examples.
